(** * Himetrica React Native tracker: delivery, durability and error capture

    A shallow embedding of [storage.ts], [transport.ts], [errors.ts],
    [config.ts], [client.ts] and the callbacks of [navigation.ts], followed
    by the properties of the specification that these decide and by
    further properties of the code.

    Conventions.
    - JavaScript numbers that hold millisecond timestamps, counters and
      sizes are integers of [Z]; NaN and fractions are not modelled.
    - [Date.now()] and [generateId()] (module [./visitor]) are inputs of the
      method that calls them: [now] and [fresh].
    - [AsyncStorage] and [fetch] are the environment.  An [AsyncStorage]
      call either resolves or rejects; which one is read off a list of
      coming outcomes, so that every pattern of persistence failures is a
      value of the model.
    - An [await] is a point where other tasks may run.  The methods of
      [Storage] are given as sequential computations, their awaits back to
      back; the [Transport] machine makes every await of [flush] and of its
      callbacks a step of its own, so that the callbacks of a batch
      interleave as [Promise.allSettled(batch.map(async ...))] lets them.
    - A call that is not awaited ([sendOrQueue] from the trackers) is an
      output of the caller: a [delivery].
    - [setTimeout] callbacks are kept in the state of the object that set
      them and run as events of their own.
    - [Storage.init] and [HimetricaClient.init], which awaits it, are not
      modelled: [parseInt] of a foreign timestamp is NaN, which the
      integers do not have.  The React components and hooks other than the
      callbacks of [useHimetricaNavigation] are not modelled either. *)

From Stdlib Require Import ZArith Lia Ascii String.
From stdpp Require Import base option list strings gmap.

Open Scope Z_scope.

(** ** Data model (storage.ts) *)

Record QueuedEvent := {
  id : string;
  endpoint : string;
  data : string;          (* the JSON payload, opaque *)
  timestamp : Z;
  retryCount : Z
}.

#[global] Instance QueuedEvent_eq_dec : EqDecision QueuedEvent.
Proof. solve_decision. Defined.

(** What [AsyncStorage] keeps under a key is a string.  [Json q] is the
    string [JSON.stringify(q)], which [JSON.parse] turns back into [q];
    [Num z] is [String(z)]; [Text s] is any other string.  Under the queue
    key a string that is not [Json q] stands for a damaged file: one that
    [JSON.parse] throws on.  (A string that parses to something that is not
    an array of events is outside the type [QueuedEvent[]] the code casts
    to.) *)
Inductive item :=
| Text (s : string)
| Num (z : Z)
| Json (q : list QueuedEvent).

#[global] Instance item_eq_dec : EqDecision item.
Proof. solve_decision. Defined.

Definition KEY_VISITOR_ID : string := "hm_visitor_id".
Definition KEY_SESSION_ID : string := "hm_session_id".
Definition KEY_SESSION_TIMESTAMP : string := "hm_session_timestamp".
Definition KEY_OFFLINE_QUEUE : string := "hm_offline_queue".

(** ** The environment *)

Inductive io_event :=
| IoGetItem (k : string)
| IoSetItem (k : string) (v : item)
| IoMultiSet (kvs : list (string * item))
| IoFetch (url : string) (body : string).

Record Sys := {
  disk : gmap string item;   (* the contents of AsyncStorage *)
  faults : list bool;        (* true: the next AsyncStorage call rejects *)
  journal : list io_event    (* calls made so far, oldest first *)
}.

Inductive result (A : Type) :=
| Ok (a : A)
| Rejected.
Arguments Ok {A} a.
Arguments Rejected {A}.

(** A computation on the environment that returns or throws. *)
Definition M (A : Type) : Type := Sys -> result A * Sys.

Definition ret {A} (a : A) : M A := fun w => (Ok a, w).

Definition bind {A B} (m : M A) (k : A -> M B) : M B := fun w =>
  match m w with
  | (Ok a, w') => k a w'
  | (Rejected, w') => (Rejected, w')
  end.

(** [try { m } catch { h }] *)
Definition try_catch {A} (m : M A) (h : M A) : M A := fun w =>
  match m w with
  | (Ok a, w') => (Ok a, w')
  | (Rejected, w') => h w'
  end.

Definition throw {A} : M A := fun w => (Rejected, w).

Notation "x <- m ;; k" := (bind m (fun x => k))
  (at level 100, m at next level, right associativity).
Notation "m ;;; k" := (bind m (fun _ => k))
  (at level 100, right associativity).

Definition next_fault (w : Sys) : bool * list bool :=
  match faults w with
  | [] => (false, [])
  | b :: fs => (b, fs)
  end.

(** One call to AsyncStorage: it is journalled, it consumes one outcome,
    and it touches the disk only when it resolves. *)
Definition async_call {A} (ev : io_event)
    (f : gmap string item -> A * gmap string item) : M A := fun w =>
  let '(bad, fs) := next_fault w in
  let j := journal w ++ [ev] in
  if bad then (Rejected, {| disk := disk w; faults := fs; journal := j |})
  else let '(a, d) := f (disk w) in
       (Ok a, {| disk := d; faults := fs; journal := j |}).

Module AsyncStorage.

Definition getItem (k : string) : M (option item) :=
  async_call (IoGetItem k) (fun d => (d !! k, d)).

Definition setItem (k : string) (v : item) : M unit :=
  async_call (IoSetItem k v) (fun d => (tt, <[k := v]> d)).

Definition multiSet (kvs : list (string * item)) : M unit :=
  async_call (IoMultiSet kvs)
    (fun d => (tt, foldl (fun acc kv => <[kv.1 := kv.2]> acc) d kvs)).

End AsyncStorage.

(** [JSON.parse(raw) as QueuedEvent[]] *)
Definition JSON_parse (raw : item) : M (list QueuedEvent) :=
  match raw with
  | Json q => ret q
  | _ => throw
  end.

(** [!raw] for a string [raw]: only the empty string is falsy. *)
Definition falsy (raw : item) : bool :=
  match raw with
  | Text s => bool_decide (s = EmptyString)
  | _ => false
  end.

(** ** storage.ts *)

Module Storage.

Record t := {
  visitorId : string;
  sessionId : string;
  sessionTimestamp : Z;
  initialized : bool
}.

Definition getVisitorId (this : t) : string := visitorId this.

Definition isReady (this : t) : bool := initialized this.

(** [setVisitorId]: the write is fired and its rejection is caught. *)
Definition setVisitorId (this : t) (new_id : string) : M t :=
  let this' := {| visitorId := new_id; sessionId := sessionId this;
                  sessionTimestamp := sessionTimestamp this;
                  initialized := initialized this |} in
  try_catch (AsyncStorage.setItem KEY_VISITOR_ID (Text new_id)) (ret tt) ;;;
  ret this'.

(** [getSessionId(sessionTimeout)], with [now = Date.now()] and
    [fresh = generateId()]. *)
Definition getSessionId (this : t) (sessionTimeout now : Z) (fresh : string)
    : M (string * t) :=
  if now - sessionTimestamp this >? sessionTimeout then
    let this' := {| visitorId := visitorId this; sessionId := fresh;
                    sessionTimestamp := now;
                    initialized := initialized this |} in
    try_catch
      (AsyncStorage.multiSet
         [(KEY_SESSION_ID, Text fresh); (KEY_SESSION_TIMESTAMP, Num now)])
      (ret tt) ;;;
    ret (sessionId this', this')
  else
    let this' := {| visitorId := visitorId this; sessionId := sessionId this;
                    sessionTimestamp := now;
                    initialized := initialized this |} in
    try_catch (AsyncStorage.setItem KEY_SESSION_TIMESTAMP (Num now)) (ret tt) ;;;
    ret (sessionId this', this').

Definition getQueue : M (list QueuedEvent) :=
  try_catch
    (raw <- AsyncStorage.getItem KEY_OFFLINE_QUEUE ;;
     match raw with
     | None => ret []
     | Some r => if falsy r then ret [] else JSON_parse r
     end)
    (ret []).

Definition saveQueue (queue : list QueuedEvent) : M unit :=
  try_catch (AsyncStorage.setItem KEY_OFFLINE_QUEUE (Json queue)) (ret tt).

Definition enqueueEvent (event : QueuedEvent) : M unit :=
  queue <- getQueue ;;
  saveQueue (queue ++ [event]).

Definition removeEvent (i : string) : M unit :=
  queue <- getQueue ;;
  saveQueue (filter (fun e => id e <> i) queue).

(** [queue.findIndex((e) => e.id === event.id)]; [None] is -1. *)
Definition findIndex (i : string) (queue : list QueuedEvent) : option nat :=
  fst <$> list_find (fun e => id e = i) queue.

Definition updateEvent (event : QueuedEvent) : M unit :=
  queue <- getQueue ;;
  match findIndex (id event) queue with
  | Some idx => saveQueue (<[idx := event]> queue)
  | None => ret tt
  end.

(** [queue.slice(queue.length - maxSize)]: the start index is positive
    whenever the guard holds. *)
Definition pruneQueue (maxSize : Z) : M unit :=
  queue <- getQueue ;;
  if Z.of_nat (length queue) >? maxSize then
    saveQueue (drop (Z.to_nat (Z.of_nat (length queue) - maxSize)) queue)
  else ret tt.

End Storage.

(** ** config.ts *)

Record ResolvedConfig := {
  apiKey : string;
  apiUrl : string;
  autoTrackScreens : bool;
  autoTrackErrors : bool;
  sessionTimeout : Z;
  enableLogging : bool;
  maxQueueSize : Z;
  flushInterval : Z
}.

(** What the application passes; [None] is a field left out. *)
Module HimetricaConfig.

Record t := {
  apiKey : string;
  apiUrl : option string;
  autoTrackScreens : option bool;
  autoTrackErrors : option bool;
  sessionTimeout : option Z;
  enableLogging : option bool;
  maxQueueSize : option Z;
  flushInterval : option Z
}.

End HimetricaConfig.

(** [resolveConfig]: [x ?? d] is [d] only when [x] is left out. *)
Definition resolveConfig (config : HimetricaConfig.t) : ResolvedConfig :=
  {| apiKey := HimetricaConfig.apiKey config;
     apiUrl := default "https://app.himetrica.com" (HimetricaConfig.apiUrl config);
     autoTrackScreens := default true (HimetricaConfig.autoTrackScreens config);
     autoTrackErrors := default true (HimetricaConfig.autoTrackErrors config);
     sessionTimeout := default (30 * 60 * 1000) (HimetricaConfig.sessionTimeout config);
     enableLogging := default false (HimetricaConfig.enableLogging config);
     maxQueueSize := default 1000 (HimetricaConfig.maxQueueSize config);
     flushInterval := default 30 (HimetricaConfig.flushInterval config) |}.

(** The queue a reader of the disk sees: what [getQueue] returns when the
    read itself resolves. *)
Definition queue_of (w : Sys) : list QueuedEvent :=
  match disk w !! KEY_OFFLINE_QUEUE with
  | Some (Json q) => q
  | _ => []
  end.

(** ** transport.ts *)

Module Transport.

(** [send]: one POST; [ok] is what the network answers ([response.ok], or
    [false] when [fetch] throws). *)
Definition send (config : ResolvedConfig) (endpoint data : string) (ok : bool)
    : M bool := fun w =>
  (Ok ok, {| disk := disk w; faults := faults w;
             journal := journal w ++ [IoFetch (apiUrl config +:+ endpoint) data] |}).

Definition sendOrQueue (config : ResolvedConfig) (endpoint data : string)
    (ok : bool) (fresh : string) (now : Z) : M unit :=
  success <- send config endpoint data ok ;;
  if success then ret tt
  else
    Storage.enqueueEvent
      {| id := fresh; endpoint := endpoint; data := data;
         timestamp := now; retryCount := 0 |} ;;;
    Storage.pruneQueue (maxQueueSize config).

(** *** [flush] as a machine

    Every [await] of [flush] and of the per-event callbacks is a step of
    its own.  A callback of the batch is in one of these places. *)
Inductive handler :=
| AwaitSend (event : QueuedEvent)          (* await this.send(...) *)
| AwaitRemoveRead (i : string)             (* removeEvent: await getQueue() *)
| AwaitUpdateRead (event : QueuedEvent)    (* updateEvent: await getQueue() *)
| AwaitSave (queue : list QueuedEvent)     (* await saveQueue(queue) *)
| Settled.

#[global] Instance handler_eq_dec : EqDecision handler.
Proof. solve_decision. Defined.

(** A call of [flush] that got past the guard. *)
Inductive task :=
| AwaitQueue                               (* await this.storage.getQueue() *)
| AwaitAllSettled (hs : list handler)      (* await Promise.allSettled(...) *)
| Returned.

#[global] Instance task_eq_dec : EqDecision task.
Proof. solve_decision. Defined.

Record t := {
  world : Sys;
  flushing : bool;
  tasks : list task
}.

(** What resumes a callback. *)
Inductive resumption :=
| SendSettled (ok : bool)
| ReadSettled
| SaveSettled.

Inductive action :=
| CallFlush
| QueueRead (i : nat)
| Resume (i j : nat) (r : resumption)
| AllSettled (i : nat).

Definition issue_sends (config : ResolvedConfig) (batch : list QueuedEvent)
    (w : Sys) : Sys :=
  {| disk := disk w; faults := faults w;
     journal := journal w ++
       map (fun e => IoFetch (apiUrl config +:+ endpoint e) (data e)) batch |}.

(** The callback of [batch.map], from the point where [send] settles. *)
Definition after_send (event : QueuedEvent) (success : bool) : handler :=
  if success then AwaitRemoveRead (id event)
  else if retryCount event <? 3 then
    AwaitUpdateRead
      {| id := id event; endpoint := endpoint event; data := data event;
         timestamp := timestamp event; retryCount := retryCount event + 1 |}
  else AwaitRemoveRead (id event).

(** The same callback run without a pause, from the same point. *)
Definition settle (event : QueuedEvent) (success : bool) : M unit :=
  if success then Storage.removeEvent (id event)
  else if retryCount event <? 3 then
    Storage.updateEvent
      {| id := id event; endpoint := endpoint event; data := data event;
         timestamp := timestamp event; retryCount := retryCount event + 1 |}
  else Storage.removeEvent (id event).

Definition resume (r : resumption) (h : handler) (w : Sys)
    : option (handler * Sys) :=
  match r, h with
  | SendSettled ok, AwaitSend event => Some (after_send event ok, w)
  | ReadSettled, AwaitRemoveRead i =>
      match Storage.getQueue w with
      | (Ok queue, w') => Some (AwaitSave (filter (fun e => id e <> i) queue), w')
      | (Rejected, w') => Some (Settled, w')
      end
  | ReadSettled, AwaitUpdateRead event =>
      match Storage.getQueue w with
      | (Ok queue, w') =>
          match Storage.findIndex (id event) queue with
          | Some idx => Some (AwaitSave (<[idx := event]> queue), w')
          | None => Some (Settled, w')
          end
      | (Rejected, w') => Some (Settled, w')
      end
  | SaveSettled, AwaitSave queue => Some (Settled, (Storage.saveQueue queue w).2)
  | _, _ => None
  end.

Definition all_settled (hs : list handler) : bool :=
  forallb (fun h => bool_decide (h = Settled)) hs.

(** [flush], one await at a time.
    - [CallFlush]: [if (this.flushing) return; this.flushing = true], up
      to [await this.storage.getQueue()].
    - [QueueRead i]: the read of call [i] settles.  On the empty queue the
      call returns through [finally].  Otherwise [batch = queue.slice(0, 50)]
      and [batch.map] starts every callback, each up to its
      [await this.send(...)]: all the POSTs are issued here.
    - [Resume i j r]: callback [j] of call [i] goes on from the await that
      settled to its next one.  A read sees the disk as it is when the read
      settles, a write changes it when the write settles.
    - [AllSettled i]: every callback has settled, [Promise.allSettled]
      resolves and [finally] clears the flag.
    The [log] call of the discard branch has no effect on the state. *)

Definition step (config : ResolvedConfig) (a : action) (s : t) : option t :=
  match a with
  | CallFlush =>
      if flushing s then Some s
      else Some {| world := world s; flushing := true;
                   tasks := tasks s ++ [AwaitQueue] |}
  | QueueRead i =>
      match tasks s !! i with
      | Some AwaitQueue =>
          match Storage.getQueue (world s) with
          | (Ok (e :: queue), w) =>
              let batch := take 50 (e :: queue) in
              Some {| world := issue_sends config batch w;
                      flushing := flushing s;
                      tasks := <[i := AwaitAllSettled (map AwaitSend batch)]> (tasks s) |}
          | (_, w) =>
              (* the empty queue: [return], through [finally] *)
              Some {| world := w; flushing := false;
                      tasks := <[i := Returned]> (tasks s) |}
          end
      | _ => None
      end
  | Resume i j r =>
      match tasks s !! i with
      | Some (AwaitAllSettled hs) =>
          h ← hs !! j;
          hw ← resume r h (world s);
          Some {| world := hw.2; flushing := flushing s;
                  tasks := <[i := AwaitAllSettled (<[j := hw.1]> hs)]> (tasks s) |}
      | _ => None
      end
  | AllSettled i =>
      match tasks s !! i with
      | Some (AwaitAllSettled hs) =>
          if all_settled hs then
            Some {| world := world s; flushing := false;
                    tasks := <[i := Returned]> (tasks s) |}
          else None
      | _ => None
      end
  end.

Fixpoint run (config : ResolvedConfig) (sched : list action) (s : t) : option t :=
  match sched with
  | [] => Some s
  | a :: sched' => s' ← step config a s; run config sched' s'
  end.

Definition init (w : Sys) : t :=
  {| world := w; flushing := false; tasks := [] |}.

End Transport.

(** ** What the trackers hand to [Transport.sendOrQueue] *)

Inductive Severity := SevError | SevWarning | SevInfo.

Record ErrorPayload := {
  ep_visitorId : string;
  ep_sessionId : string;
  ep_type : string;
  ep_message : string;
  ep_stack : option string;
  ep_severity : Severity;
  ep_userAgent : string;
  ep_timestamp : Z;
  ep_context : option string
}.

Inductive payload :=
| PError (p : ErrorPayload)
| PScreen (visitor session screenViewId screenName path : string) (stamp : Z)
| PDuration (screenViewId : string) (duration : Z).

(** A call [this.transport.sendOrQueue(url, payload)]; it is not awaited. *)
Definition delivery : Type := string * payload.

(** ** errors.ts *)

Module ErrorTracker.

Definition MAX_ERRORS_PER_WINDOW : Z := 10.
Definition RATE_LIMIT_WINDOW_MS : Z := 60000.
Definition DEDUP_EXPIRY_MS : Z := 5 * 60000.
Definition MAX_STACK_LINES : nat := 20.

(** [x | 0]: the signed 32-bit integer congruent to [x]. *)
Definition to_int32 (x : Z) : Z := (x + 2 ^ 31) mod 2 ^ 32 - 2 ^ 31.

(** [str.charCodeAt(i)]: a string is taken as the list of its code units,
    one [ascii] each. *)
Definition charCode (c : ascii) : Z := Z.of_N (Ascii.N_of_ascii c).

Fixpoint hash_loop (hash : Z) (str : string) : Z :=
  match str with
  | EmptyString => hash
  | String c rest =>
      hash_loop (to_int32 (to_int32 (Z.shiftl hash 5) + hash + charCode c)) rest
  end.

(** [hashString]; the decimal rendering [String(hash)] is left out, it is
    one-to-one on integers. *)
Definition hashString (str : string) : Z := hash_loop 5381 str.

Definition newline : ascii := Ascii.ascii_of_nat 10.

(** [str.split("\n")] *)
Fixpoint split_lines (str : string) : list string :=
  match str with
  | EmptyString => [EmptyString]
  | String c rest =>
      if bool_decide (c = newline) then EmptyString :: split_lines rest
      else match split_lines rest with
           | l :: ls => String c l :: ls
           | [] => [String c EmptyString]
           end
  end.

(** [lines.join("\n")] *)
Fixpoint join_lines (lines : list string) : string :=
  match lines with
  | [] => EmptyString
  | [l] => l
  | l :: ls => l +:+ String newline (join_lines ls)
  end.

Definition normalizeStack (stack : option string) : option string :=
  match stack with
  | None => None
  | Some s =>
      if bool_decide (s = EmptyString) then None
      else Some (join_lines (take MAX_STACK_LINES (split_lines s)))
  end.

Record JsError := {
  name : string;
  message : string;
  stack : option string
}.

(** [error.message || String(error)]; [String(error)] of an error without
    a message is its name. *)
Definition message_of (error : JsError) : string :=
  if bool_decide (message error = EmptyString) then name error else message error.

Definition dedupKey (error : JsError) : Z :=
  hashString (message_of error +:+ "|" +:+ default EmptyString (normalizeStack (stack error))).

Record t := {
  errorTimestamps : list Z;
  sentErrorHashes : gset Z;
  evictions : list (Z * Z)   (* pending [setTimeout]s of isDuplicate: due time, hash *)
}.

Definition isRateLimited (now : Z) (this : t) : bool * t :=
  let live := filter (fun t => now - t < RATE_LIMIT_WINDOW_MS) (errorTimestamps this) in
  if Z.of_nat (length live) >=? MAX_ERRORS_PER_WINDOW then
    (true, {| errorTimestamps := live;
              sentErrorHashes := sentErrorHashes this;
              evictions := evictions this |})
  else
    (false, {| errorTimestamps := live ++ [now];
               sentErrorHashes := sentErrorHashes this;
               evictions := evictions this |}).

(** [isDuplicate]; the timer is set at time [now]. *)
Definition isDuplicate (now : Z) (hash : Z) (this : t) : bool * t :=
  if bool_decide (hash ∈ sentErrorHashes this) then (true, this)
  else
    (false, {| errorTimestamps := errorTimestamps this;
               sentErrorHashes := {[hash]} ∪ sentErrorHashes this;
               evictions := evictions this ++ [(now + DEDUP_EXPIRY_MS, hash)] |}).

(** The callback of such a timer. *)
Definition evict (hash : Z) (this : t) : t :=
  {| errorTimestamps := errorTimestamps this;
     sentErrorHashes := sentErrorHashes this ∖ {[hash]};
     evictions := evictions this |}.

(** The event loop at time [now]: the timers that are due have run. *)
Definition run_timers (now : Z) (this : t) : t :=
  let due := filter (fun d => d.1 <= now) (evictions this) in
  let this' := foldl (fun acc d => evict d.2 acc) this due in
  {| errorTimestamps := errorTimestamps this';
     sentErrorHashes := sentErrorHashes this';
     evictions := filter (fun d => now < d.1) (evictions this) |}.

Definition errors_url (config : ResolvedConfig) : string :=
  "/api/track/errors?apiKey=" +:+ apiKey config.

(** [captureError(error, context, type, severity)].  The result is the
    tracker, the storage object and the delivery it starts, if any. *)
Definition captureError (config : ResolvedConfig) (userAgent : string)
    (now : Z) (fresh : string)
    (error : JsError) (context : option string) (type : string)
    (severity : Severity) (this : t) (storage : Storage.t)
    : M (t * Storage.t * list delivery) :=
  if negb (Storage.isReady storage) then ret (this, storage, [])
  else
    let message := message_of error in
    let stack := normalizeStack (stack error) in
    let key := dedupKey error in
    let '(limited, this1) := isRateLimited now this in
    if limited then ret (this1, storage, [])
    else
      let '(duplicate, this2) := isDuplicate now key this1 in
      if duplicate then ret (this2, storage, [])
      else
        ss <- Storage.getSessionId storage (sessionTimeout config) now fresh ;;
        ret (this2, ss.2,
             [(errors_url config,
               PError {| ep_visitorId := Storage.getVisitorId storage;
                         ep_sessionId := ss.1;
                         ep_type := type;
                         ep_message := message;
                         ep_stack := stack;
                         ep_severity := severity;
                         ep_userAgent := userAgent;
                         ep_timestamp := now;
                         ep_context := context |})]).

(** [captureMessage(message, severity, context)]: [new Error(message)]
    has the name "Error"; its stack is the environment's. *)
Definition captureMessage (config : ResolvedConfig) (userAgent : string)
    (now : Z) (fresh : string) (msg : string) (trace : option string)
    (severity : Severity) (context : option string) (this : t)
    (storage : Storage.t) : M (t * Storage.t * list delivery) :=
  captureError config userAgent now fresh
    {| name := "Error"; message := msg; stack := trace |}
    context "console" severity this storage.

(** *** The global handlers ([install], [uninstall])

    The runtime has one global error handler ([ErrorUtils], which may be
    missing) and one rejection tracker (the module
    [promise/setimmediate/rejection-tracking], whose [require] may throw);
    [enable] gives the tracker to the caller, [disable] turns it off. *)
Inductive global_handler :=
| Foreign (n : nat)      (* a handler that is not the tracker's *)
| Capturing.             (* the closure that [install] sets *)

#[global] Instance global_handler_eq_dec : EqDecision global_handler.
Proof. solve_decision. Defined.

Inductive rejection_tracking :=
| TrackingOff
| TrackingForeign        (* enabled by someone else *)
| TrackingCapturing.     (* enabled by [install], with its [onUnhandled] *)

Record runtime := {
  ErrorUtils : option global_handler;   (* [None]: [global.ErrorUtils] is undefined *)
  tracking_module : bool;               (* whether [require] finds the module *)
  tracking : rejection_tracking
}.

Record hooks := {
  installed : bool;
  originalHandler : option global_handler
}.

Definition install (this : hooks) (rt : runtime) : result unit * hooks * runtime :=
  if installed this then (Ok tt, this, rt)
  else
    let this1 :=
      match ErrorUtils rt with
      | Some h => {| installed := true; originalHandler := Some h |}
      | None => {| installed := true; originalHandler := originalHandler this |}
      end in
    let rt1 :=
      match ErrorUtils rt with
      | Some h => {| ErrorUtils := Some Capturing;
                     tracking_module := tracking_module rt;
                     tracking := tracking rt |}
      | None => rt
      end in
    if tracking_module rt1 then
      (Ok tt, this1, {| ErrorUtils := ErrorUtils rt1;
                        tracking_module := tracking_module rt1;
                        tracking := TrackingCapturing |})
    else (Rejected, this1, rt1).     (* [require] throws *)

Definition uninstall (this : hooks) (rt : runtime) : hooks * runtime :=
  if negb (installed this) then (this, rt)
  else
    let restore :=
      match ErrorUtils rt, originalHandler this with
      | Some _, Some h => Some h
      | _, _ => None
      end in
    let rt1 :=
      match restore with
      | Some h => {| ErrorUtils := Some h;
                     tracking_module := tracking_module rt;
                     tracking := tracking rt |}
      | None => rt
      end in
    let original :=
      match restore with
      | Some _ => None
      | None => originalHandler this
      end in
    let rt2 :=
      if tracking_module rt1 then
        {| ErrorUtils := ErrorUtils rt1;
           tracking_module := tracking_module rt1;
           tracking := TrackingOff |}
      else rt1 in                      (* [require] throws, and is caught *)
    ({| installed := false; originalHandler := original |}, rt2).







End ErrorTracker.

(** ** client.ts: the screen tracker *)

Module Client.

Definition MIN_DURATION : Z := 1.
Definition MAX_DURATION : Z := 3600.
Definition FIRST_SCREEN_DELAY : Z := 300.
Definition SUBSEQUENT_SCREEN_DELAY : Z := 1000.

(** What the callback given to [setTimeout] in [trackScreen] closes over. *)
Record activation := {
  act_name : string;
  act_path : string;
  act_screenViewId : string
}.

Record t := {
  storage : Storage.t;
  destroyed : bool;
  currentScreenName : option string;
  currentScreenPath : option string;
  currentScreenViewId : option string;
  screenStartTime : Z;
  screenDebounceTimer : option nat;
  isFirstScreen : bool;
  (* the runtime's timers: pending callbacks by handle, with their delay;
     handles are positive numbers, so a handle that is held is truthy *)
  timeouts : gmap nat (Z * activation);
  next_handle : nat
}.

(** What a step of the tracker lets the outside see. *)
Inductive observation :=
| Activated (a : activation)
| Sent (d : delivery).

(** [Math.round(ms / 1000)]: the nearest integer, halves upwards. *)
Definition round_seconds (ms : Z) : Z := (ms + 500) / 1000.

(** [!this.currentScreenViewId]: [null] and the empty string are falsy. *)
Definition live_view (v : option string) : option string :=
  match v with
  | Some s => if bool_decide (s = EmptyString) then None else Some s
  | None => None
  end.

Definition duration_url (config : ResolvedConfig) : string :=
  "/api/track/screen/duration?apiKey=" +:+ apiKey config.

Definition screen_url (config : ResolvedConfig) : string :=
  "/api/track/screen?apiKey=" +:+ apiKey config.

Definition sendScreenDuration (config : ResolvedConfig) (now : Z) (this : t)
    : t * list delivery :=
  match live_view (currentScreenViewId this) with
  | None => (this, [])
  | Some view =>
      if bool_decide (screenStartTime this = 0) then (this, [])
      else if negb (Storage.isReady (storage this)) then (this, [])
      else
        let durationSec := round_seconds (now - screenStartTime this) in
        let clampedDuration := Z.max MIN_DURATION (Z.min MAX_DURATION durationSec) in
        if durationSec <? MIN_DURATION then (this, [])
        else
          ({| storage := storage this;
              destroyed := destroyed this;
              currentScreenName := currentScreenName this;
              currentScreenPath := currentScreenPath this;
              currentScreenViewId := None;
              screenStartTime := 0;
              screenDebounceTimer := screenDebounceTimer this;
              isFirstScreen := isFirstScreen this;
              timeouts := timeouts this;
              next_handle := next_handle this |},
           [(duration_url config, PDuration view clampedDuration)])
  end.

(** [path ?? `/${name}`] *)
Definition effective_path (name : string) (path : option string) : string :=
  default ("/" +:+ name) path.

(** [trackScreen(name, path)], with [now = Date.now()] for the duration
    and [fresh = generateId()] for the view. *)
Definition trackScreen (config : ResolvedConfig) (now : Z) (fresh : string)
    (name : string) (path : option string) (this : t) : t * list delivery :=
  if destroyed this then (this, [])
  else
    let effectivePath := effective_path name path in
    if bool_decide (currentScreenName this = Some name) &&
       bool_decide (currentScreenPath this = Some effectivePath)
    then (this, [])
    else
      let '(this1, out) := sendScreenDuration config now this in
      let delay := if isFirstScreen this1 then FIRST_SCREEN_DELAY
                   else SUBSEQUENT_SCREEN_DELAY in
      let pending := match screenDebounceTimer this1 with
                     | Some h => delete h (timeouts this1)   (* clearTimeout *)
                     | None => timeouts this1
                     end in
      let h := next_handle this1 in
      ({| storage := storage this1;
          destroyed := destroyed this1;
          currentScreenName := currentScreenName this1;
          currentScreenPath := currentScreenPath this1;
          currentScreenViewId := currentScreenViewId this1;
          screenStartTime := screenStartTime this1;
          screenDebounceTimer := Some h;
          isFirstScreen := isFirstScreen this1;
          timeouts := <[h := (delay,
                              {| act_name := name; act_path := effectivePath;
                                 act_screenViewId := fresh |})]> pending;
          next_handle := S h |},
       out).

(** The body of the debounce callback, run at time [now]; [fresh] is what
    [generateId] gives if the session rotates. *)
Definition activate (config : ResolvedConfig) (now : Z) (fresh : string)
    (a : activation) (this : t) : M (t * list observation) :=
  let this1 :=
    {| storage := storage this;
       destroyed := destroyed this;
       currentScreenName := Some (act_name a);
       currentScreenPath := Some (act_path a);
       currentScreenViewId := Some (act_screenViewId a);
       screenStartTime := now;
       screenDebounceTimer := screenDebounceTimer this;
       isFirstScreen := false;
       timeouts := timeouts this;
       next_handle := next_handle this |} in
  if negb (Storage.isReady (storage this1)) then ret (this1, [Activated a])
  else
    ss <- Storage.getSessionId (storage this1) (sessionTimeout config) now fresh ;;
    ret ({| storage := ss.2;
            destroyed := destroyed this1;
            currentScreenName := currentScreenName this1;
            currentScreenPath := currentScreenPath this1;
            currentScreenViewId := currentScreenViewId this1;
            screenStartTime := screenStartTime this1;
            screenDebounceTimer := screenDebounceTimer this1;
            isFirstScreen := isFirstScreen this1;
            timeouts := timeouts this1;
            next_handle := next_handle this1 |},
         [Activated a;
          Sent (screen_url config,
                PScreen (Storage.getVisitorId (storage this1)) ss.1
                        (act_screenViewId a) (act_name a) (act_path a) now)]).

(** What happens to the tracker. *)
Inductive event :=
| TrackScreen (name : string) (path : option string)
| TimerFires (h : nat).

Definition exec (config : ResolvedConfig) (now : Z) (fresh : string)
    (ev : event) (this : t) : M (t * list observation) :=
  match ev with
  | TrackScreen name path =>
      let '(this', out) := trackScreen config now fresh name path this in
      ret (this', map Sent out)
  | TimerFires h =>
      match timeouts this !! h with
      | None => ret (this, [])
      | Some (_, a) =>
          activate config now fresh a
            {| storage := storage this;
               destroyed := destroyed this;
               currentScreenName := currentScreenName this;
               currentScreenPath := currentScreenPath this;
               currentScreenViewId := currentScreenViewId this;
               screenStartTime := screenStartTime this;
               screenDebounceTimer := screenDebounceTimer this;
               isFirstScreen := isFirstScreen this;
               timeouts := delete h (timeouts this);
               next_handle := next_handle this |}
      end
  end.

(** A history: each event with the clock reading and the identifier the
    generator would give at that moment. *)
Fixpoint run (config : ResolvedConfig) (history : list (Z * string * event))
    (this : t) : M (t * list observation) :=
  match history with
  | [] => ret (this, [])
  | (now, fresh, ev) :: rest =>
      r1 <- exec config now fresh ev this ;;
      r2 <- run config rest r1.1 ;;
      ret (r2.1, r1.2 ++ r2.2)
  end.

(** *** The rest of the client *)

Definition MAX_EVENT_NAME_LENGTH : nat := 255.

Definition is_letter (c : ascii) : bool :=
  let n := ErrorTracker.charCode c in
  (65 <=? n) && (n <=? 90) || (97 <=? n) && (n <=? 122).

Definition is_digit (c : ascii) : bool :=
  let n := ErrorTracker.charCode c in
  (48 <=? n) && (n <=? 57).

(** [[a-zA-Z0-9_-]] *)
Definition is_name_char (c : ascii) : bool :=
  is_letter c || is_digit c ||
  bool_decide (c = "_"%char) || bool_decide (c = "-"%char).

Fixpoint all_name_chars (s : string) : bool :=
  match s with
  | EmptyString => true
  | String c rest => is_name_char c && all_name_chars rest
  end.

(** [EVENT_NAME_REGEX.test(s)] for [/^[a-zA-Z][a-zA-Z0-9_-]*$/]: without
    the [m] flag [$] is the end of the string. *)
Definition EVENT_NAME_REGEX_test (s : string) : bool :=
  match s with
  | EmptyString => false
  | String c rest => is_letter c && all_name_chars rest
  end.

Record EventPayload := {
  ev_visitorId : string;
  ev_sessionId : string;
  ev_event : string;
  ev_properties : string;     (* the JSON of the properties, opaque *)
  ev_timestamp : Z
}.

(** The calls a method makes on the objects the client holds; none of
    them is awaited except [transport.flush()] in [flush]. *)
Inductive effect :=
| SendOrQueue (d : delivery)
| SendOrQueueEvent (url : string) (p : EventPayload)
| TransportFlush
| TransportPersistQueue
| TransportStop
| ErrorTrackerUninstall
| SubscriptionRemove.

Definition with_storage (this : t) (st : Storage.t) : t :=
  {| storage := st;
     destroyed := destroyed this;
     currentScreenName := currentScreenName this;
     currentScreenPath := currentScreenPath this;
     currentScreenViewId := currentScreenViewId this;
     screenStartTime := screenStartTime this;
     screenDebounceTimer := screenDebounceTimer this;
     isFirstScreen := isFirstScreen this;
     timeouts := timeouts this;
     next_handle := next_handle this |}.

Definition event_url (config : ResolvedConfig) : string :=
  "/api/track/event?apiKey=" +:+ apiKey config.

(** [track(eventName, properties)] *)
Definition track (config : ResolvedConfig) (now : Z) (fresh : string)
    (eventName : string) (properties : option string) (this : t)
    : M (t * list effect) :=
  if destroyed this then ret (this, [])
  else if negb (Storage.isReady (storage this)) then ret (this, [])
  else if negb (EVENT_NAME_REGEX_test eventName) ||
          (MAX_EVENT_NAME_LENGTH <? String.length eventName)%nat
  then ret (this, [])
  else
    ss <- Storage.getSessionId (storage this) (sessionTimeout config) now fresh ;;
    ret (with_storage this ss.2,
         [SendOrQueueEvent (event_url config)
            {| ev_visitorId := Storage.getVisitorId (storage this);
               ev_sessionId := ss.1;
               ev_event := eventName;
               ev_properties := default "{}" properties;
               ev_timestamp := now |}]).

(** What the network answers to [identify]. *)
Inductive identify_response :=
| FetchThrows
| NotOk
| OkJson (visitorId : option string)   (* [result.visitorId], when it is there *)
| OkNotJson.                           (* [response.json()] throws *)

Definition identify_url (config : ResolvedConfig) : string :=
  "/api/track/identify?apiKey=" +:+ apiKey config.

(** The [fetch] that [identify] makes itself, not through the transport:
    it is journalled; what it answers is an input of the caller. *)
Definition post (url body : string) : M unit := fun w =>
  (Ok tt, {| disk := disk w; faults := faults w;
             journal := journal w ++ [IoFetch url body] |}).

(** [identify(data)]; [body] is the JSON of the payload. *)
Definition identify (config : ResolvedConfig) (now : Z) (fresh : string)
    (body : string) (response : identify_response) (this : t) : M t :=
  if destroyed this then ret this
  else if negb (Storage.isReady (storage this)) then ret this
  else
    ss <- Storage.getSessionId (storage this) (sessionTimeout config) now fresh ;;
    let this1 := with_storage this ss.2 in
    post (apiUrl config +:+ identify_url config) body ;;;
    match response with
    | OkJson (Some v) =>
        if negb (bool_decide (v = EmptyString)) &&
           negb (bool_decide (v = Storage.getVisitorId (storage this1)))
        then
          st <- Storage.setVisitorId (storage this1) v ;;
          ret (with_storage this1 st)
        else ret this1
    | _ => ret this1
    end.

(** [captureError(error, context)] of the client. *)
Definition captureError (config : ResolvedConfig) (userAgent : string)
    (now : Z) (fresh : string) (error : ErrorTracker.JsError)
    (context : option string) (errors : ErrorTracker.t) (this : t)
    : M (t * ErrorTracker.t * list delivery) :=
  if destroyed this then ret (this, errors, [])
  else
    r <- ErrorTracker.captureError config userAgent now fresh error context
           "error" SevError errors (storage this) ;;
    ret (with_storage this r.1.2, r.1.1, r.2).

(** [captureMessage(message, severity, context)] of the client; a
    severity left out is "info". *)
Definition captureMessage (config : ResolvedConfig) (userAgent : string)
    (now : Z) (fresh : string) (msg : string) (trace : option string)
    (severity : option Severity) (context : option string)
    (errors : ErrorTracker.t) (this : t)
    : M (t * ErrorTracker.t * list delivery) :=
  if destroyed this then ret (this, errors, [])
  else
    r <- ErrorTracker.captureMessage config userAgent now fresh msg trace
           (default SevInfo severity) context errors (storage this) ;;
    ret (with_storage this r.1.2, r.1.1, r.2).

(** [flush()] of the client. *)
Definition flush (config : ResolvedConfig) (now : Z) (this : t)
    : t * list effect :=
  let '(this1, out) := sendScreenDuration config now this in
  (this1, map SendOrQueue out ++ [TransportFlush]).

(** The fields of the client that the screen tracker does not use. *)
Inductive AppStateStatus :=
| active | background | inactive | unknown | extension.

#[global] Instance AppStateStatus_eq_dec : EqDecision AppStateStatus.
Proof. solve_decision. Defined.

Record client := {
  tracker : t;
  appState : AppStateStatus;
  appStateSubscription : bool      (* whether a subscription is held *)
}.

(** [state.match(/inactive|background/)] *)
Definition in_background (state : AppStateStatus) : bool :=
  match state with
  | inactive | background => true
  | _ => false
  end.

(** [destroy()] *)
Definition destroy (config : ResolvedConfig) (now : Z) (this : client)
    : client * list effect :=
  if destroyed (tracker this) then (this, [])
  else
    let t0 :=
      {| storage := storage (tracker this);
         destroyed := true;
         currentScreenName := currentScreenName (tracker this);
         currentScreenPath := currentScreenPath (tracker this);
         currentScreenViewId := currentScreenViewId (tracker this);
         screenStartTime := screenStartTime (tracker this);
         screenDebounceTimer := screenDebounceTimer (tracker this);
         isFirstScreen := isFirstScreen (tracker this);
         timeouts := timeouts (tracker this);
         next_handle := next_handle (tracker this) |} in
    let '(t1, out) := sendScreenDuration config now t0 in
    let t2 :=
      match screenDebounceTimer t1 with
      | Some h =>
          {| storage := storage t1;
             destroyed := destroyed t1;
             currentScreenName := currentScreenName t1;
             currentScreenPath := currentScreenPath t1;
             currentScreenViewId := currentScreenViewId t1;
             screenStartTime := screenStartTime t1;
             screenDebounceTimer := None;
             isFirstScreen := isFirstScreen t1;
             timeouts := delete h (timeouts t1);     (* clearTimeout *)
             next_handle := next_handle t1 |}
      | None => t1
      end in
    ({| tracker := t2; appState := appState this; appStateSubscription := false |},
     map SendOrQueue out ++
     (if appStateSubscription this then [SubscriptionRemove] else []) ++
     [ErrorTrackerUninstall; TransportStop]).

(** [handleAppStateChange(nextState)] *)
Definition handleAppStateChange (config : ResolvedConfig) (now : Z)
    (fresh : string) (nextState : AppStateStatus) (this : client)
    : M (client * list effect) :=
  let '(t1, out1) :=
    if bool_decide (appState this = active) && in_background nextState then
      let '(t1, out) := sendScreenDuration config now (tracker this) in
      (t1, map SendOrQueue out ++ [TransportPersistQueue])
    else (tracker this, []) in
  r <- (if in_background (appState this) && bool_decide (nextState = active) then
          t2 <- (if Storage.isReady (storage t1) then
                   ss <- Storage.getSessionId (storage t1) (sessionTimeout config)
                           now fresh ;;
                   ret (with_storage t1 ss.2)
                 else ret t1) ;;
          ret (t2, [TransportFlush])
        else ret (t1, [])) ;;
  ret ({| tracker := r.1; appState := nextState;
          appStateSubscription := appStateSubscription this |},
       out1 ++ r.2).

End Client.

(** ** navigation.ts *)

Module Navigation.

(** The state of a navigator: the index of the active route, if it is
    set, and the routes, each with its name and the state of the navigator
    nested in it, if there is one. *)
#[local] Unset Elimination Schemes.
Inductive NavState :=
| MkNavState (index : option nat) (routes : list (string * option NavState)).
#[local] Set Elimination Schemes.

(** [state.routes[state.index]] with an index out of range is [undefined],
    and reading [route.state] then throws. *)
Fixpoint getActiveRouteName (state : NavState) : result (option string) :=
  match state with
  | MkNavState None _ => Ok None
  | MkNavState (Some index) routes =>
      (fix at_index (rs : list (string * option NavState)) (i : nat)
         : result (option string) :=
         match rs, i with
         | [], _ => Rejected
         | (name, None) :: _, O => Ok (Some name)
         | (name, Some nested) :: _, O =>
             match getActiveRouteName nested with
             | Ok None => Ok (Some name)          (* [??] *)
             | r => r
             end
         | _ :: rs', S i' => at_index rs' i'
         end) routes index
  end.

(** The callbacks of [useHimetricaNavigation].  [root] is
    [navigationRef.current?.getRootState()], [ref] is
    [routeNameRef.current]; the names [onStateChange] returns are its
    calls of [client.trackScreen]. *)
Definition onReady (root : option NavState) (ref : option string)
    : result (option string) :=
  match root with
  | None => Ok ref
  | Some state => getActiveRouteName state
  end.

Definition onStateChange (client : bool) (root : option NavState)
    (ref : option string) : result (option string * list string) :=
  if negb client then Ok (ref, [])
  else
    match root with
    | None => Ok (ref, [])
    | Some state =>
        match getActiveRouteName state with
        | Rejected => Rejected
        | Ok None => Ok (ref, [])
        | Ok (Some name) =>
            if negb (bool_decide (name = EmptyString)) &&
               negb (bool_decide (Some name = ref))
            then Ok (Some name, [name])
            else Ok (ref, [])
        end
    end.

End Navigation.

(** * Vocabulary of the statements *)

(** The world after one AsyncStorage call that left the disk as [d]. *)
Definition after_call (ev : io_event) (d : gmap string item) (w : Sys) : Sys :=
  {| disk := d; faults := (next_fault w).2; journal := journal w ++ [ev] |}.

(** A world whose coming AsyncStorage calls all resolve. *)
Definition healthy (w : Sys) : Prop := faults w = [].

(** A world whose next AsyncStorage call rejects. *)
Definition failing (w : Sys) : Prop := (next_fault w).1 = true.


(** What [sendOrQueue] does to the queue when the send fails. *)
Definition enqueue (maxSize : Z) (event : QueuedEvent) : M unit :=
  Storage.enqueueEvent event ;;; Storage.pruneQueue maxSize.

Fixpoint enqueue_all (maxSize : Z) (events : list QueuedEvent) : M unit :=
  match events with
  | [] => ret tt
  | e :: rest => enqueue maxSize e ;;; enqueue_all maxSize rest
  end.

(** The last [n] elements of a list, in their order. *)
Definition newest {A} (n : nat) (l : list A) : list A :=
  drop (length l - n)%nat l.

(** Sample data for the scenarios. *)
Definition sample_event (i : string) (retries : Z) : QueuedEvent :=
  {| id := i; endpoint := "/api/track/event?apiKey=k"; data := "{}";
     timestamp := 0; retryCount := retries |}.

Definition sample_config (maxSize : Z) : ResolvedConfig :=
  {| apiKey := "k"; apiUrl := "https://app.himetrica.com";
     autoTrackScreens := true; autoTrackErrors := true;
     sessionTimeout := 30 * 60 * 1000; enableLogging := false;
     maxQueueSize := maxSize; flushInterval := 30 |}.

Definition fresh_world : Sys := {| disk := ∅; faults := []; journal := [] |}.

Definition world_with_queue (q : list QueuedEvent) (fs : list bool) : Sys :=
  {| disk := <[KEY_OFFLINE_QUEUE := Json q]> ∅; faults := fs; journal := [] |}.

Definition sample_storage (session : string) (stamp : Z) : Storage.t :=
  {| Storage.visitorId := "visitor-1"; Storage.sessionId := session;
     Storage.sessionTimestamp := stamp; Storage.initialized := true |}.

(** Calls of [flush] that are past the guard and have not returned. *)
Definition in_progress (k : Transport.task) : nat :=
  match k with
  | Transport.Returned => 0
  | _ => 1
  end.

Definition running (s : Transport.t) : nat :=
  sum_list_with in_progress (Transport.tasks s).

(** The awaits a callback still has in front of it, at most. *)
Definition todo (h : Transport.handler) : nat :=
  match h with
  | Transport.AwaitSend _ => 3
  | Transport.AwaitRemoveRead _ => 2
  | Transport.AwaitUpdateRead _ => 2
  | Transport.AwaitSave _ => 1
  | Transport.Settled => 0
  end.

(** The awaits the calls in progress still have in front of them, at most:
    a batch has at most 50 callbacks of 3 awaits each. *)
Definition weight (k : Transport.task) : nat :=
  match k with
  | Transport.AwaitQueue => 152
  | Transport.AwaitAllSettled hs => 1 + sum_list_with todo hs
  | Transport.Returned => 0
  end.

Definition potential (s : Transport.t) : nat :=
  sum_list_with weight (Transport.tasks s).

(** The flag says whether a call is in progress. *)
Definition guard_inv (s : Transport.t) : Prop :=
  running s = if Transport.flushing s then 1%nat else 0%nat.

Definition reachable (config : ResolvedConfig) (w : Sys) (s : Transport.t) : Prop :=
  exists sched, Transport.run config sched (Transport.init w) = Some s.

(** The callbacks of a batch run one after the other, each to its end. *)
Fixpoint settle_all (outcome : QueuedEvent -> bool) (batch : list QueuedEvent)
    : M unit :=
  match batch with
  | [] => ret tt
  | e :: rest => Transport.settle e (outcome e) ;;; settle_all outcome rest
  end.

(** The retry rule in the words of the specification: what is left of a
    queued event after one delivery attempt. *)
Definition retried (event : QueuedEvent) : QueuedEvent :=
  {| id := id event; endpoint := endpoint event; data := data event;
     timestamp := timestamp event; retryCount := retryCount event + 1 |}.

Definition retire (event : QueuedEvent) (success : bool) : option QueuedEvent :=
  if success then None
  else if retryCount event <? 3 then Some (retried event)
  else None.

(** Resuming one callback several times in a row. *)
Fixpoint resume_all (rs : list Transport.resumption) (h : Transport.handler)
    (w : Sys) : option (Transport.handler * Sys) :=
  match rs with
  | [] => Some (h, w)
  | r :: rest =>
      match Transport.resume r h w with
      | Some (h', w') => resume_all rest h' w'
      | None => None
      end
  end.

(** The timestamps of the rate window that are less than 60 s old. *)
Definition live (now : Z) (this : ErrorTracker.t) : list Z :=
  filter (fun t => now - t < ErrorTracker.RATE_LIMIT_WINDOW_MS)
    (ErrorTracker.errorTimestamps this).

(** One capture: the error with the clock and the generator at that
    moment. *)
Record capture := {
  c_now : Z;
  c_fresh : string;
  c_error : ErrorTracker.JsError;
  c_context : option string;
  c_type : string;
  c_severity : Severity
}.

(** A capture at its time: the eviction timers that are due have run. *)
Definition capture_at (config : ResolvedConfig) (userAgent : string)
    (c : capture) (this : ErrorTracker.t) (storage : Storage.t)
    : M (ErrorTracker.t * Storage.t * list delivery) :=
  ErrorTracker.captureError config userAgent (c_now c) (c_fresh c) (c_error c)
    (c_context c) (c_type c) (c_severity c)
    (ErrorTracker.run_timers (c_now c) this) storage.

Fixpoint captures (config : ResolvedConfig) (userAgent : string)
    (cs : list capture) (this : ErrorTracker.t) (storage : Storage.t)
    : M (ErrorTracker.t * Storage.t * list delivery) :=
  match cs with
  | [] => ret (this, storage, [])
  | c :: rest =>
      r1 <- capture_at config userAgent c this storage ;;
      r2 <- captures config userAgent rest r1.1.1 r1.1.2 ;;
      ret (r2.1, r1.2 ++ r2.2)
  end.

(** The dedup set is what the pending eviction timers will remove, one
    timer for each hash. *)
Definition timers_match (this : ErrorTracker.t) : Prop :=
  NoDup (snd <$> ErrorTracker.evictions this) /\
  forall k, k ∈ ErrorTracker.sentErrorHashes this <->
            k ∈ snd <$> ErrorTracker.evictions this.

(** A tracker as constructed. *)
Definition new_tracker : ErrorTracker.t :=
  {| ErrorTracker.errorTimestamps := [];
     ErrorTracker.sentErrorHashes := ∅;
     ErrorTracker.evictions := [] |}.

Definition sample_error (msg : string) : ErrorTracker.JsError :=
  {| ErrorTracker.name := "Error"; ErrorTracker.message := msg;
     ErrorTracker.stack :=
       Some ("Error: boom" +:+
             String ErrorTracker.newline "    at f (app.js:1:1)") |}.

Definition sample_capture (now : Z) (msg : string) : capture :=
  {| c_now := now; c_fresh := "s-new"; c_error := sample_error msg;
     c_context := None; c_type := "error"; c_severity := SevError |}.

(** A tracker that took ten captures at the times 0, 1000, ..., 9000. *)
Definition busy_tracker : ErrorTracker.t :=
  {| ErrorTracker.errorTimestamps :=
       [0; 1000; 2000; 3000; 4000; 5000; 6000; 7000; 8000; 9000];
     ErrorTracker.sentErrorHashes := ∅;
     ErrorTracker.evictions := [] |}.

Definition unready_storage : Storage.t :=
  {| Storage.visitorId := EmptyString; Storage.sessionId := EmptyString;
     Storage.sessionTimestamp := 0; Storage.initialized := false |}.

(** The tracker after a capture at its time, on a ready storage. *)
Definition tracker_after (c : capture) (this : ErrorTracker.t) : ErrorTracker.t :=
  let this0 := ErrorTracker.run_timers (c_now c) this in
  if (ErrorTracker.isRateLimited (c_now c) this0).1 then (ErrorTracker.isRateLimited (c_now c) this0).2
  else (ErrorTracker.isDuplicate (c_now c) (ErrorTracker.dedupKey (c_error c))
          (ErrorTracker.isRateLimited (c_now c) this0).2).2.

Definition delivers (c : capture) (this : ErrorTracker.t) : bool :=
  let this0 := ErrorTracker.run_timers (c_now c) this in
  negb (ErrorTracker.isRateLimited (c_now c) this0).1 &&
  negb (ErrorTracker.isDuplicate (c_now c) (ErrorTracker.dedupKey (c_error c))
          (ErrorTracker.isRateLimited (c_now c) this0).2).1.


(** Two errors with the same message and the same truncated stack. *)
Definition same_fingerprint (e1 e2 : ErrorTracker.JsError) : Prop :=
  ErrorTracker.message_of e1 = ErrorTracker.message_of e2 /\
  ErrorTracker.normalizeStack (ErrorTracker.stack e1) =
  ErrorTracker.normalizeStack (ErrorTracker.stack e2).

(** A tracker that has delivered [sample_error "boom"] at time 0. *)
Definition boom_sent : ErrorTracker.t :=
  {| ErrorTracker.errorTimestamps := [0];
     ErrorTracker.sentErrorHashes :=
       {[ ErrorTracker.dedupKey (sample_error "boom") ]};
     ErrorTracker.evictions :=
       [(ErrorTracker.DEDUP_EXPIRY_MS,
         ErrorTracker.dedupKey (sample_error "boom"))] |}.

(** Two callbacks of one batch whose storage rewrites overlap: both read
    the queue before either writes it back. *)
Definition overlapped (okA okB : bool) : list Transport.action :=
  [Transport.CallFlush; Transport.QueueRead 0;
   Transport.Resume 0 0 (Transport.SendSettled okA);
   Transport.Resume 0 1 (Transport.SendSettled okB);
   Transport.Resume 0 0 Transport.ReadSettled;
   Transport.Resume 0 1 Transport.ReadSettled;
   Transport.Resume 0 0 Transport.SaveSettled;
   Transport.Resume 0 1 Transport.SaveSettled;
   Transport.AllSettled 0]%nat.

(** The same two callbacks, the first done before the second goes on. *)
Definition one_by_one (okA okB : bool) : list Transport.action :=
  [Transport.CallFlush; Transport.QueueRead 0;
   Transport.Resume 0 0 (Transport.SendSettled okA);
   Transport.Resume 0 0 Transport.ReadSettled;
   Transport.Resume 0 0 Transport.SaveSettled;
   Transport.Resume 0 1 (Transport.SendSettled okB);
   Transport.Resume 0 1 Transport.ReadSettled;
   Transport.Resume 0 1 Transport.SaveSettled;
   Transport.AllSettled 0]%nat.

(** The queue file after a schedule, starting with [q] on a store that
    answers. *)
Definition queue_after (sched : list Transport.action) (q : list QueuedEvent)
    : option (list QueuedEvent) :=
  (fun s => queue_of (Transport.world s)) <$>
  Transport.run (sample_config 1000) sched
    (Transport.init (world_with_queue q [])).

(** A flush that has read a queue of two events and awaits their sends. *)
Definition mid_flush : Transport.t :=
  default (Transport.init fresh_world)
    (Transport.run (sample_config 1000)
       [Transport.CallFlush; Transport.QueueRead 0]
       (Transport.init
          (world_with_queue [sample_event "A" 0; sample_event "B" 0] []))).

(** Counting what a history of the screen tracker shows. *)
Definition is_activation (o : Client.observation) : bool :=
  match o with
  | Client.Activated _ => true
  | _ => false
  end.

Definition is_duration (o : Client.observation) : bool :=
  match o with
  | Client.Sent (_, PDuration _ _) => true
  | _ => false
  end.

Definition activations (obs : list Client.observation) : nat :=
  length (List.filter is_activation obs).

Definition durations (obs : list Client.observation) : nat :=
  length (List.filter is_duration obs).

(** The only timer that can be pending is the one the tracker holds. *)
Definition timers_tracked (this : Client.t) : Prop :=
  forall h, is_Some (Client.timeouts this !! h) ->
            Client.screenDebounceTimer this = Some h.

(** The pair is the screen the tracker shows now. *)
Definition is_current (name : string) (path : option string) (this : Client.t)
    : Prop :=
  Client.currentScreenName this = Some name /\
  Client.currentScreenPath this = Some (Client.effective_path name path).

(** A client as constructed, after [init]. *)
Definition new_client : Client.t :=
  {| Client.storage := sample_storage "s-old" 0;
     Client.destroyed := false;
     Client.currentScreenName := None;
     Client.currentScreenPath := None;
     Client.currentScreenViewId := None;
     Client.screenStartTime := 0;
     Client.screenDebounceTimer := None;
     Client.isFirstScreen := true;
     Client.timeouts := ∅;
     Client.next_handle := 1 |}.

(** A client that has shown the screen "Home" since time 1000. *)
Definition client_on_home : Client.t :=
  {| Client.storage := sample_storage "s-old" 0;
     Client.destroyed := false;
     Client.currentScreenName := Some "Home";
     Client.currentScreenPath := Some "/Home";
     Client.currentScreenViewId := Some "view-1";
     Client.screenStartTime := 1000;
     Client.screenDebounceTimer := Some 1%nat;
     Client.isFirstScreen := false;
     Client.timeouts := ∅;
     Client.next_handle := 2 |}.

(** A client after [destroy]. *)
Definition destroyed_client : Client.t :=
  {| Client.storage := sample_storage "s-old" 0;
     Client.destroyed := true;
     Client.currentScreenName := None;
     Client.currentScreenPath := None;
     Client.currentScreenViewId := None;
     Client.screenStartTime := 0;
     Client.screenDebounceTimer := None;
     Client.isFirstScreen := true;
     Client.timeouts := ∅;
     Client.next_handle := 1 |}.

(** What a history shows, on a store that answers. *)
Definition observed (history : list (Z * string * Client.event))
    (this : Client.t) : list Client.observation :=
  match Client.run (sample_config 1000) history this fresh_world with
  | (Ok r, _) => r.2
  | (Rejected, _) => []
  end.

(** * Vocabulary of the further properties *)

(** The djb2 hash without the 32-bit wrap. *)
Fixpoint djb2 (hash : Z) (str : string) : Z :=
  match str with
  | EmptyString => hash
  | String c rest => djb2 (hash * 33 + ErrorTracker.charCode c) rest
  end.

(** A string without a line break. *)
Fixpoint one_line (str : string) : Prop :=
  match str with
  | EmptyString => True
  | String c rest => c <> ErrorTracker.newline /\ one_line rest
  end.

(** A world whose next read rejects while the write after it resolves. *)
Definition read_fails_write_works (w : Sys) : Prop :=
  exists fs, faults w = true :: false :: fs.

(** The writes among the calls journalled. *)
Definition is_write (ev : io_event) : bool :=
  match ev with
  | IoSetItem _ _ | IoMultiSet _ => true
  | _ => false
  end.

Definition writes (w : Sys) : nat := length (List.filter is_write (journal w)).

(** An event that was queued when the flushes began, with no more than
    three retries. *)
Definition known (ids : list string) (e : QueuedEvent) : Prop :=
  id e ∈ ids /\ retryCount e <= 3.

(** A queue of such events, no longer than [n]. *)
Definition bounded_by (ids : list string) (n : nat) (q : list QueuedEvent) : Prop :=
  Forall (known ids) q /\ (length q <= n)%nat.

(** What the callbacks and the calls of [flush] hold in their variables. *)
Definition handler_known (ids : list string) (n : nat) (h : Transport.handler)
    : Prop :=
  match h with
  | Transport.AwaitSend e => known ids e
  | Transport.AwaitUpdateRead e => known ids e
  | Transport.AwaitSave q => bounded_by ids n q
  | _ => True
  end.

Definition task_known (ids : list string) (n : nat) (k : Transport.task) : Prop :=
  match k with
  | Transport.AwaitAllSettled hs => Forall (handler_known ids n) hs
  | _ => True
  end.

Definition flush_inv (ids : list string) (n : nat) (s : Transport.t) : Prop :=
  bounded_by ids n (queue_of (Transport.world s)) /\
  Forall (task_known ids n) (Transport.tasks s).

(** One callback of the batch taken from its send to its end before any
    other goes on: its three awaits settle in a row. *)
Definition callback_turn (i j : nat) (ok : bool) : list Transport.action :=
  map (Transport.Resume i j)
    [Transport.SendSettled ok; Transport.ReadSettled; Transport.SaveSettled].

Fixpoint callbacks_in_turn (outcome : QueuedEvent -> bool) (i j : nat)
    (batch : list QueuedEvent) : list Transport.action :=
  match batch with
  | [] => []
  | e :: rest =>
      callback_turn i j (outcome e) ++ callbacks_in_turn outcome i (S j) rest
  end.

(** A whole call of [flush], the [i]-th, on the queue [queue], whose
    callbacks take their turns in the order of the batch. *)
Definition serial_flush (outcome : QueuedEvent -> bool) (i : nat)
    (queue : list QueuedEvent) : list Transport.action :=
  match queue with
  | [] => [Transport.CallFlush; Transport.QueueRead i]
  | _ => Transport.CallFlush :: Transport.QueueRead i ::
         callbacks_in_turn outcome i 0 (take 50 queue) ++ [Transport.AllSettled i]
  end.

(** The POSTs among the calls journalled. *)
Definition is_fetch (ev : io_event) : bool :=
  match ev with
  | IoFetch _ _ => true
  | _ => false
  end.

Definition fetches (w : Sys) : nat := length (List.filter is_fetch (journal w)).

(** Calls of [flush] one after the other while the network is down, the
    callbacks of each taking their turns. *)
Fixpoint failed_flushes (config : ResolvedConfig) (n : nat) (s : Transport.t)
    : option Transport.t :=
  match n with
  | O => Some s
  | S n' =>
      s' ← Transport.run config
             (serial_flush (fun _ => false) (length (Transport.tasks s))
                (queue_of (Transport.world s))) s;
      failed_flushes config n' s'
  end.

(** What is left of a queued event after [n] failed deliveries. *)
Definition after_failures (n : nat) (e : QueuedEvent) : option QueuedEvent :=
  if retryCount e + Z.of_nat n <=? 3 then
    Some {| id := id e; endpoint := endpoint e; data := data e;
            timestamp := timestamp e; retryCount := retryCount e + Z.of_nat n |}
  else None.

(** Whether the tracker holds a screen view whose duration is still to be
    reported. *)
Definition viewing (this : Client.t) : nat :=
  match Client.currentScreenViewId this with
  | Some _ => 1
  | None => 0
  end.

(** The timestamp of an error report. *)
Definition error_time (d : delivery) : option Z :=
  match d.2 with
  | PError p => Some (ep_timestamp p)
  | _ => None
  end.

(** The instant [t] lies in the 60 s that end at [T]. *)
Definition within (T t : Z) : Prop :=
  t <= T /\ T - t < ErrorTracker.RATE_LIMIT_WINDOW_MS.

#[global] Instance within_dec T t : Decision (within T t).
Proof. unfold within. apply _. Defined.

(** Captures in the order of their times: the clock does not go back. *)
Fixpoint in_order (last : Z) (cs : list capture) : Prop :=
  match cs with
  | [] => True
  | c :: rest => last <= c_now c /\ in_order (c_now c) rest
  end.

(** What the rate window has recorded, at a time [last]: the timestamps
    that passed the limiter, of which the window keeps those less than
    60 s old, and of which no 60 s hold more than ten. *)
Definition window_inv (last : Z) (recorded : list Z) (this : ErrorTracker.t)
    : Prop :=
  ErrorTracker.errorTimestamps this =
    filter (fun t => last - t < ErrorTracker.RATE_LIMIT_WINDOW_MS) recorded /\
  Forall (fun t => t <= last) recorded /\
  forall T, (length (filter (within T) recorded) <= 10)%nat.

(** The parts of a navigation state. *)
Definition index_of (state : Navigation.NavState) : option nat :=
  match state with
  | Navigation.MkNavState index _ => index
  end.

Definition routes_of (state : Navigation.NavState)
    : list (string * option Navigation.NavState) :=
  match state with
  | Navigation.MkNavState _ routes => routes
  end.

(** The route that has the focus: the active route of the innermost
    navigator, on the path of active routes, whose index is set. *)
Inductive focused : Navigation.NavState -> string -> Prop :=
| focused_leaf index routes name :
    routes !! index = Some (name, None) ->
    focused (Navigation.MkNavState (Some index) routes) name
| focused_unset index routes name nested :
    routes !! index = Some (name, Some nested) ->
    index_of nested = None ->
    focused (Navigation.MkNavState (Some index) routes) name
| focused_nested index routes name nested inner :
    routes !! index = Some (name, Some nested) ->
    focused nested inner ->
    focused (Navigation.MkNavState (Some index) routes) inner.

(** A navigator on the path of active routes whose index points at no
    route. *)
Inductive broken : Navigation.NavState -> Prop :=
| broken_here index routes :
    routes !! index = None ->
    broken (Navigation.MkNavState (Some index) routes)
| broken_nested index routes name nested :
    routes !! index = Some (name, Some nested) ->
    broken nested ->
    broken (Navigation.MkNavState (Some index) routes).

(** A run of state changes seen by [onStateChange], with a client. *)
Fixpoint state_changes (roots : list (option Navigation.NavState))
    (ref : option string) : result (option string * list string) :=
  match roots with
  | [] => Ok (ref, [])
  | root :: rest =>
      match Navigation.onStateChange true root ref with
      | Rejected => Rejected
      | Ok (ref1, out1) =>
          match state_changes rest ref1 with
          | Rejected => Rejected
          | Ok (ref2, out2) => Ok (ref2, out1 ++ out2)
          end
      end
  end.

(** Names none of which is empty or the same as the one before it, [prev]
    being the one before the first. *)
Fixpoint no_repeat (prev : option string) (names : list string) : Prop :=
  match names with
  | [] => True
  | name :: rest =>
      name <> EmptyString /\ Some name <> prev /\ no_repeat (Some name) rest
  end.

(** Sample data for the scenarios of the further properties. *)
Definition two_events : list QueuedEvent := [sample_event "A" 0; sample_event "B" 0].

(** The state the overlapped schedule ends in, both sends failing. *)
Definition after_overlap : Transport.t :=
  default (Transport.init fresh_world)
    (Transport.run (sample_config 1000) (overlapped false false)
       (Transport.init (world_with_queue two_events []))).

Definition two_screens (focus : nat) : Navigation.NavState :=
  Navigation.MkNavState (Some focus) [("Home", None); ("Profile", None)].

Definition app_on_home : Client.client :=
  {| Client.tracker := client_on_home;
     Client.appState := Client.active;
     Client.appStateSubscription := true |}.

Definition hooks_as_constructed : ErrorTracker.hooks :=
  {| ErrorTracker.installed := false; ErrorTracker.originalHandler := None |}.

Definition sample_runtime : ErrorTracker.runtime :=
  {| ErrorTracker.ErrorUtils := Some (ErrorTracker.Foreign 0);
     ErrorTracker.tracking_module := true;
     ErrorTracker.tracking := ErrorTracker.TrackingForeign |}.

Definition no_queue_config : HimetricaConfig.t :=
  {| HimetricaConfig.apiKey := "k";
     HimetricaConfig.apiUrl := None;
     HimetricaConfig.autoTrackScreens := None;
     HimetricaConfig.autoTrackErrors := None;
     HimetricaConfig.sessionTimeout := None;
     HimetricaConfig.enableLogging := None;
     HimetricaConfig.maxQueueSize := Some 0;
     HimetricaConfig.flushInterval := None |}.

(** A stack of twenty frames. *)
Definition long_stack : string :=
  ErrorTracker.join_lines (replicate 20 "    at f (app.js:1:1)").

Definition error_with_stack (trace : string) : ErrorTracker.JsError :=
  {| ErrorTracker.name := "Error"; ErrorTracker.message := "boom";
     ErrorTracker.stack := Some trace |}.

(** * Properties *)

(** ** The queue file: what a read returns and what a write leaves *)

Lemma getQueue_eq (w : Sys) :
  Storage.getQueue w =
  (Ok (if (next_fault w).1 then [] else queue_of w),
   after_call (IoGetItem KEY_OFFLINE_QUEUE) (disk w) w).
Proof.
  unfold Storage.getQueue, try_catch, bind, AsyncStorage.getItem, async_call,
    after_call, queue_of.
  destruct (next_fault w) as [[] fs]; simpl; [reflexivity|].
  destruct (disk w !! KEY_OFFLINE_QUEUE) as [[s|z|q]|]; simpl; try reflexivity.
  case_bool_decide; reflexivity.
Qed.

Lemma saveQueue_eq (queue : list QueuedEvent) (w : Sys) :
  Storage.saveQueue queue w =
  (Ok tt,
   after_call (IoSetItem KEY_OFFLINE_QUEUE (Json queue))
     (if (next_fault w).1 then disk w
      else <[KEY_OFFLINE_QUEUE := Json queue]> (disk w)) w).
Proof.
  unfold Storage.saveQueue, try_catch, AsyncStorage.setItem, async_call, after_call.
  destruct (next_fault w) as [[] fs]; reflexivity.
Qed.

Lemma healthy_next_fault w : healthy w -> next_fault w = (false, []).
Proof. unfold healthy, next_fault. intros ->. reflexivity. Qed.

Lemma healthy_after_call ev d w : healthy w -> healthy (after_call ev d w).
Proof.
  intros H. unfold healthy, after_call; simpl.
  rewrite (healthy_next_fault _ H). reflexivity.
Qed.

Lemma getQueue_healthy w :
  healthy w ->
  exists w', Storage.getQueue w = (Ok (queue_of w), w') /\
             healthy w' /\ queue_of w' = queue_of w.
Proof.
  intros H. rewrite getQueue_eq. rewrite (healthy_next_fault _ H).
  eexists; split; [reflexivity|]. split; [|reflexivity].
  apply healthy_after_call, H.
Qed.

Lemma saveQueue_healthy queue w :
  healthy w ->
  exists w', Storage.saveQueue queue w = (Ok tt, w') /\
             healthy w' /\ queue_of w' = queue.
Proof.
  intros H. rewrite saveQueue_eq. rewrite (healthy_next_fault _ H).
  eexists; split; [reflexivity|]. split.
  - apply healthy_after_call, H.
  - unfold queue_of, after_call; simpl. rewrite lookup_insert_eq. reflexivity.
Qed.

Lemma enqueueEvent_healthy event w :
  healthy w ->
  exists w', Storage.enqueueEvent event w = (Ok tt, w') /\
             healthy w' /\ queue_of w' = queue_of w ++ [event].
Proof.
  intros H. unfold Storage.enqueueEvent, bind.
  destruct (getQueue_healthy w H) as (w1 & E1 & H1 & Q1). rewrite E1.
  destruct (saveQueue_healthy (queue_of w ++ [event]) w1 H1) as (w2 & E2 & H2 & Q2).
  rewrite E2. eauto.
Qed.

Lemma pruneQueue_healthy maxSize w :
  healthy w -> 0 <= maxSize ->
  exists w', Storage.pruneQueue maxSize w = (Ok tt, w') /\
             healthy w' /\ queue_of w' = newest (Z.to_nat maxSize) (queue_of w).
Proof.
  intros H Hm. unfold Storage.pruneQueue, bind, newest.
  destruct (getQueue_healthy w H) as (w1 & E1 & H1 & Q1). rewrite E1.
  destruct (Z.gtb_spec (Z.of_nat (length (queue_of w))) maxSize) as [Hgt|Hle].
  - destruct (saveQueue_healthy
      (drop (Z.to_nat (Z.of_nat (length (queue_of w)) - maxSize)) (queue_of w))
      w1 H1) as (w2 & E2 & H2 & Q2).
    rewrite E2. eexists; split; [reflexivity|]. split; [assumption|].
    rewrite Q2. f_equal. lia.
  - eexists; split; [reflexivity|]. split; [assumption|].
    rewrite Q1. replace (length (queue_of w) - Z.to_nat maxSize)%nat with 0%nat by lia.
    reflexivity.
Qed.

Lemma newest_length {A} n (l : list A) : (length (newest n l) <= n)%nat.
Proof. unfold newest. rewrite length_drop. lia. Qed.

Lemma newest_snoc {A} n (l : list A) x :
  newest n (newest n l ++ [x]) = newest n (l ++ [x]).
Proof.
  unfold newest. rewrite !length_app, length_drop. simpl.
  destruct (decide (length l <= n)%nat) as [Hle|Hgt].
  - replace (length l - n)%nat with 0%nat by lia. simpl.
    f_equal. lia.
  - replace (length l - (length l - n) + 1 - n)%nat with 1%nat by lia.
    replace (length l + 1 - n)%nat with (S (length l - n)) by lia.
    destruct n as [|n].
    + rewrite Nat.sub_0_r, drop_all. simpl.
      rewrite drop_ge; [reflexivity|]. rewrite length_app. simpl. lia.
    + rewrite drop_app_le by (rewrite length_drop; lia).
      rewrite (drop_app_le l) by lia.
      f_equal. rewrite drop_drop. f_equal. lia.
Qed.

Lemma newest_app {A} n (l k : list A) :
  newest n (newest n l ++ k) = newest n (l ++ k).
Proof.
  induction k as [|x k IH] using rev_ind.
  - rewrite !app_nil_r. unfold newest at 1.
    pose proof (newest_length n l).
    replace (length (newest n l) - n)%nat with 0%nat by lia. reflexivity.
  - rewrite !app_assoc, <- newest_snoc, IH, newest_snoc. reflexivity.
Qed.

Lemma newest_all {A} n (l : list A) : (length l <= n)%nat -> newest n l = l.
Proof. intros H. unfold newest. replace (length l - n)%nat with 0%nat by lia. reflexivity. Qed.

Lemma enqueue_healthy maxSize event w :
  healthy w -> 0 <= maxSize ->
  exists w', enqueue maxSize event w = (Ok tt, w') /\
             healthy w' /\
             queue_of w' = newest (Z.to_nat maxSize) (queue_of w ++ [event]).
Proof.
  intros H Hm. unfold enqueue, bind.
  destruct (enqueueEvent_healthy event w H) as (w1 & E1 & H1 & Q1). rewrite E1.
  destruct (pruneQueue_healthy maxSize w1 H1 Hm) as (w2 & E2 & H2 & Q2). rewrite E2.
  eexists; split; [reflexivity|]. split; [assumption|]. rewrite Q2, Q1. reflexivity.
Qed.

Lemma enqueue_all_healthy maxSize events : forall w,
  healthy w -> 0 <= maxSize ->
  (length (queue_of w) <= Z.to_nat maxSize)%nat \/ events <> [] ->
  exists w', enqueue_all maxSize events w = (Ok tt, w') /\
             healthy w' /\
             queue_of w' = newest (Z.to_nat maxSize) (queue_of w ++ events).
Proof.
  induction events as [|e rest IH]; intros w H Hm Hstart.
  - destruct Hstart as [Hlen|Hne]; [|congruence].
    exists w. split; [reflexivity|]. split; [assumption|].
    rewrite app_nil_r, newest_all by assumption. reflexivity.
  - simpl. unfold bind.
    destruct (enqueue_healthy maxSize e w H Hm) as (w1 & E1 & H1 & Q1). rewrite E1.
    destruct (IH w1 H1 Hm) as (w2 & E2 & H2 & Q2).
    { left. rewrite Q1. apply newest_length. }
    rewrite E2. eexists; split; [reflexivity|]. split; [assumption|].
    rewrite Q2, Q1, newest_app, <- app_assoc. reflexivity.
Qed.

(** [sendOrQueue] with a failed send is one [enqueue] of a new event with
    no retries counted. *)
Lemma sendOrQueue_failed config endpoint0 data0 fresh now w :
  Transport.sendOrQueue config endpoint0 data0 false fresh now w =
  enqueue (maxQueueSize config)
    {| id := fresh; endpoint := endpoint0; data := data0;
       timestamp := now; retryCount := 0 |}
    (Transport.send config endpoint0 data0 false w).2.
Proof. reflexivity. Qed.

Lemma sendOrQueue_delivered config endpoint0 data0 fresh now w :
  Transport.sendOrQueue config endpoint0 data0 true fresh now w =
  (Ok tt, (Transport.send config endpoint0 data0 true w).2).
Proof. reflexivity. Qed.

(** C2. Bounded queue.  On a store that answers, after any sequence of
    enqueue operations (append, then prune to [maxQueueSize]) the queue
    is the newest [maxQueueSize] items of everything that was in it or was
    enqueued, in enqueue order; so its length is at most [maxQueueSize]. *)
Theorem bounded_queue (maxSize : Z) (events : list QueuedEvent) (w : Sys) :
  0 <= maxSize ->
  healthy w ->
  (length (queue_of w) <= Z.to_nat maxSize)%nat \/ events <> [] ->
  exists w',
    enqueue_all maxSize events w = (Ok tt, w') /\
    queue_of w' = newest (Z.to_nat maxSize) (queue_of w ++ events) /\
    Z.of_nat (length (queue_of w')) <= maxSize.
Proof.
  intros Hm H Hstart.
  destruct (enqueue_all_healthy maxSize events w H Hm Hstart) as (w' & E & _ & Q).
  exists w'. split; [exact E|]. split; [exact Q|].
  rewrite Q. pose proof (newest_length (Z.to_nat maxSize) (queue_of w ++ events)). lia.
Qed.

(** With [maxQueueSize = 2], enqueuing A, B, C leaves [B; C]. *)
Lemma bounded_queue_witness :
  exists w',
    enqueue_all 2 [sample_event "A" 0; sample_event "B" 0; sample_event "C" 0]
      fresh_world = (Ok tt, w') /\
    queue_of w' = [sample_event "B" 0; sample_event "C" 0].
Proof.
  destruct (bounded_queue 2
              [sample_event "A" 0; sample_event "B" 0; sample_event "C" 0]
              fresh_world) as (w' & E & Q & _).
  - lia.
  - reflexivity.
  - right. discriminate.
  - exists w'. split; [exact E|]. rewrite Q. reflexivity.
Defined.

(** ** Sessions *)

(** A touch always returns: the id it gives is the one the storage object
    holds afterwards, and nothing but the session fields changes. *)
Lemma getSessionId_total (this : Storage.t) (T now : Z) (fresh : string) (w : Sys) :
  exists sid this' w',
    Storage.getSessionId this T now fresh w = (Ok (sid, this'), w') /\
    sid = Storage.sessionId this' /\
    Storage.sessionTimestamp this' = now /\
    Storage.sessionId this' =
      (if now - Storage.sessionTimestamp this >? T then fresh
       else Storage.sessionId this) /\
    Storage.initialized this' = Storage.initialized this /\
    Storage.visitorId this' = Storage.visitorId this.
Proof.
  unfold Storage.getSessionId.
  destruct (now - Storage.sessionTimestamp this >? T);
    unfold bind, try_catch, AsyncStorage.multiSet, AsyncStorage.setItem, async_call;
    destruct (next_fault w) as [[] fs]; simpl;
    (do 3 eexists; split; [reflexivity|]; simpl; repeat split; reflexivity).
Qed.

(** C6. Session rotation.  A touch never fails; it sets the last-activity
    time to now; it returns the id the storage object then holds, which is
    a newly generated one when more than [sessionTimeout] ms passed since
    the last activity, and the id it had otherwise. *)
Theorem session_rotation (this : Storage.t) (T now : Z) (fresh : string) (w : Sys) :
  exists sid this' w',
    Storage.getSessionId this T now fresh w = (Ok (sid, this'), w') /\
    sid = Storage.sessionId this' /\
    Storage.sessionTimestamp this' = now /\
    (T < now - Storage.sessionTimestamp this -> sid = fresh) /\
    (now - Storage.sessionTimestamp this <= T -> sid = Storage.sessionId this).
Proof.
  destruct (getSessionId_total this T now fresh w)
    as (sid & this' & w' & E & Hsid & Hts & Hid & _).
  exists sid, this', w'. split; [exact E|]. split; [exact Hsid|]. split; [exact Hts|].
  rewrite Hsid, Hid.
  destruct (Z.gtb_spec (now - Storage.sessionTimestamp this) T); split; intros;
    first [reflexivity|lia].
Qed.

(** A touch at [T + 1] ms rotates, a touch at [T - 1] ms does not. *)
Lemma session_rotation_witness :
  (exists this' w',
     Storage.getSessionId (sample_storage "s-old" 1000) 1800000 (1000 + 1800001)
       "s-new" fresh_world = (Ok ("s-new", this'), w')) /\
  (exists this' w',
     Storage.getSessionId (sample_storage "s-old" 1000) 1800000 (1000 + 1799999)
       "s-new" fresh_world = (Ok ("s-old", this'), w') /\
     Storage.sessionTimestamp this' = 1000 + 1799999).
Proof.
  split.
  - destruct (session_rotation (sample_storage "s-old" 1000) 1800000
                (1000 + 1800001) "s-new" fresh_world)
      as (sid & this' & w' & E & _ & _ & Hrot & _).
    exists this', w'. rewrite E, Hrot; [reflexivity|]. simpl. lia.
  - destruct (session_rotation (sample_storage "s-old" 1000) 1800000
                (1000 + 1799999) "s-new" fresh_world)
      as (sid & this' & w' & E & _ & Hts & _ & Hkeep).
    exists this', w'. split; [|exact Hts].
    rewrite E, Hkeep; [reflexivity|]. simpl. lia.
Defined.

(** ** Persistence failures *)

(** The store itself does reject: this is what the methods have to catch. *)
Lemma AsyncStorage_rejects (k : string) (v : item) (w : Sys) :
  failing w ->
  (AsyncStorage.getItem k w).1 = Rejected /\
  (AsyncStorage.setItem k v w).1 = Rejected.
Proof.
  unfold failing, AsyncStorage.getItem, AsyncStorage.setItem, async_call.
  destruct (next_fault w) as [b fs]; simpl. intros ->. split; reflexivity.
Qed.




(** ** The flush guard *)

Section Guard.

Import Transport.

Variable config : ResolvedConfig.

Lemma sum_list_insert {A} (f : A -> nat) (l : list A) (i : nat) (x y : A) :
  l !! i = Some x ->
  (sum_list_with f (<[i := y]> l) + f x = sum_list_with f l + f y)%nat.
Proof.
  revert i. induction l as [|a l IH]; intros [|i] H; simpl in *; try discriminate.
  - injection H as ->. lia.
  - specialize (IH i H). lia.
Qed.

Lemma sum_list_snoc {A} (f : A -> nat) (l : list A) (x : A) :
  sum_list_with f (l ++ [x]) = (sum_list_with f l + f x)%nat.
Proof. rewrite sum_list_with_app. simpl. lia. Qed.

Lemma sum_list_positive {A} (f : A -> nat) (l : list A) :
  (0 < sum_list_with f l)%nat -> exists i x, l !! i = Some x /\ (0 < f x)%nat.
Proof.
  induction l as [|a l IH]; simpl; [lia|]. intros H.
  destruct (decide (0 < f a)%nat) as [Ha|Ha].
  - exists 0%nat, a. split; [reflexivity|assumption].
  - destruct IH as (i & x & Hi & Hx); [lia|]. exists (S i), x. split; assumption.
Qed.

Lemma guard_inv_init w : guard_inv (init w).
Proof. reflexivity. Qed.

Lemma guard_inv_step a s s' :
  guard_inv s -> step config a s = Some s' -> guard_inv s'.
Proof.
  unfold guard_inv, running. intros I H. destruct a as [|i|i j r|i]; simpl in H.
  - destruct (flushing s) eqn:F.
    + injection H as <-. rewrite F. exact I.
    + injection H as <-. simpl. rewrite sum_list_snoc, I. reflexivity.
  - destruct (tasks s !! i) as [[| |]|] eqn:L; try discriminate.
    pose proof (sum_list_insert in_progress (tasks s) i AwaitQueue) as S.
    destruct (Storage.getQueue (world s)) as [[[|e q]|] w'];
      injection H as <-; simpl.
    + specialize (S Returned L). simpl in S. destruct (flushing s); lia.
    + specialize (S (AwaitAllSettled (map AwaitSend (take 50 (e :: q)))) L).
      simpl in S. rewrite <- I. lia.
    + specialize (S Returned L). simpl in S. destruct (flushing s); lia.
  - destruct (tasks s !! i) as [[|hs|]|] eqn:L; try discriminate.
    destruct (hs !! j) as [h|]; simpl in H; [|discriminate].
    destruct (resume r h (world s)) as [[h' w']|]; simpl in H; [|discriminate].
    injection H as <-. simpl.
    pose proof (sum_list_insert in_progress (tasks s) i (AwaitAllSettled hs)
                  (AwaitAllSettled (<[j := h']> hs)) L) as S.
    simpl in S. rewrite <- I. lia.
  - destruct (tasks s !! i) as [[|hs|]|] eqn:L; try discriminate.
    destruct (all_settled hs); [|discriminate].
    injection H as <-. simpl.
    pose proof (sum_list_insert in_progress (tasks s) i (AwaitAllSettled hs)
                  Returned L) as S.
    simpl in S. destruct (flushing s); lia.
Qed.

Lemma guard_inv_run sched : forall s s',
  guard_inv s -> run config sched s = Some s' -> guard_inv s'.
Proof.
  induction sched as [|a sched IH]; intros s s' I H; simpl in H.
  - injection H as <-. exact I.
  - destruct (step config a s) as [s1|] eqn:E; simpl in H; [|discriminate].
    eapply IH; [|exact H]. eapply guard_inv_step; eassumption.
Qed.

Lemma run_cons a sched s s1 :
  step config a s = Some s1 -> run config (a :: sched) s = run config sched s1.
Proof. intros E. simpl. rewrite E. reflexivity. Qed.

Lemma run_app sched1 : forall sched2 s s1 s2,
  run config sched1 s = Some s1 -> run config sched2 s1 = Some s2 ->
  run config (sched1 ++ sched2) s = Some s2.
Proof.
  induction sched1 as [|a sched1 IH]; intros sched2 s s1 s2 H1 H2; simpl in *.
  - injection H1 as <-. exact H2.
  - destruct (step config a s) as [s'|]; simpl in *; [|discriminate].
    eapply IH; eassumption.
Qed.

(** Every callback that has not settled can take a step, and gets closer
    to settling. *)
Lemma handler_progress h :
  h <> Settled ->
  exists r, forall w, exists h' w',
    resume r h w = Some (h', w') /\ (todo h' < todo h)%nat.
Proof.
  destruct h as [e|i|e|q|]; intros Hh; [| | | |congruence].
  - exists (SendSettled true). intros w. do 2 eexists. split; [reflexivity|].
    simpl. lia.
  - exists ReadSettled. intros w. simpl. rewrite getQueue_eq.
    do 2 eexists. split; [reflexivity|]. simpl. lia.
  - exists ReadSettled. intros w. simpl. rewrite getQueue_eq.
    destruct (Storage.findIndex _ _); do 2 eexists; (split; [reflexivity|]);
      simpl; lia.
  - exists SaveSettled. intros w. do 2 eexists. split; [reflexivity|]. simpl. lia.
Qed.

Lemma not_all_settled hs :
  all_settled hs = false -> exists j h, hs !! j = Some h /\ h <> Settled.
Proof.
  induction hs as [|h hs IH]; simpl; [discriminate|].
  case_bool_decide as Hh; simpl.
  - intros H. destruct (IH H) as (j & h' & Hj & Hn). exists (S j), h'. auto.
  - intros _. exists 0%nat, h. auto.
Qed.

(** A call that awaits its callbacks returns once they are resumed often
    enough, and clears the flag. *)
Lemma drain n : forall s i hs,
  tasks s !! i = Some (AwaitAllSettled hs) ->
  (sum_list_with todo hs <= n)%nat ->
  exists sched s',
    run config sched s = Some s' /\
    tasks s' = <[i := Returned]> (tasks s) /\ flushing s' = false.
Proof.
  induction n as [|n IH]; intros s i hs L Hn.
  - exists [AllSettled i]. simpl. rewrite L.
    assert (all_settled hs = true) as ->.
    { destruct (all_settled hs) eqn:E; [reflexivity|].
      destruct (not_all_settled _ E) as (j & h & Hj & Hh).
      pose proof (sum_list_insert todo hs j h h Hj).
      assert (0 < todo h)%nat by (destruct h; simpl; try lia; congruence).
      assert (sum_list_with todo hs >= todo h)%nat.
      { clear -Hj. revert j Hj. induction hs as [|a hs IHh]; intros [|j] Hj;
          simpl in *; try discriminate.
        - injection Hj as ->. lia.
        - specialize (IHh j Hj). lia. }
      lia. }
    eexists. split; [reflexivity|]. split; reflexivity.
  - destruct (all_settled hs) eqn:E.
    + exists [AllSettled i]. simpl. rewrite L, E.
      eexists. split; [reflexivity|]. split; reflexivity.
    + destruct (not_all_settled _ E) as (j & h & Hj & Hh).
      destruct (handler_progress h Hh) as (r & Hr).
      destruct (Hr (world s)) as (h' & w' & Er & Hlt).
      set (s1 := {| world := w'; flushing := flushing s;
                    tasks := <[i := AwaitAllSettled (<[j := h']> hs)]> (tasks s) |}).
      assert (step config (Resume i j r) s = Some s1) as E1.
      { simpl. rewrite L. simpl. rewrite Hj. simpl. rewrite Er. reflexivity. }
      destruct (IH s1 i (<[j := h']> hs)) as (sched & s' & R & T & F).
      { simpl. apply list_lookup_insert_eq. eapply lookup_lt_Some, L. }
      { pose proof (sum_list_insert todo hs j h h' Hj). lia. }
      exists (Resume i j r :: sched), s'. split.
      * rewrite (run_cons _ _ _ _ E1). exact R.
      * split; [|exact F]. rewrite T. simpl. apply list_insert_insert_eq.
Qed.

(** From any state where the flag and the calls agree, the machine can run
    on to a state where the flag is clear. *)
Lemma flag_clears s :
  guard_inv s ->
  exists sched s', run config sched s = Some s' /\ flushing s' = false.
Proof.
  unfold guard_inv, running. intros I. destruct (flushing s) eqn:F.
  - destruct (sum_list_positive in_progress (tasks s)) as (i & k & L & Hk); [lia|].
    destruct k as [|hs|]; simpl in Hk; [| |lia].
    + destruct (step config (QueueRead i) s) as [s1|] eqn:E1.
      2:{ simpl in E1. rewrite L in E1.
          destruct (Storage.getQueue (world s)) as [[[|e q]|] w']; discriminate. }
      pose proof E1 as E1'. simpl in E1. rewrite L in E1.
      destruct (Storage.getQueue (world s)) as [[[|e q]|] w'];
        injection E1 as <-.
      * exists [QueueRead i]. eexists. rewrite (run_cons _ _ _ _ E1').
        split; reflexivity.
      * match type of E1' with _ = Some ?s1 =>
          destruct (drain (sum_list_with todo (map AwaitSend (take 50 (e :: q))))
                      s1 i (map AwaitSend (take 50 (e :: q))))
            as (sched & s' & R & _ & F')
        end.
        { simpl. apply list_lookup_insert_eq. eapply lookup_lt_Some, L. }
        { lia. }
        exists (QueueRead i :: sched), s'. split; [|exact F'].
        rewrite (run_cons _ _ _ _ E1'). exact R.
      * exists [QueueRead i]. eexists. rewrite (run_cons _ _ _ _ E1').
        split; reflexivity.
    + destruct (drain (sum_list_with todo hs) s i hs L) as (sched & s' & R & _ & F');
        [lia|].
      exists sched, s'. split; assumption.
  - exists [], s. split; [reflexivity|assumption].
Qed.

(** Resuming a callback brings it closer to settling. *)
Lemma resume_decreases r h w h' w' :
  resume r h w = Some (h', w') -> (todo h' < todo h)%nat.
Proof.
  destruct r as [ok| |], h as [e|i|e|q|]; simpl; try discriminate.
  - intros [= <- _]. unfold after_send.
    destruct ok; [|destruct (_ <? _)]; simpl; lia.
  - destruct (Storage.getQueue w) as [[q|] w1]; intros [= <- _]; simpl; lia.
  - destruct (Storage.getQueue w) as [[q|] w1];
      [destruct (Storage.findIndex _ _)|]; intros [= <- _]; simpl; lia.
  - intros [= <- _]. simpl. lia.
Qed.

Lemma todo_batch (batch : list QueuedEvent) :
  sum_list_with todo (map AwaitSend batch) = (3 * length batch)%nat.
Proof. induction batch as [|e batch IH]; simpl; lia. Qed.

Lemma step_QueueRead i s s' :
  step config (QueueRead i) s = Some s' ->
  tasks s !! i = Some AwaitQueue /\
  (tasks s' = <[i := Returned]> (tasks s) \/
   exists batch, (length batch <= 50)%nat /\
     tasks s' = <[i := AwaitAllSettled (map AwaitSend batch)]> (tasks s)).
Proof.
  unfold step. destruct (tasks s !! i) as [[| |]|] eqn:L; try discriminate.
  intros H. split; [reflexivity|].
  destruct (Storage.getQueue (world s)) as [[[|e q]|] w']; injection H as <-.
  - left. reflexivity.
  - right. exists (take 50 (e :: q)). split; [|reflexivity].
    rewrite length_take. lia.
  - left. reflexivity.
Qed.

(** Apart from new calls of [flush], every step uses up one of the awaits
    that are left: the machine cannot go on for ever without the calls in
    progress returning. *)
Lemma step_decreases a s s' :
  a <> CallFlush -> step config a s = Some s' -> (potential s' < potential s)%nat.
Proof.
  unfold potential. intros Ha H.
  destruct a as [|i|i j r|i]; [congruence| |simpl in H|simpl in H].
  - apply step_QueueRead in H as (L & [E|(batch & Hb & E)]); rewrite E.
    + pose proof (sum_list_insert weight (tasks s) i AwaitQueue Returned L) as S.
      simpl in S. lia.
    + pose proof (sum_list_insert weight (tasks s) i AwaitQueue
                    (AwaitAllSettled (map AwaitSend batch)) L) as S.
      cbn [weight] in S. rewrite todo_batch in S. lia.
  - destruct (tasks s !! i) as [[|hs|]|] eqn:L; try discriminate.
    destruct (hs !! j) as [h|] eqn:Lj; simpl in H; [|discriminate].
    destruct (resume r h (world s)) as [[h' w']|] eqn:R; simpl in H; [|discriminate].
    injection H as <-. simpl.
    pose proof (sum_list_insert weight (tasks s) i (AwaitAllSettled hs)
                  (AwaitAllSettled (<[j := h']> hs)) L) as S.
    pose proof (sum_list_insert todo hs j h h' Lj) as S'.
    pose proof (resume_decreases _ _ _ _ _ R). simpl in S. lia.
  - destruct (tasks s !! i) as [[|hs|]|] eqn:L; try discriminate.
    destruct (all_settled hs); [|discriminate].
    injection H as <-. simpl.
    pose proof (sum_list_insert weight (tasks s) i (AwaitAllSettled hs)
                  Returned L) as S.
    simpl in S. lia.
Qed.

(** While a call is in progress, some await of it can settle. *)
Lemma step_enabled s :
  guard_inv s -> flushing s = true ->
  exists a s', a <> CallFlush /\ step config a s = Some s'.
Proof.
  unfold guard_inv, running. intros I F. rewrite F in I.
  destruct (sum_list_positive in_progress (tasks s)) as (i & k & L & Hk); [lia|].
  destruct k as [|hs|]; simpl in Hk; [| |lia].
  - exists (QueueRead i). simpl. rewrite L.
    destruct (Storage.getQueue (world s)) as [[[|e q]|] w'];
      eexists; (split; [discriminate|reflexivity]).
  - destruct (all_settled hs) eqn:E.
    + exists (AllSettled i). simpl. rewrite L, E.
      eexists. split; [discriminate|reflexivity].
    + destruct (not_all_settled _ E) as (j & h & Hj & Hh).
      destruct (handler_progress h Hh) as (r & Hr).
      destruct (Hr (world s)) as (h' & w' & Er & _).
      exists (Resume i j r). simpl. rewrite L. simpl. rewrite Hj. simpl. rewrite Er.
      eexists. split; [discriminate|reflexivity].
Qed.

End Guard.

Section GuardTheorem.

Import Transport.

(** C3. Re-entrancy guard.  In every state the machine can reach: a call
    of [flush] while the flag is set returns at once and changes nothing
    (no read, no send, no write: the world and its journal are the same);
    at most one call is in progress, and the flag is set exactly when one
    is, so it is clear once that call has returned; while the flag is set
    some await of the call in progress can settle, and every such step
    uses up the bounded work that is left, so the call returns and the
    flag is cleared; the next call of [flush] then gets past the guard. *)
Theorem flush_guard (config : ResolvedConfig) (w : Sys) (s : t) :
  reachable config w s ->
  (flushing s = true -> step config CallFlush s = Some s) /\
  (running s <= 1)%nat /\
  (flushing s = true <-> running s = 1%nat) /\
  (flushing s = true ->
   exists a s', a <> CallFlush /\ step config a s = Some s') /\
  (forall a s', a <> CallFlush -> step config a s = Some s' ->
                (potential s' < potential s)%nat) /\
  exists sched s',
    run config sched s = Some s' /\ flushing s' = false /\ running s' = 0%nat /\
    exists s'', step config CallFlush s' = Some s'' /\
                flushing s'' = true /\ running s'' = 1%nat.
Proof.
  intros (sched0 & R0).
  pose proof (guard_inv_run config sched0 _ _ (guard_inv_init w) R0) as I.
  split; [|split; [|split; [|split; [|split]]]].
  - intros F. simpl. rewrite F. reflexivity.
  - unfold guard_inv in I. rewrite I. destruct (flushing s); lia.
  - unfold guard_inv in I. rewrite I. destruct (flushing s); split;
      intros; try reflexivity; try discriminate; lia.
  - apply step_enabled, I.
  - intros a s'. apply step_decreases.
  - destruct (flag_clears config s I) as (sched & s' & R & F).
    pose proof (guard_inv_run config sched _ _ I R) as I'.
    exists sched, s'. split; [exact R|]. split; [exact F|].
    unfold guard_inv in I'. rewrite F in I'. split; [exact I'|].
    eexists. split; [simpl; rewrite F; reflexivity|]. split; [reflexivity|].
    unfold running in *. simpl. rewrite sum_list_snoc, I'. reflexivity.
Qed.

(** While the two sends of a flush are in flight, another call of [flush]
    is a no-op. *)
Lemma flush_guard_witness :
  flushing mid_flush = true /\
  step (sample_config 1000) CallFlush mid_flush = Some mid_flush.
Proof.
  split; [reflexivity|].
  apply (flush_guard (sample_config 1000)
           (world_with_queue [sample_event "A" 0; sample_event "B" 0] [])
           mid_flush).
  - exists [CallFlush; QueueRead 0%nat]. vm_compute. reflexivity.
  - reflexivity.
Defined.

(** C1, where the code departs from it.  Two events A and B are queued and
    both callbacks read the queue before either writes it back.  With both
    sends failing, A keeps retryCount 0 (the rule says 1); with A at
    retryCount 3, A stays queued (the rule says discarded); with A
    delivered, A stays queued (the rule says removed).  Run one after the
    other, the same callbacks give what the rule says. *)
Theorem flush_lost_update :
  (queue_after (overlapped false false) [sample_event "A" 0; sample_event "B" 0]
     = Some [sample_event "A" 0; sample_event "B" 1] /\
   queue_after (overlapped false false) [sample_event "A" 3; sample_event "B" 0]
     = Some [sample_event "A" 3; sample_event "B" 1] /\
   queue_after (overlapped true false) [sample_event "A" 0; sample_event "B" 0]
     = Some [sample_event "A" 0; sample_event "B" 1]) /\
  (queue_after (one_by_one false false) [sample_event "A" 0; sample_event "B" 0]
     = Some [sample_event "A" 1; sample_event "B" 1] /\
   queue_after (one_by_one false false) [sample_event "A" 3; sample_event "B" 0]
     = Some [sample_event "B" 1] /\
   queue_after (one_by_one true false) [sample_event "A" 0; sample_event "B" 0]
     = Some [sample_event "B" 1]).
Proof. repeat split; vm_compute; reflexivity. Qed.

End GuardTheorem.

(** ** The retry rule *)

Section Retry.

Import Transport.

Lemma removeEvent_healthy i w :
  healthy w ->
  exists w', Storage.removeEvent i w = (Ok tt, w') /\ healthy w' /\
             queue_of w' = filter (fun e => id e <> i) (queue_of w).
Proof.
  intros H. unfold Storage.removeEvent, bind.
  destruct (getQueue_healthy w H) as (w1 & E1 & H1 & Q1). rewrite E1.
  destruct (saveQueue_healthy (filter (fun e => id e <> i) (queue_of w)) w1 H1)
    as (w2 & E2 & H2 & Q2).
  rewrite E2. eauto.
Qed.

Lemma updateEvent_healthy event w :
  healthy w ->
  exists w', Storage.updateEvent event w = (Ok tt, w') /\ healthy w' /\
             queue_of w' =
               match Storage.findIndex (id event) (queue_of w) with
               | Some idx => <[idx := event]> (queue_of w)
               | None => queue_of w
               end.
Proof.
  intros H. unfold Storage.updateEvent, bind.
  destruct (getQueue_healthy w H) as (w1 & E1 & H1 & Q1). rewrite E1.
  destruct (Storage.findIndex (id event) (queue_of w)) as [idx|].
  - destruct (saveQueue_healthy (<[idx := event]> (queue_of w)) w1 H1)
      as (w2 & E2 & H2 & Q2).
    rewrite E2. eauto.
  - eauto.
Qed.

Lemma filter_absent (l : list QueuedEvent) (i : string) :
  i ∉ id <$> l -> filter (fun x => id x <> i) l = l.
Proof.
  induction l as [|x l IH]; [reflexivity|].
  rewrite fmap_cons, not_elem_of_cons. intros [Hx Hl].
  rewrite filter_cons_True by congruence. f_equal. apply IH, Hl.
Qed.

(** In a queue without repeated ids, an id selects its own entry. *)
Lemma filter_own_id (done rest : list QueuedEvent) (e : QueuedEvent) :
  NoDup (id <$> (done ++ e :: rest)) ->
  filter (fun x => id x <> id e) (done ++ e :: rest) = done ++ rest.
Proof.
  rewrite fmap_app, fmap_cons. intros N.
  apply NoDup_app in N as (Nd & Hd & Nr). apply NoDup_cons in Nr as (He & Nr).
  rewrite filter_app, filter_cons_False by (intros X; apply X; reflexivity).
  f_equal; apply filter_absent; [|exact He].
  intros Hin. apply (Hd _ Hin). left.
Qed.

Lemma findIndex_own_id (done rest : list QueuedEvent) (e : QueuedEvent) :
  id e ∉ id <$> done ->
  Storage.findIndex (id e) (done ++ e :: rest) = Some (length done).
Proof.
  unfold Storage.findIndex. induction done as [|x done IH]; simpl.
  - intros _. rewrite decide_True by reflexivity. reflexivity.
  - rewrite not_elem_of_cons. intros [Hx Hd].
    rewrite decide_False by congruence.
    specialize (IH Hd). destruct (list_find _ (done ++ e :: rest)) as [[n y]|];
      simpl in *; congruence.
Qed.

Lemma insert_own_place {A} (done rest : list A) (x y : A) :
  <[length done := y]> (done ++ x :: rest) = done ++ y :: rest.
Proof.
  rewrite insert_app_r_alt by lia. rewrite Nat.sub_diag. reflexivity.
Qed.

(** One callback run without a pause on a queue without repeated ids: the
    event is taken out on success and when its retries are used up, and
    is left in its place with one more retry counted otherwise. *)
Lemma settle_in_place (done rest : list QueuedEvent) (e : QueuedEvent)
    (success : bool) (w : Sys) :
  healthy w ->
  queue_of w = done ++ e :: rest ->
  NoDup (id <$> (done ++ e :: rest)) ->
  exists w', settle e success w = (Ok tt, w') /\ healthy w' /\
             queue_of w' = done ++ option_list (retire e success) ++ rest.
Proof.
  intros H Q N. unfold settle, retire.
  assert (filter (fun x => id x <> id e) (queue_of w) = done ++ rest) as Hrm.
  { rewrite Q. apply filter_own_id, N. }
  destruct success; [|destruct (retryCount e <? 3)].
  - destruct (removeEvent_healthy (id e) w H) as (w' & E & H' & Q').
    exists w'. rewrite E, Q', Hrm. auto.
  - destruct (updateEvent_healthy (retried e) w H) as (w' & E & H' & Q').
    exists w'. split; [exact E|]. split; [exact H'|]. rewrite Q', Q.
    change (id (retried e)) with (id e).
    rewrite findIndex_own_id, insert_own_place; [reflexivity|].
    rewrite fmap_app, fmap_cons in N. apply NoDup_app in N as (_ & Hd & _).
    intros Hin. apply (Hd _ Hin). left.
  - destruct (removeEvent_healthy (id e) w H) as (w' & E & H' & Q').
    exists w'. rewrite E, Q', Hrm. auto.
Qed.

Lemma retire_id e success e' : retire e success = Some e' -> id e' = id e.
Proof.
  unfold retire. destruct success; [discriminate|].
  destruct (retryCount e <? 3); [|discriminate]. intros [= <-]. reflexivity.
Qed.

Lemma NoDup_ids_retire done e success rest :
  NoDup (id <$> (done ++ e :: rest)) ->
  NoDup (id <$> ((done ++ option_list (retire e success)) ++ rest)).
Proof.
  destruct (retire e success) as [e'|] eqn:R; simpl.
  - rewrite <- app_assoc. simpl. rewrite !fmap_app, !fmap_cons.
    rewrite (retire_id _ _ _ R). auto.
  - rewrite app_nil_r, !fmap_app, fmap_cons. intros N.
    apply NoDup_app in N as (Nd & Hd & Nr). apply NoDup_cons in Nr as (He & Nr).
    apply NoDup_app. split; [exact Nd|]. split; [|exact Nr].
    intros x Hx Hr. apply (Hd x Hx). right. exact Hr.
Qed.

Lemma settle_all_in_place outcome batch : forall done rest w,
  healthy w ->
  queue_of w = done ++ batch ++ rest ->
  NoDup (id <$> (done ++ batch ++ rest)) ->
  exists w', settle_all outcome batch w = (Ok tt, w') /\ healthy w' /\
             queue_of w' =
               done ++ omap (fun e => retire e (outcome e)) batch ++ rest.
Proof.
  induction batch as [|e batch IH]; intros done rest w H Q N.
  - exists w. auto.
  - simpl settle_all. unfold bind.
    destruct (settle_in_place done (batch ++ rest) e (outcome e) w H Q N)
      as (w1 & E1 & H1 & Q1).
    rewrite E1.
    destruct (IH (done ++ option_list (retire e (outcome e))) rest w1 H1)
      as (w2 & E2 & H2 & Q2).
    { rewrite Q1, <- app_assoc. reflexivity. }
    { apply (NoDup_ids_retire done e (outcome e) (batch ++ rest)), N. }
    exists w2. split; [exact E2|]. split; [exact H2|].
    rewrite Q2, <- app_assoc. simpl.
    destruct (retire e (outcome e)); reflexivity.
Qed.

(** Flushing when the callbacks do not overlap: the first 50 events are
    retired by the rule, the others stay. *)
Lemma flush_one_by_one outcome (w : Sys) :
  healthy w ->
  NoDup (id <$> queue_of w) ->
  exists w', settle_all outcome (take 50 (queue_of w)) w = (Ok tt, w') /\
             queue_of w' =
               omap (fun e => retire e (outcome e)) (take 50 (queue_of w))
               ++ drop 50 (queue_of w).
Proof.
  intros H N.
  destruct (settle_all_in_place outcome (take 50 (queue_of w)) []
              (drop 50 (queue_of w)) w H) as (w' & E & _ & Q).
  - simpl. rewrite take_drop. reflexivity.
  - simpl. rewrite take_drop. exact N.
  - exists w'. split; [exact E|exact Q].
Qed.

(** A callback of the machine that is resumed without a pause does what
    [settle] does. *)
Lemma resume_without_pause (e : QueuedEvent) (ok : bool) (w : Sys) :
  exists rs w',
    resume_all (SendSettled ok :: rs) (AwaitSend e) w = Some (Settled, w') /\
    disk w' = disk (settle e ok w).2 /\ faults w' = faults (settle e ok w).2.
Proof.
  unfold settle, after_send. simpl. unfold after_send.
  destruct ok; [|destruct (retryCount e <? 3)].
  - exists [ReadSettled; SaveSettled]. simpl.
    unfold Storage.removeEvent, bind. rewrite getQueue_eq. simpl.
    eexists. split; [reflexivity|]. split; reflexivity.
  - unfold Storage.updateEvent, bind. rewrite getQueue_eq. simpl.
    destruct (Storage.findIndex _ _) eqn:F.
    + exists [ReadSettled; SaveSettled]. simpl. rewrite getQueue_eq, F. simpl.
      eexists. split; [reflexivity|]. split; reflexivity.
    + exists [ReadSettled]. simpl. rewrite getQueue_eq, F. simpl.
      eexists. split; [reflexivity|]. split; reflexivity.
  - exists [ReadSettled; SaveSettled]. simpl.
    unfold Storage.removeEvent, bind. rewrite getQueue_eq. simpl.
    eexists. split; [reflexivity|]. split; reflexivity.
Qed.

End Retry.

(** ** The error pipeline *)

Section Errors.

Import ErrorTracker.

Variable config : ResolvedConfig.
Variable userAgent : string.

(** What [captureError] does on a ready storage, stage by stage. *)
Lemma captureError_ready now fresh error context type severity this storage w :
  Storage.isReady storage = true ->
  exists storage' out w',
    captureError config userAgent now fresh error context type severity
      this storage w =
    (Ok ((if (isRateLimited now this).1 then (isRateLimited now this).2
          else (isDuplicate now (dedupKey error) (isRateLimited now this).2).2),
         storage', out), w') /\
    Storage.isReady storage' = true /\
    length out =
      (if (isRateLimited now this).1 then 0
       else if (isDuplicate now (dedupKey error) (isRateLimited now this).2).1
            then 0 else 1)%nat.
Proof.
  intros R. unfold captureError. rewrite R. simpl negb. cbv iota.
  destruct (isRateLimited now this) as [[] this1]; simpl.
  - do 3 eexists. split; [reflexivity|]. split; [exact R|reflexivity].
  - destruct (isDuplicate now (dedupKey error) this1) as [[] this2]; simpl.
    + do 3 eexists. split; [reflexivity|]. split; [exact R|reflexivity].
    + destruct (getSessionId_total storage (sessionTimeout config) now fresh w)
        as (sid & st' & w' & E & _ & _ & _ & Hi & _).
      unfold bind. rewrite E. simpl.
      do 3 eexists. split; [reflexivity|]. split; [|reflexivity].
      unfold Storage.isReady in *. rewrite Hi. exact R.
Qed.

Lemma isRateLimited_spec now this :
  let r := isRateLimited now this in
  sentErrorHashes r.2 = sentErrorHashes this /\
  evictions r.2 = evictions this /\
  (r.1 = true  -> MAX_ERRORS_PER_WINDOW <= Z.of_nat (length (live now this)) /\
                  errorTimestamps r.2 = live now this) /\
  (r.1 = false -> Z.of_nat (length (live now this)) < MAX_ERRORS_PER_WINDOW /\
                  errorTimestamps r.2 = live now this ++ [now]).
Proof.
  unfold isRateLimited, live.
  destruct (Z.geb_spec
    (Z.of_nat (length (filter (fun t => now - t < RATE_LIMIT_WINDOW_MS)
                              (errorTimestamps this))))
    MAX_ERRORS_PER_WINDOW); simpl;
    (split; [reflexivity|]; split; [reflexivity|]; split; intros; try discriminate;
     split; [lia|reflexivity]).
Qed.

Lemma isRateLimited_decides now this :
  (isRateLimited now this).1 =
  (Z.of_nat (length (live now this)) >=? MAX_ERRORS_PER_WINDOW).
Proof. unfold isRateLimited, live. destruct (_ >=? _); reflexivity. Qed.

(** C4 (amended).  For every error capture made once the storage is
    ready: the timestamps that are 60 s old or older are dropped from the
    window; if 10 or more remain, the capture is dropped, nothing is
    delivered and its timestamp is not recorded; otherwise its timestamp is
    recorded.  So a capture made when all earlier timestamps have expired
    is recorded. *)
Theorem rate_limit now fresh error context type severity this storage w :
  Storage.isReady storage = true ->
  exists this' storage' out w',
    captureError config userAgent now fresh error context type severity
      this storage w = (Ok (this', storage', out), w') /\
    (MAX_ERRORS_PER_WINDOW <= Z.of_nat (length (live now this)) ->
     out = [] /\ errorTimestamps this' = live now this) /\
    (Z.of_nat (length (live now this)) < MAX_ERRORS_PER_WINDOW ->
     errorTimestamps this' = live now this ++ [now]) /\
    (Forall (fun t => RATE_LIMIT_WINDOW_MS <= now - t) (errorTimestamps this) ->
     errorTimestamps this' = [now]).
Proof.
  intros R.
  destruct (captureError_ready now fresh error context type severity this
              storage w R) as (storage' & out & w' & E & _ & L).
  pose proof (isRateLimited_spec now this) as (_ & _ & Hlim & Hpass).
  do 4 eexists. split; [exact E|].
  assert (Z.of_nat (length (live now this)) < MAX_ERRORS_PER_WINDOW ->
          errorTimestamps
            (if (isRateLimited now this).1 then (isRateLimited now this).2
             else (isDuplicate now (dedupKey error) (isRateLimited now this).2).2)
          = live now this ++ [now]) as Hrec.
  { intros Hlt. destruct (isRateLimited now this).1 eqn:B.
    - destruct (Hlim eq_refl). lia.
    - destruct (Hpass eq_refl) as (_ & Ets).
      unfold isDuplicate. case_bool_decide; simpl; exact Ets. }
  split; [|split; [exact Hrec|]].
  - intros Hfull. destruct (isRateLimited now this).1 eqn:B.
    + destruct (Hlim eq_refl) as (_ & Ets). split; [|exact Ets].
      destruct out; [reflexivity|discriminate].
    + destruct (Hpass eq_refl). lia.
  - intros Hold.
    assert (live now this = []) as Hnil.
    { unfold live. induction Hold as [|t ts Ht _ IH]; [reflexivity|].
      rewrite filter_cons_False by lia. exact IH. }
    rewrite Hrec; rewrite Hnil; [reflexivity|]. simpl. unfold MAX_ERRORS_PER_WINDOW. lia.
Qed.

End Errors.

(** The eleventh capture within the minute is dropped; made after the ten
    have expired it is recorded. *)
Lemma rate_limit_witness :
  (exists this' storage' w',
     ErrorTracker.captureError (sample_config 1000) "ios/17" 59999 "s-new"
       (sample_error "boom") None "error" SevError busy_tracker
       (sample_storage "s-old" 0) fresh_world = (Ok (this', storage', []), w') /\
     ErrorTracker.errorTimestamps this' = ErrorTracker.errorTimestamps busy_tracker) /\
  (exists this' storage' out w',
     ErrorTracker.captureError (sample_config 1000) "ios/17" 69000 "s-new"
       (sample_error "boom") None "error" SevError busy_tracker
       (sample_storage "s-old" 0) fresh_world = (Ok (this', storage', out), w') /\
     ErrorTracker.errorTimestamps this' = [69000]).
Proof.
  split.
  - destruct (rate_limit (sample_config 1000) "ios/17" 59999 "s-new"
                (sample_error "boom") None "error" SevError busy_tracker
                (sample_storage "s-old" 0) fresh_world eq_refl)
      as (this' & storage' & out & w' & E & Hfull & _ & _).
    destruct Hfull as (-> & Ets); [vm_compute; discriminate|].
    exists this', storage', w'. split; [exact E|]. rewrite Ets. reflexivity.
  - destruct (rate_limit (sample_config 1000) "ios/17" 69000 "s-new"
                (sample_error "boom") None "error" SevError busy_tracker
                (sample_storage "s-old" 0) fresh_world eq_refl)
      as (this' & storage' & out & w' & E & _ & _ & Hold).
    exists this', storage', out, w'. split; [exact E|].
    apply Hold. repeat constructor; vm_compute; discriminate.
Defined.

(** C4 as stated fails before the storage is ready: the window is empty,
    yet the capture's timestamp is not recorded. *)
Lemma rate_limit_unready :
  Z.of_nat (length (live 1000 new_tracker)) < ErrorTracker.MAX_ERRORS_PER_WINDOW /\
  exists this' w',
    ErrorTracker.captureError (sample_config 1000) "ios/17" 1000 "s-new"
      (sample_error "boom") None "error" SevError new_tracker
      unready_storage fresh_world = (Ok (this', unready_storage, []), w') /\
    1000 ∉ ErrorTracker.errorTimestamps this'.
Proof.
  split; [reflexivity|].
  exists new_tracker, fresh_world. split; [reflexivity|].
  simpl. apply not_elem_of_nil.
Qed.

(** ** Deduplication and its timers *)

Section Dedup.

Import ErrorTracker.

Variable config : ResolvedConfig.
Variable userAgent : string.

Lemma evict_all (due : list (Z * Z)) : forall this,
  errorTimestamps (foldl (fun acc d => evict d.2 acc) this due) = errorTimestamps this /\
  forall k, k ∈ sentErrorHashes (foldl (fun acc d => evict d.2 acc) this due) <->
            k ∈ sentErrorHashes this /\ k ∉ snd <$> due.
Proof.
  induction due as [|d due IH]; intros this; simpl.
  - split; [reflexivity|]. intros k. rewrite elem_of_nil. tauto.
  - destruct (IH (evict d.2 this)) as (Ets & Hset). split; [exact Ets|].
    intros k. rewrite Hset. simpl.
    rewrite elem_of_cons, elem_of_difference, elem_of_singleton. tauto.
Qed.

Lemma run_timers_window now this :
  errorTimestamps (run_timers now this) = errorTimestamps this.
Proof. unfold run_timers. simpl. apply evict_all. Qed.

Lemma run_timers_evictions now this :
  evictions (run_timers now this) = filter (fun d => now < d.1) (evictions this).
Proof. reflexivity. Qed.

Lemma run_timers_hashes now this k :
  k ∈ sentErrorHashes (run_timers now this) <->
  k ∈ sentErrorHashes this /\
  k ∉ snd <$> filter (fun d => d.1 <= now) (evictions this).
Proof. unfold run_timers. simpl. apply evict_all. Qed.

(** With one timer for each hash, a hash has one due time. *)
Lemma one_timer (l : list (Z * Z)) (a b k : Z) :
  NoDup (snd <$> l) -> (a, k) ∈ l -> (b, k) ∈ l -> a = b.
Proof.
  induction l as [|[d h] l IH]; simpl; intros N Ha Hb.
  - apply elem_of_nil in Ha. contradiction.
  - apply NoDup_cons in N as (Hh & N).
    apply elem_of_cons in Ha as [Ea|Ha]; apply elem_of_cons in Hb as [Eb|Hb].
    + congruence.
    + injection Ea as -> ->. exfalso. apply Hh.
      apply (list_elem_of_fmap_2 snd) in Hb. exact Hb.
    + injection Eb as -> ->. exfalso. apply Hh.
      apply (list_elem_of_fmap_2 snd) in Ha. exact Ha.
    + apply IH; assumption.
Qed.

Lemma timers_match_run_timers now this :
  timers_match this -> timers_match (run_timers now this).
Proof.
  intros (N & Hm). split.
  - rewrite run_timers_evictions.
    eapply sublist_NoDup; [exact N|]. apply fmap_sublist, sublist_filter.
  - intros k. rewrite run_timers_hashes, run_timers_evictions, Hm.
    rewrite !list_elem_of_fmap. split.
    + intros ((d & -> & Hd) & Hnot). exists d. split; [reflexivity|].
      apply list_elem_of_filter. split; [|exact Hd].
      destruct (decide (now < d.1)) as [|Hle]; [assumption|].
      exfalso. apply Hnot. exists d. split; [reflexivity|].
      apply list_elem_of_filter. split; [lia|exact Hd].
    + intros (d & -> & Hd). apply list_elem_of_filter in Hd as (Hlt & Hd).
      split; [exists d; auto|].
      intros (d' & Heq & Hd').
      apply list_elem_of_filter in Hd' as (Hle & Hd').
      destruct d as [a k], d' as [b k']. simpl in *. subst k'.
      pose proof (one_timer _ a b k N Hd Hd'). lia.
Qed.

Lemma timers_match_isRateLimited now this :
  timers_match this -> timers_match (isRateLimited now this).2.
Proof.
  unfold timers_match. pose proof (isRateLimited_spec now this) as (Es & Ee & _).
  rewrite Es, Ee. tauto.
Qed.

Lemma timers_match_isDuplicate now k this :
  timers_match this -> timers_match (isDuplicate now k this).2.
Proof.
  intros (N & Hm). unfold isDuplicate. case_bool_decide as Hk; [split; assumption|].
  split; simpl.
  - rewrite fmap_app. simpl. apply NoDup_app. split; [exact N|].
    split; [|apply NoDup_singleton].
    intros x Hx Hin. apply list_elem_of_singleton in Hin as ->.
    apply Hk, Hm, Hx.
  - intros x. rewrite fmap_app, elem_of_app. simpl.
    rewrite list_elem_of_singleton, elem_of_union, elem_of_singleton, Hm. tauto.
Qed.

Lemma capture_at_ready c this storage w :
  Storage.isReady storage = true ->
  exists storage' out w',
    capture_at config userAgent c this storage w =
      (Ok (tracker_after c this, storage', out), w') /\
    Storage.isReady storage' = true /\
    length out = (if delivers c this then 1 else 0)%nat.
Proof.
  intros R. unfold capture_at, tracker_after, delivers.
  destruct (captureError_ready config userAgent (c_now c) (c_fresh c) (c_error c)
              (c_context c) (c_type c) (c_severity c)
              (run_timers (c_now c) this) storage w R)
    as (storage' & out & w' & E & R' & L).
  exists storage', out, w'. split; [exact E|]. split; [exact R'|].
  rewrite L. destruct (isRateLimited _ _).1; [reflexivity|].
  destruct (isDuplicate _ _ _).1; reflexivity.
Qed.

Lemma timers_match_after c this :
  timers_match this -> timers_match (tracker_after c this).
Proof.
  intros M0. unfold tracker_after.
  pose proof (timers_match_isRateLimited (c_now c) _
                (timers_match_run_timers (c_now c) _ M0)) as M1.
  destruct (isRateLimited _ _).1; [exact M1|].
  apply timers_match_isDuplicate, M1.
Qed.

(** A timer that is not due stays, through any capture. *)
Lemma timer_stays c this due k :
  (due, k) ∈ evictions this -> c_now c < due ->
  (due, k) ∈ evictions (tracker_after c this).
Proof.
  intros Hin Hlt. unfold tracker_after.
  pose proof (isRateLimited_spec (c_now c) (run_timers (c_now c) this))
    as (_ & Ee & _).
  assert ((due, k) ∈ evictions (isRateLimited (c_now c) (run_timers (c_now c) this)).2)
    as H1.
  { rewrite Ee, run_timers_evictions. apply list_elem_of_filter. auto. }
  destruct (isRateLimited _ _).1; [exact H1|].
  unfold isDuplicate. case_bool_decide; [exact H1|]. simpl.
  apply elem_of_app. left. exact H1.
Qed.

Lemma captures_ready cs : forall this storage w,
  Storage.isReady storage = true ->
  exists this' storage' out w',
    captures config userAgent cs this storage w = (Ok (this', storage', out), w') /\
    Storage.isReady storage' = true /\
    (timers_match this -> timers_match this') /\
    (forall due k, (due, k) ∈ evictions this ->
                   Forall (fun c => c_now c < due) cs ->
                   (due, k) ∈ evictions this').
Proof.
  induction cs as [|c cs IH]; intros this storage w R; simpl.
  - exists this, storage, [], w. auto.
  - destruct (capture_at_ready c this storage w R) as (st1 & out1 & w1 & E1 & R1 & _).
    unfold bind. rewrite E1. simpl.
    destruct (IH (tracker_after c this) st1 w1 R1)
      as (this2 & st2 & out2 & w2 & E2 & R2 & M2 & T2).
    rewrite E2. simpl. do 4 eexists. split; [reflexivity|]. split; [exact R2|].
    split.
    + intros M0. apply M2, timers_match_after, M0.
    + intros due k Hin Hall. apply Forall_cons in Hall as (Hc & Hall).
      apply T2; [|exact Hall]. apply timer_stays; assumption.
Qed.

(** When a capture delivers and when it does not. *)
Lemma delivers_iff c this :
  delivers c this = true <->
  (isRateLimited (c_now c) (run_timers (c_now c) this)).1 = false /\
  dedupKey (c_error c) ∉ sentErrorHashes (run_timers (c_now c) this).
Proof.
  unfold delivers.
  pose proof (isRateLimited_spec (c_now c) (run_timers (c_now c) this)) as (Es & _).
  unfold isDuplicate. rewrite Es.
  destruct (isRateLimited _ _).1; simpl.
  - split; [discriminate|]. intros [? _]. discriminate.
  - case_bool_decide; simpl; split; try tauto; discriminate.
Qed.

Lemma delivered_sets_timer c this :
  delivers c this = true ->
  (c_now c + DEDUP_EXPIRY_MS, dedupKey (c_error c)) ∈ evictions (tracker_after c this).
Proof.
  intros D. apply delivers_iff in D as (Hpass & Hnew).
  unfold tracker_after. rewrite Hpass.
  pose proof (isRateLimited_spec (c_now c) (run_timers (c_now c) this)) as (Es & _).
  unfold isDuplicate. rewrite Es.
  rewrite bool_decide_eq_false_2 by exact Hnew. simpl.
  apply elem_of_app. right. apply list_elem_of_singleton. reflexivity.
Qed.

Lemma pending_is_duplicate c this due :
  timers_match this ->
  (due, dedupKey (c_error c)) ∈ evictions this -> c_now c < due ->
  delivers c this = false.
Proof.
  intros M0 Hin Hlt. destruct (delivers c this) eqn:D; [|reflexivity].
  apply delivers_iff in D as (_ & Hnew). exfalso. apply Hnew.
  apply (timers_match_run_timers (c_now c)) in M0 as (_ & Hm). apply Hm.
  rewrite run_timers_evictions.
  apply (list_elem_of_fmap_2 snd (filter _ _) (due, dedupKey (c_error c))).
  apply list_elem_of_filter. auto.
Qed.

Lemma expired_is_new c this due :
  (due, dedupKey (c_error c)) ∈ evictions this -> due <= c_now c ->
  dedupKey (c_error c) ∉ sentErrorHashes (run_timers (c_now c) this).
Proof.
  intros Hin Hle Hk. apply run_timers_hashes in Hk as (_ & Hnot).
  apply Hnot.
  apply (list_elem_of_fmap_2 snd (filter _ _) (due, dedupKey (c_error c))).
  apply list_elem_of_filter. auto.
Qed.

Lemma same_fingerprint_key e1 e2 :
  same_fingerprint e1 e2 -> dedupKey e1 = dedupKey e2.
Proof. intros (Hm & Hs). unfold dedupKey. rewrite Hm, Hs. reflexivity. Qed.

Lemma one_delivery (out : list delivery) : length out = 1%nat -> exists d, out = [d].
Proof. destruct out as [|d [|? ?]]; try discriminate. eauto. Qed.

Lemma no_delivery (out : list delivery) : length out = 0%nat -> out = [].
Proof. destruct out; [reflexivity|discriminate]. Qed.

(** C5. Dedup window.  Take a capture [c1] that passes the rate limit and
    whose fingerprint is not in the dedup set: it starts one delivery.  A
    capture [c2] of an error with the same message and truncated stack,
    less than 5 minutes after [c1], starts none, whatever was captured
    between the two in that time.  A capture [c3] of the same error, 5
    minutes or more after [c1] and passing the rate limit, starts a second
    delivery.  The eviction timers are taken to run when they are due. *)
Theorem dedup_window (c1 c2 c3 : capture) (between : list capture)
    (this : t) (storage : Storage.t) (w : Sys) :
  timers_match this ->
  Storage.isReady storage = true ->
  same_fingerprint (c_error c1) (c_error c2) ->
  same_fingerprint (c_error c1) (c_error c3) ->
  (isRateLimited (c_now c1) (run_timers (c_now c1) this)).1 = false ->
  dedupKey (c_error c1) ∉ sentErrorHashes (run_timers (c_now c1) this) ->
  Forall (fun c => c_now c < c_now c1 + DEDUP_EXPIRY_MS) between ->
  c_now c2 < c_now c1 + DEDUP_EXPIRY_MS ->
  c_now c1 + DEDUP_EXPIRY_MS <= c_now c3 ->
  exists this1 st1 d1 w1,
    capture_at config userAgent c1 this storage w = (Ok (this1, st1, [d1]), w1) /\
  exists this2 st2 out2 w2,
    captures config userAgent between this1 st1 w1 = (Ok (this2, st2, out2), w2) /\
  exists this3 st3 w3,
    capture_at config userAgent c2 this2 st2 w2 = (Ok (this3, st3, []), w3) /\
    ((isRateLimited (c_now c3) (run_timers (c_now c3) this3)).1 = false ->
     exists this4 st4 d3 w4,
       capture_at config userAgent c3 this3 st3 w3 = (Ok (this4, st4, [d3]), w4)).
Proof.
  intros M0 R K2 K3 Hpass Hnew Hbetween H2 H3.
  apply same_fingerprint_key in K2, K3.
  assert (delivers c1 this = true) as D1 by (apply delivers_iff; auto).
  destruct (capture_at_ready c1 this storage w R) as (st1 & out1 & w1 & E1 & R1 & L1).
  rewrite D1 in L1. destruct (one_delivery _ L1) as (d1 & ->).
  exists (tracker_after c1 this), st1, d1, w1. split; [exact E1|].
  pose proof (timers_match_after c1 this M0) as M1.
  pose proof (delivered_sets_timer c1 this D1) as T1.
  destruct (captures_ready between (tracker_after c1 this) st1 w1 R1)
    as (this2 & st2 & out2 & w2 & E2 & R2 & M2 & T2).
  exists this2, st2, out2, w2. split; [exact E2|].
  specialize (M2 M1). specialize (T2 _ _ T1 Hbetween).
  destruct (capture_at_ready c2 this2 st2 w2 R2) as (st3 & out3 & w3 & E3 & R3 & L3).
  rewrite K2 in T2.
  rewrite (pending_is_duplicate c2 this2 _ M2 T2 H2) in L3.
  apply no_delivery in L3 as ->.
  exists (tracker_after c2 this2), st3, w3. split; [exact E3|].
  intros Hpass3.
  pose proof (timer_stays c2 this2 _ _ T2 H2) as T3.
  rewrite <- K2, K3 in T3.
  assert (delivers c3 (tracker_after c2 this2) = true) as D3.
  { apply delivers_iff. split; [exact Hpass3|].
    eapply expired_is_new; [exact T3|exact H3]. }
  destruct (capture_at_ready c3 (tracker_after c2 this2) st3 w3 R3)
    as (st4 & out4 & w4 & E4 & _ & L4).
  rewrite D3 in L4. destruct (one_delivery _ L4) as (d3 & ->).
  exists (tracker_after c3 (tracker_after c2 this2)), st4, d3, w4. exact E4.
Qed.

(** C10. The limiter comes before the dedup set.  A capture that the rate
    limiter rejects leaves the dedup set and its timers as they were, so a
    later capture of the same error whose fingerprint was not in the set,
    made when the window has room, starts a delivery.  A capture that
    passes the rate limit and is then rejected as a duplicate has had its
    timestamp recorded in the window. *)
Theorem limiter_before_dedup now fresh error context type severity
    (this : t) (storage : Storage.t) (w : Sys) :
  Storage.isReady storage = true ->
  ((isRateLimited now this).1 = true ->
   exists this' storage' w',
     captureError config userAgent now fresh error context type severity
       this storage w = (Ok (this', storage', []), w') /\
     sentErrorHashes this' = sentErrorHashes this /\
     evictions this' = evictions this /\
     forall c,
       same_fingerprint error (c_error c) ->
       dedupKey error ∉ sentErrorHashes this ->
       (isRateLimited (c_now c) (run_timers (c_now c) this')).1 = false ->
       exists this'' storage'' d w'',
         capture_at config userAgent c this' storage' w' =
           (Ok (this'', storage'', [d]), w'')) /\
  ((isRateLimited now this).1 = false ->
   dedupKey error ∈ sentErrorHashes this ->
   exists this' storage' w',
     captureError config userAgent now fresh error context type severity
       this storage w = (Ok (this', storage', []), w') /\
     errorTimestamps this' = live now this ++ [now]).
Proof.
  intros R.
  destruct (captureError_ready config userAgent now fresh error context type
              severity this storage w R) as (storage' & out & w' & E & R' & L).
  pose proof (isRateLimited_spec now this) as (Es & Ee & _ & Hpass).
  split.
  - intros Hlim. rewrite Hlim in E, L. apply no_delivery in L as ->.
    exists (isRateLimited now this).2, storage', w'.
    split; [exact E|]. split; [exact Es|]. split; [exact Ee|].
    intros c K Hnew Hroom. apply same_fingerprint_key in K.
    assert (delivers c (isRateLimited now this).2 = true) as D.
    { apply delivers_iff. split; [exact Hroom|].
      intros Hin. apply run_timers_hashes in Hin as (Hin & _).
      rewrite Es, <- K in Hin. contradiction. }
    destruct (capture_at_ready c (isRateLimited now this).2 storage' w' R')
      as (st2 & out2 & w2 & E2 & _ & L2).
    rewrite D in L2. destruct (one_delivery _ L2) as (d & ->).
    do 4 eexists. exact E2.
  - intros Hok Hdup. rewrite Hok in E, L.
    destruct (Hpass Hok) as (_ & Ets).
    assert ((isDuplicate now (dedupKey error) (isRateLimited now this).2)
            = (true, (isRateLimited now this).2)) as Edup.
    { unfold isDuplicate. rewrite Es, bool_decide_eq_true_2 by exact Hdup.
      reflexivity. }
    rewrite Edup in E, L. simpl in E, L. apply no_delivery in L as ->.
    exists (isRateLimited now this).2, storage', w'. split; [exact E|exact Ets].
Qed.

End Dedup.

Lemma timers_match_new : timers_match new_tracker.
Proof.
  split; simpl.
  - apply NoDup_nil_2.
  - intros k. rewrite elem_of_nil. split; [|tauto]. apply not_elem_of_empty.
Qed.

(** The same error at 0 s, 60 s and 300 s, with another error in between:
    one delivery, none, one delivery. *)
Lemma dedup_window_witness :
  exists this1 st1 d1 w1,
    capture_at (sample_config 1000) "ios/17" (sample_capture 0 "boom")
      new_tracker (sample_storage "s-old" 0) fresh_world =
      (Ok (this1, st1, [d1]), w1) /\
  exists this2 st2 out2 w2,
    captures (sample_config 1000) "ios/17" [sample_capture 1000 "other"]
      this1 st1 w1 = (Ok (this2, st2, out2), w2) /\
  exists this3 st3 w3,
    capture_at (sample_config 1000) "ios/17" (sample_capture 60000 "boom")
      this2 st2 w2 = (Ok (this3, st3, []), w3) /\
    ((ErrorTracker.isRateLimited 300000
        (ErrorTracker.run_timers 300000 this3)).1 = false ->
     exists this4 st4 d3 w4,
       capture_at (sample_config 1000) "ios/17" (sample_capture 300000 "boom")
         this3 st3 w3 = (Ok (this4, st4, [d3]), w4)).
Proof.
  apply (dedup_window (sample_config 1000) "ios/17"
           (sample_capture 0 "boom") (sample_capture 60000 "boom")
           (sample_capture 300000 "boom") [sample_capture 1000 "other"]
           new_tracker (sample_storage "s-old" 0) fresh_world).
  - exact timers_match_new.
  - reflexivity.
  - split; reflexivity.
  - split; reflexivity.
  - reflexivity.
  - simpl. apply not_elem_of_empty.
  - repeat constructor.
  - reflexivity.
  - vm_compute. discriminate.
Defined.

(** The eleventh capture of the minute leaves the dedup set alone; a
    duplicate that passes the limiter has its timestamp recorded. *)
Lemma limiter_before_dedup_witness :
  (exists this' storage' w',
     ErrorTracker.captureError (sample_config 1000) "ios/17" 59999 "s-new"
       (sample_error "boom") None "error" SevError busy_tracker
       (sample_storage "s-old" 0) fresh_world = (Ok (this', storage', []), w') /\
     ErrorTracker.sentErrorHashes this' = ∅) /\
  (exists this' storage' w',
     ErrorTracker.captureError (sample_config 1000) "ios/17" 59999 "s-new"
       (sample_error "boom") None "error" SevError boom_sent
       (sample_storage "s-old" 0) fresh_world = (Ok (this', storage', []), w') /\
     ErrorTracker.errorTimestamps this' = [0; 59999]).
Proof.
  split.
  - destruct (limiter_before_dedup (sample_config 1000) "ios/17" 59999 "s-new"
                (sample_error "boom") None "error" SevError busy_tracker
                (sample_storage "s-old" 0) fresh_world eq_refl) as (Hlim & _).
    destruct (Hlim eq_refl) as (this' & storage' & w' & E & Es & _).
    exists this', storage', w'. split; [exact E|exact Es].
  - destruct (limiter_before_dedup (sample_config 1000) "ios/17" 59999 "s-new"
                (sample_error "boom") None "error" SevError boom_sent
                (sample_storage "s-old" 0) fresh_world eq_refl) as (_ & Hdup).
    destruct Hdup as (this' & storage' & w' & E & Ets).
    + reflexivity.
    + vm_compute. reflexivity.
    + exists this', storage', w'. split; [exact E|]. rewrite Ets. reflexivity.
Defined.

(** ** The screen tracker *)

Section Screens.

Import Client.

Variable config : ResolvedConfig.


(** [sendScreenDuration] touches the view slot and nothing else. *)
Lemma sendScreenDuration_keeps now this :
  let r := sendScreenDuration config now this in
  storage r.1 = storage this /\ destroyed r.1 = destroyed this /\
  currentScreenName r.1 = currentScreenName this /\
  currentScreenPath r.1 = currentScreenPath this /\
  screenDebounceTimer r.1 = screenDebounceTimer this /\
  isFirstScreen r.1 = isFirstScreen this /\
  timeouts r.1 = timeouts this /\ next_handle r.1 = next_handle this.
Proof.
  unfold sendScreenDuration.
  destruct (live_view _); [|simpl; tauto].
  case_bool_decide; [simpl; tauto|].
  destruct (negb _); [simpl; tauto|].
  destruct (_ <? _); simpl; tauto.
Qed.

Lemma sendScreenDuration_cases now this :
  sendScreenDuration config now this = (this, []) \/
  exists view d,
    (sendScreenDuration config now this).2 = [(duration_url config, PDuration view d)] /\
    currentScreenViewId (sendScreenDuration config now this).1 = None.
Proof.
  unfold sendScreenDuration.
  destruct (live_view _) as [view|]; [|left; reflexivity].
  case_bool_decide; [left; reflexivity|].
  destruct (negb _); [left; reflexivity|].
  destruct (_ <? _); [left; reflexivity|].
  right. simpl. eauto.
Qed.

Lemma sendScreenDuration_idle now this :
  currentScreenViewId this = None ->
  sendScreenDuration config now this = (this, []).
Proof. unfold sendScreenDuration. intros ->. reflexivity. Qed.

Lemma sendScreenDuration_ext now a b :
  currentScreenViewId a = currentScreenViewId b ->
  screenStartTime a = screenStartTime b ->
  storage a = storage b ->
  (sendScreenDuration config now a).2 = (sendScreenDuration config now b).2.
Proof.
  unfold sendScreenDuration. intros -> -> ->.
  destruct (live_view _); [|reflexivity].
  case_bool_decide; [reflexivity|].
  destruct (negb _); [reflexivity|].
  destruct (_ <? _); reflexivity.
Qed.

Lemma durations_sent (out : list delivery) :
  (forall d, d ∈ out -> exists view x, d = (duration_url config, PDuration view x)) ->
  durations (map Sent out) = length out.
Proof.
  unfold durations. induction out as [|d out IH]; intros H; [reflexivity|].
  destruct (H d) as (view & x & ->); [left|]. simpl. f_equal.
  apply IH. intros d' Hd'. apply H. right. exact Hd'.
Qed.

Lemma activations_sent (out : list delivery) : activations (map Sent out) = 0%nat.
Proof. unfold activations. induction out; simpl; auto. Qed.

(** The durations of one call of [sendScreenDuration], and of two calls
    in a row. *)
Lemma duration_once now this :
  (durations (map Sent (sendScreenDuration config now this).2) <= 1)%nat /\
  activations (map Sent (sendScreenDuration config now this).2) = 0%nat /\
  (currentScreenViewId this = None ->
   durations (map Sent (sendScreenDuration config now this).2) = 0%nat).
Proof.
  split; [|split; [apply activations_sent|]].
  - destruct (sendScreenDuration_cases now this) as [->|(v & d & -> & _)];
      simpl; unfold durations; simpl; lia.
  - intros Hn. rewrite (sendScreenDuration_idle _ _ Hn). reflexivity.
Qed.

Lemma duration_twice now1 now2 this this1 :
  currentScreenViewId this1 = currentScreenViewId (sendScreenDuration config now1 this).1 ->
  screenStartTime this1 = screenStartTime (sendScreenDuration config now1 this).1 ->
  storage this1 = storage this ->
  (durations (map Sent (sendScreenDuration config now1 this).2 ++
              map Sent (sendScreenDuration config now2 this1).2) <= 1)%nat /\
  (currentScreenViewId this = None ->
   durations (map Sent (sendScreenDuration config now1 this).2 ++
              map Sent (sendScreenDuration config now2 this1).2) = 0%nat).
Proof.
  intros Hv Hs Hst.
  pose proof (sendScreenDuration_keeps now1 this) as (Hst1 & _).
  rewrite (sendScreenDuration_ext now2 this1 (sendScreenDuration config now1 this).1)
    by (try assumption; congruence).
  destruct (sendScreenDuration_cases now1 this) as [E|(v & d & E & Hnone)].
  - rewrite E. simpl. split; [apply duration_once|].
    intros Hn. apply duration_once, Hn.
  - rewrite E, (sendScreenDuration_idle _ _ Hnone). simpl.
    split; [unfold durations; simpl; lia|].
    intros Hn. rewrite (sendScreenDuration_idle _ _ Hn) in E. discriminate.
Qed.

(** The tracked timer is the only key of the timer table. *)
Lemma clear_tracked this :
  timers_tracked this ->
  match screenDebounceTimer this with
  | Some h => delete h (timeouts this)
  | None => timeouts this
  end = ∅.
Proof.
  intros T. apply map_eq. intros h. rewrite lookup_empty.
  destruct (screenDebounceTimer this) as [h0|] eqn:E.
  - destruct (decide (h0 = h)) as [->|Hne]; [apply lookup_delete_eq|].
    rewrite lookup_delete_ne by exact Hne.
    destruct (timeouts this !! h) eqn:L; [|reflexivity].
    specialize (T h (ex_intro _ _ L)). congruence.
  - destruct (timeouts this !! h) eqn:L; [|reflexivity].
    specialize (T h (ex_intro _ _ L)). congruence.
Qed.

(** A call for a pair that is not the current screen, on a live client,
    replaces whatever timer was pending by one timer of its own. *)
Lemma trackScreen_new now fresh name path this :
  destroyed this = false ->
  ~ is_current name path this ->
  timers_tracked this ->
  exists this' delay,
    trackScreen config now fresh name path this =
      (this', (sendScreenDuration config now this).2) /\
    storage this' = storage this /\
    destroyed this' = false /\
    currentScreenName this' = currentScreenName this /\
    currentScreenPath this' = currentScreenPath this /\
    currentScreenViewId this' =
      currentScreenViewId (sendScreenDuration config now this).1 /\
    screenStartTime this' = screenStartTime (sendScreenDuration config now this).1 /\
    screenDebounceTimer this' = Some (next_handle this) /\
    next_handle this' = S (next_handle this) /\
    timeouts this' =
      {[ next_handle this :=
           (delay, {| act_name := name; act_path := effective_path name path;
                      act_screenViewId := fresh |}) ]}.
Proof.
  intros D Hnew T. unfold trackScreen. rewrite D.
  assert (bool_decide (currentScreenName this = Some name) &&
          bool_decide (currentScreenPath this = Some (effective_path name path))
          = false) as ->.
  { apply andb_false_iff. unfold is_current in Hnew.
    destruct (decide (currentScreenName this = Some name)) as [E|E].
    - right. apply bool_decide_eq_false_2. tauto.
    - left. apply bool_decide_eq_false_2. exact E. }
  pose proof (sendScreenDuration_keeps now this)
    as (Hst & Hd & Hn & Hp & Ht & Hf & Hto & Hnh).
  destruct (sendScreenDuration config now this) as [this1 out] eqn:E.
  simpl in *.
  assert (timers_tracked this1) as T1.
  { intros h. rewrite Hto, Ht. apply T. }
  rewrite (clear_tracked this1 T1), Hnh.
  do 2 eexists. split; [reflexivity|]. simpl.
  rewrite Hst, Hd, Hn, Hp. repeat split; try reflexivity. exact D.
Qed.

Lemma trackScreen_same now fresh name path this :
  is_current name path this ->
  trackScreen config now fresh name path this = (this, []).
Proof.
  intros (Hn & Hp). unfold trackScreen. destruct (destroyed this); [reflexivity|].
  rewrite !bool_decide_eq_true_2 by assumption. reflexivity.
Qed.

(** A pending timer that fires activates its screen, once. *)
Lemma timer_fires now fresh h delay a this w :
  timeouts this !! h = Some (delay, a) ->
  exists this' obs w',
    exec config now fresh (TimerFires h) this w = (Ok (this', obs), w') /\
    activations obs = 1%nat /\ durations obs = 0%nat /\
    currentScreenName this' = Some (act_name a) /\
    currentScreenPath this' = Some (act_path a) /\
    timeouts this' = delete h (timeouts this).
Proof.
  intros L. simpl. rewrite L. unfold activate. simpl.
  destruct (negb (Storage.isReady (storage this))).
  - do 3 eexists. split; [reflexivity|]. simpl. repeat split; reflexivity.
  - destruct (getSessionId_total (storage this) (sessionTimeout config) now fresh w)
      as (sid & st' & w' & E & _).
    unfold bind. rewrite E. simpl.
    do 3 eexists. split; [reflexivity|]. simpl. repeat split; reflexivity.
Qed.

Lemma timer_cancelled now fresh h this w :
  timeouts this !! h = None ->
  exec config now fresh (TimerFires h) this w = (Ok (this, []), w).
Proof. intros L. simpl. rewrite L. reflexivity. Qed.

Lemma activations_app a b : activations (a ++ b) = (activations a + activations b)%nat.
Proof. unfold activations. rewrite List.filter_app, length_app. reflexivity. Qed.

Lemma durations_app a b : durations (a ++ b) = (durations a + durations b)%nat.
Proof. unfold durations. rewrite List.filter_app, length_app. reflexivity. Qed.

Lemma exec_trackScreen now fresh name path this w this' out :
  trackScreen config now fresh name path this = (this', out) ->
  exec config now fresh (TrackScreen name path) this w =
  (Ok (this', map Sent out), w).
Proof. intros E. unfold exec. rewrite E. reflexivity. Qed.

Lemma run_cons_ok now fresh ev rest this w this1 obs1 w1 :
  exec config now fresh ev this w = (Ok (this1, obs1), w1) ->
  run config ((now, fresh, ev) :: rest) this w =
  match run config rest this1 w1 with
  | (Ok r2, w2) => (Ok (r2.1, obs1 ++ r2.2), w2)
  | (Rejected, w2) => (Rejected, w2)
  end.
Proof. intros E. simpl. unfold bind. rewrite E. simpl. reflexivity. Qed.

(** C8. The same screen twice.  Take a first call of [trackScreen] that
    sets its debounce timer (the client is not destroyed and the pair is
    not the current screen) and call [trackScreen] with the same pair a
    second time, with no other call between.  Whether the debounce timer
    of the first call fires before the second call, or the second call
    comes first and both timers are then given their turn, the screen is
    activated exactly once, at most one duration event is sent (for the
    screen shown before), none at all when no screen view was active, and
    no timer is left pending. *)
Theorem same_screen_twice (name : string) (path : option string) (this : t)
    (w : Sys) (t1 t2 t3 t4 : Z) (v1 v2 f1 f2 : string) :
  destroyed this = false ->
  ~ is_current name path this ->
  timers_tracked this ->
  (exists this' obs w',
     run config [(t1, v1, TrackScreen name path);
                 (t2, f1, TimerFires (next_handle this));
                 (t3, v2, TrackScreen name path)] this w = (Ok (this', obs), w') /\
     activations obs = 1%nat /\ (durations obs <= 1)%nat /\
     (currentScreenViewId this = None -> durations obs = 0%nat) /\
     timeouts this' = ∅) /\
  (exists this' obs w',
     run config [(t1, v1, TrackScreen name path);
                 (t2, v2, TrackScreen name path);
                 (t3, f1, TimerFires (next_handle this));
                 (t4, f2, TimerFires (S (next_handle this)))] this w =
       (Ok (this', obs), w') /\
     activations obs = 1%nat /\ (durations obs <= 1)%nat /\
     (currentScreenViewId this = None -> durations obs = 0%nat) /\
     timeouts this' = ∅).
Proof.
  intros D Hnew T.
  destruct (trackScreen_new t1 v1 name path this D Hnew T)
    as (s1 & delay1 & E1 & Hst1 & Hd1 & Hn1 & Hp1 & Hv1 & Hs1 & Ht1 & Hnh1 & Hto1).
  pose proof (exec_trackScreen t1 v1 name path this w _ _ E1) as X1.
  pose proof (duration_once t1 this) as (Dle & Dact & Dnone).
  split.
  - (* the timer of the first call fires before the second call *)
    destruct (timer_fires t2 f1 (next_handle this) delay1
                {| act_name := name; act_path := effective_path name path;
                   act_screenViewId := v1 |} s1 w) as
      (s2 & obs2 & w2 & X2 & A2 & Du2 & Hn2 & Hp2 & Hto2).
    { rewrite Hto1. apply lookup_singleton_eq. }
    assert (is_current name path s2) as Hcur by (split; assumption).
    pose proof (exec_trackScreen t3 v2 name path s2 w2 _ _
                  (trackScreen_same _ _ _ _ _ Hcur)) as X3.
    rewrite (run_cons_ok _ _ _ _ _ _ _ _ _ X1).
    rewrite (run_cons_ok _ _ _ _ _ _ _ _ _ X2).
    rewrite (run_cons_ok _ _ _ _ _ _ _ _ _ X3). simpl.
    do 3 eexists. split; [reflexivity|].
    rewrite !activations_app, !durations_app, A2, Du2, Dact.
    change (activations []) with 0%nat. change (durations []) with 0%nat.
    split; [lia|]. split; [lia|]. split.
    + intros Hnone. rewrite (Dnone Hnone). lia.
    + rewrite Hto2, Hto1. apply delete_singleton_eq.
  - (* the second call comes before the timer of the first *)
    assert (~ is_current name path s1) as Hnew1.
    { unfold is_current. rewrite Hn1, Hp1. exact Hnew. }
    assert (timers_tracked s1) as T1.
    { intros h (x & Hx). rewrite Hto1 in Hx.
      apply lookup_singleton_Some in Hx as (<- & _). exact Ht1. }
    destruct (trackScreen_new t2 v2 name path s1 Hd1 Hnew1 T1)
      as (s2 & delay2 & E2 & Hst2 & Hd2 & Hn2 & Hp2 & Hv2 & Hs2 & Ht2 & Hnh2 & Hto2).
    pose proof (exec_trackScreen t2 v2 name path s1 w _ _ E2) as X2.
    rewrite Hnh1 in Hto2.
    pose proof (timer_cancelled t3 f1 (next_handle this) s2 w) as X3.
    rewrite Hto2 in X3. specialize (X3 (lookup_singleton_ne _ _ _ (Nat.neq_succ_diag_l _))).
    destruct (timer_fires t4 f2 (S (next_handle this)) delay2
                {| act_name := name; act_path := effective_path name path;
                   act_screenViewId := v2 |} s2 w) as
      (s3 & obs3 & w3 & X4 & A3 & Du3 & _ & _ & Hto3).
    { rewrite Hto2. apply lookup_singleton_eq. }
    rewrite (run_cons_ok _ _ _ _ _ _ _ _ _ X1).
    rewrite (run_cons_ok _ _ _ _ _ _ _ _ _ X2).
    rewrite (run_cons_ok _ _ _ _ _ _ _ _ _ X3).
    rewrite (run_cons_ok _ _ _ _ _ _ _ _ _ X4). simpl.
    do 3 eexists. split; [reflexivity|].
    pose proof (duration_twice t1 t2 this s1 Hv1 Hs1 Hst1) as (D2le & D2none).
    rewrite !durations_app in D2le, D2none.
    rewrite !activations_app, !durations_app, A3, Du3, !activations_sent.
    change (activations []) with 0%nat. change (durations []) with 0%nat.
    split; [lia|]. split; [lia|]. split.
    + intros Hnone. specialize (D2none Hnone). lia.
    + rewrite Hto3, Hto2. apply delete_singleton_eq.
Qed.

(** The condition on the timers holds of a new client and is kept by
    every event. *)
Lemma timers_tracked_exec now fresh ev this w this' obs w' :
  timers_tracked this ->
  exec config now fresh ev this w = (Ok (this', obs), w') ->
  timers_tracked this'.
Proof.
  intros T E. destruct ev as [name path|h].
  - unfold exec in E.
    destruct (trackScreen config now fresh name path this) as [s1 out] eqn:E1.
    injection E as <- _ _.
    destruct (destroyed this) eqn:D.
    { unfold trackScreen in E1. rewrite D in E1. injection E1 as <- _. exact T. }
    destruct (decide (currentScreenName this = Some name /\
                      currentScreenPath this = Some (effective_path name path)))
      as [Hcur|Hnew].
    { rewrite (trackScreen_same now fresh name path this Hcur) in E1.
      injection E1 as <- _. exact T. }
    destruct (trackScreen_new now fresh name path this D Hnew T)
      as (s & delay & E' & _ & _ & _ & _ & _ & _ & Ht & _ & Hto).
    rewrite E' in E1. injection E1 as <- _.
    intros h (x & Hx). rewrite Hto in Hx.
    apply lookup_singleton_Some in Hx as (<- & _). exact Ht.
  - simpl in E. destruct (timeouts this !! h) as [[delay a]|] eqn:L.
    + unfold activate in E. simpl in E.
      destruct (negb (Storage.isReady (storage this))).
      * injection E as <- _ _. intros h' (x & Hx). simpl in *.
        apply T. exists x. apply lookup_delete_Some in Hx as (_ & Hx). exact Hx.
      * destruct (getSessionId_total (storage this) (sessionTimeout config) now
                    fresh w) as (sid & st' & w1 & E1 & _).
        unfold bind in E. rewrite E1 in E. simpl in E.
        injection E as <- _ _. intros h' (x & Hx). simpl in *.
        apply T. exists x. apply lookup_delete_Some in Hx as (_ & Hx). exact Hx.
    + injection E as <- _ _. exact T.
Qed.

End Screens.

Lemma timers_tracked_new : timers_tracked new_client.
Proof. intros h (x & Hx). simpl in Hx. rewrite lookup_empty in Hx. discriminate. Qed.

(** [trackScreen("Home")] twice on a new client: one activation, no
    duration event. *)
Lemma same_screen_twice_witness :
  (exists this' obs w',
     Client.run (sample_config 1000)
       [(0, "view-1", Client.TrackScreen "Home" None);
        (300, "s-new", Client.TimerFires 1);
        (400, "view-2", Client.TrackScreen "Home" None)] new_client fresh_world =
       (Ok (this', obs), w') /\
     activations obs = 1%nat /\ durations obs = 0%nat) /\
  (exists this' obs w',
     Client.run (sample_config 1000)
       [(0, "view-1", Client.TrackScreen "Home" None);
        (100, "view-2", Client.TrackScreen "Home" None);
        (300, "s-new", Client.TimerFires 1);
        (400, "s-new", Client.TimerFires 2)] new_client fresh_world =
       (Ok (this', obs), w') /\
     activations obs = 1%nat /\ durations obs = 0%nat).
Proof.
  destruct (same_screen_twice (sample_config 1000) "Home" None new_client
              fresh_world 0 300 400 400 "view-1" "view-2" "s-new" "s-new")
    as ((s & obs & w' & E & A & _ & Dn & _) & _).
  { reflexivity. }
  { intros [H _]. discriminate. }
  { exact timers_tracked_new. }
  destruct (same_screen_twice (sample_config 1000) "Home" None new_client
              fresh_world 0 100 300 400 "view-1" "view-2" "s-new" "s-new")
    as (_ & (s2 & obs2 & w2 & E2 & A2 & _ & Dn2 & _)).
  { reflexivity. }
  { intros [H _]. discriminate. }
  { exact timers_tracked_new. }
  split.
  - exists s, obs, w'. split; [exact E|]. split; [exact A|]. apply Dn. reflexivity.
  - exists s2, obs2, w2. split; [exact E2|]. split; [exact A2|]. apply Dn2. reflexivity.
Defined.


(** The two conditions of the statement above are needed: on a destroyed
    client, and for the screen that is already shown, both calls return at
    once, no timer is set, and the history has no activation. *)
Lemma same_screen_twice_none :
  activations
    (observed [(0, "view-1", Client.TrackScreen "Home" None);
               (100, "view-2", Client.TrackScreen "Home" None);
               (300, "s-new", Client.TimerFires 1);
               (400, "s-new", Client.TimerFires 2)] destroyed_client) = 0%nat /\
  activations
    (observed [(5000, "view-2", Client.TrackScreen "Home" None);
               (5100, "view-3", Client.TrackScreen "Home" None);
               (6000, "s-new", Client.TimerFires 1);
               (6100, "s-new", Client.TimerFires 2)] client_on_home) = 0%nat.
Proof. split; vm_compute; reflexivity. Qed.

(** * Further properties of the code *)

(** ** The fingerprint hash *)

Section Hash.

Import ErrorTracker.

Lemma to_int32_wraps (x : Z) : exists k, to_int32 x = x + k * 2 ^ 32.
Proof.
  unfold to_int32. exists (- ((x + 2 ^ 31) / 2 ^ 32)).
  pose proof (Z.div_mod (x + 2 ^ 31) (2 ^ 32)). lia.
Qed.

Lemma to_int32_same (a b k : Z) : a = b + k * 2 ^ 32 -> to_int32 a = to_int32 b.
Proof.
  intros ->. unfold to_int32. f_equal.
  replace (b + k * 2 ^ 32 + 2 ^ 31) with (b + 2 ^ 31 + k * 2 ^ 32) by lia.
  apply Z_mod_plus_full.
Qed.

Lemma to_int32_range (x : Z) : - 2 ^ 31 <= to_int32 x < 2 ^ 31.
Proof.
  unfold to_int32. pose proof (Z.mod_pos_bound (x + 2 ^ 31) (2 ^ 32)). lia.
Qed.

Lemma hash_loop_djb2 (str : string) : forall h H k,
  h = H + k * 2 ^ 32 -> - 2 ^ 31 <= h < 2 ^ 31 ->
  hash_loop h str = to_int32 (djb2 H str) /\
  - 2 ^ 31 <= hash_loop h str < 2 ^ 31.
Proof.
  induction str as [|c rest IH]; intros h H k E R; simpl.
  - split; [|exact R].
    unfold to_int32. rewrite E.
    replace (H + 2 ^ 31) with (h + 2 ^ 31 + (- k) * 2 ^ 32) by lia.
    rewrite Z_mod_plus_full, Z.mod_small; lia.
  - rewrite Z.shiftl_mul_pow2 by lia.
    destruct (to_int32_wraps (h * 2 ^ 5)) as (k1 & E1).
    destruct (to_int32_wraps (to_int32 (h * 2 ^ 5) + h + charCode c)) as (k2 & E2).
    apply (IH _ _ (k2 + k1 + 33 * k)); [|apply to_int32_range].
    rewrite E2, E1, E. lia.
Qed.

(** X1. [hashString] is the djb2 hash (start 5381, times 33 plus the code
    unit) brought into the signed 32-bit range: the wrap-around at every
    step of the loop changes nothing but the range. *)
Theorem hashString_djb2 (str : string) :
  hashString str = to_int32 (djb2 5381 str) /\
  - 2 ^ 31 <= hashString str < 2 ^ 31.
Proof.
  unfold hashString. apply (hash_loop_djb2 str 5381 5381 0); lia.
Qed.

End Hash.

(** ** Stack truncation *)

Section Stack.

Import ErrorTracker.

Lemma split_lines_cons (str : string) : exists l ls, split_lines str = l :: ls.
Proof.
  induction str as [|c rest (l & ls & E)]; simpl; [eauto|].
  case_bool_decide; [eauto|]. rewrite E. eauto.
Qed.

Lemma join_lines_cons (l l' : string) (ls : list string) :
  join_lines (l :: l' :: ls) = l +:+ String newline (join_lines (l' :: ls)).
Proof. reflexivity. Qed.

Lemma join_lines_push (c : ascii) (l : string) (ls : list string) :
  join_lines (String c l :: ls) = String c (join_lines (l :: ls)).
Proof. destruct ls; reflexivity. Qed.

Lemma join_split (str : string) : join_lines (split_lines str) = str.
Proof.
  induction str as [|c rest IH]; [reflexivity|]. simpl.
  destruct (split_lines_cons rest) as (l & ls & E). rewrite E in *.
  case_bool_decide as Hc.
  - rewrite join_lines_cons, IH, Hc. reflexivity.
  - rewrite join_lines_push, IH. reflexivity.
Qed.

Lemma split_lines_one_line (str : string) : Forall one_line (split_lines str).
Proof.
  induction str as [|c rest IH]; simpl; [repeat constructor|].
  case_bool_decide as Hc; [constructor; [exact I|exact IH]|].
  destruct (split_lines rest) as [|l ls]; [repeat constructor; exact Hc|].
  apply Forall_cons in IH as (Hl & Hls). constructor; [|exact Hls].
  split; assumption.
Qed.

Lemma split_one_line (l : string) (ls : list string) :
  one_line l ->
  split_lines (l +:+ String newline (join_lines ls)) =
  l :: split_lines (join_lines ls).
Proof.
  induction l as [|c l IH]; simpl.
  - intros _. reflexivity.
  - intros (Hc & Hl). rewrite bool_decide_eq_false_2 by exact Hc.
    rewrite (IH Hl). reflexivity.
Qed.

Lemma split_single (l : string) : one_line l -> split_lines l = [l].
Proof.
  induction l as [|c l IH]; simpl; [reflexivity|].
  intros (Hc & Hl). rewrite bool_decide_eq_false_2 by exact Hc.
  rewrite (IH Hl). reflexivity.
Qed.

Lemma split_join (ls : list string) :
  ls <> [] -> Forall one_line ls -> split_lines (join_lines ls) = ls.
Proof.
  induction ls as [|l ls IH]; [congruence|]. intros _ H.
  apply Forall_cons in H as (Hl & Hls).
  destruct ls as [|l' ls]; [apply split_single, Hl|].
  rewrite join_lines_cons, (split_one_line l (l' :: ls) Hl).
  f_equal. apply IH; [discriminate|exact Hls].
Qed.

Lemma append_String (c : ascii) (a b : string) :
  String c a +:+ b = String c (a +:+ b).
Proof. reflexivity. Qed.

Lemma append_assoc (a b c : string) : (a +:+ b) +:+ c = a +:+ (b +:+ c).
Proof.
  induction a as [|x a IH]; [reflexivity|].
  rewrite !append_String, IH. reflexivity.
Qed.

Lemma append_empty_r (a : string) : a +:+ EmptyString = a.
Proof.
  induction a as [|x a IH]; [reflexivity|]. rewrite append_String, IH. reflexivity.
Qed.

Lemma join_take_prefix (ls : list string) : forall n,
  exists rest, join_lines ls = join_lines (take n ls) +:+ rest.
Proof.
  induction ls as [|l ls IH]; intros n.
  - exists EmptyString. destruct n; reflexivity.
  - destruct n as [|n]; [exists (join_lines (l :: ls)); reflexivity|].
    destruct ls as [|l' ls].
    + exists EmptyString. cbn [take]. rewrite take_nil. cbn [join_lines].
      rewrite append_empty_r. reflexivity.
    + destruct (IH n) as (rest & E). cbn [take].
      destruct n as [|n].
      * exists (String newline (join_lines (l' :: ls))). reflexivity.
      * cbn [take] in E |- *. rewrite !join_lines_cons.
        exists rest. rewrite E.
        change (String newline (join_lines (l' :: take n ls) +:+ rest))
          with (String newline (join_lines (l' :: take n ls)) +:+ rest).
        rewrite append_assoc. reflexivity.
Qed.

Lemma take_split_lines (str : string) :
  split_lines (join_lines (take MAX_STACK_LINES (split_lines str))) =
  take MAX_STACK_LINES (split_lines str).
Proof.
  apply split_join.
  - destruct (split_lines_cons str) as (l & ls & ->). discriminate.
  - apply Forall_take, split_lines_one_line.
Qed.

(** X2. Splitting a string at its line breaks and joining the lines again
    gives the string back, so a stack of at most 20 lines is reported
    unchanged; the lines themselves hold no line break. *)
Theorem normalizeStack_short (str : string) :
  str <> EmptyString ->
  (length (split_lines str) <= MAX_STACK_LINES)%nat ->
  join_lines (split_lines str) = str /\
  Forall one_line (split_lines str) /\
  normalizeStack (Some str) = Some str.
Proof.
  intros Hne Hlen. split; [apply join_split|]. split; [apply split_lines_one_line|].
  unfold normalizeStack. rewrite bool_decide_eq_false_2 by exact Hne.
  rewrite take_ge by exact Hlen. rewrite join_split. reflexivity.
Qed.

(** X3. What [normalizeStack] returns has at most 20 lines, is the
    beginning of the stack it was given, and is left as it is by a second
    [normalizeStack]; it returns nothing exactly for a missing or empty
    stack. *)
Theorem normalizeStack_truncates (stack : option string) :
  (normalizeStack stack = None <->
   stack = None \/ stack = Some EmptyString) /\
  forall kept, normalizeStack stack = Some kept ->
    (length (split_lines kept) <= MAX_STACK_LINES)%nat /\
    (exists str rest, stack = Some str /\ str = kept +:+ rest) /\
    normalizeStack (Some kept) = Some kept.
Proof.
  split.
  - unfold normalizeStack. destruct stack as [str|]; [|tauto].
    case_bool_decide as E.
    + subst. tauto.
    + split; [discriminate|]. intros [?|[= ?]]; [discriminate|contradiction].
  - intros kept. unfold normalizeStack at 1. destruct stack as [str|]; [|discriminate].
    case_bool_decide as Hne; [discriminate|]. intros [= <-].
    pose proof (take_split_lines str) as Hsplit.
    split; [|split].
    + rewrite Hsplit, length_take. lia.
    + destruct (join_take_prefix (split_lines str) MAX_STACK_LINES) as (rest & E).
      exists str, rest. split; [reflexivity|]. rewrite <- E, join_split. reflexivity.
    + unfold normalizeStack. rewrite Hsplit, take_take, Nat.min_id.
      case_bool_decide as Hempty; [|reflexivity].
      exfalso. apply Hne.
      rewrite Hempty in Hsplit. simpl in Hsplit.
      assert (length (take MAX_STACK_LINES (split_lines str)) = 1%nat) as Hlen
        by (rewrite <- Hsplit; reflexivity).
      rewrite length_take in Hlen.
      rewrite take_ge in Hsplit by (unfold MAX_STACK_LINES in *; lia).
      rewrite <- (join_split str), <- Hsplit. reflexivity.
Qed.

End Stack.

(** ** The queue file under the storage operations *)

Section QueueFile.

Lemma writes_after_read k d w :
  writes (after_call (IoGetItem k) d w) = writes w.
Proof.
  unfold writes, after_call. simpl. rewrite List.filter_app, length_app. simpl. lia.
Qed.

Lemma writes_after_write k v d w :
  writes (after_call (IoSetItem k v) d w) = S (writes w).
Proof.
  unfold writes, after_call. simpl. rewrite List.filter_app, length_app. simpl. lia.
Qed.


Lemma read_fails_next w fs :
  faults w = true :: false :: fs -> next_fault w = (true, false :: fs).
Proof. unfold next_fault. intros ->. reflexivity. Qed.

(** X5. A read that rejects is taken for an empty queue.  If the read
    rejects and the write after it goes through, [enqueueEvent] leaves a
    queue holding the new event alone and [removeEvent] leaves the empty
    queue, whatever was queued before; [updateEvent] and [pruneQueue] then
    write nothing and leave the disk as it was. *)
Theorem rejected_read_empties_queue (event : QueuedEvent) (i : string)
    (maxSize : Z) (w : Sys) :
  read_fails_write_works w ->
  0 <= maxSize ->
  queue_of (Storage.enqueueEvent event w).2 = [event] /\
  queue_of (Storage.removeEvent i w).2 = [] /\
  disk (Storage.updateEvent event w).2 = disk w /\
  writes (Storage.updateEvent event w).2 = writes w /\
  disk (Storage.pruneQueue maxSize w).2 = disk w /\
  writes (Storage.pruneQueue maxSize w).2 = writes w.
Proof.
  intros (fs & Hf) Hm. pose proof (read_fails_next w fs Hf) as Hn.
  assert (next_fault (after_call (IoGetItem KEY_OFFLINE_QUEUE) (disk w) w)
          = (false, fs)) as Hn2.
  { unfold next_fault, after_call. simpl. rewrite Hn. reflexivity. }
  repeat split.
  - unfold Storage.enqueueEvent, bind. rewrite getQueue_eq, Hn. simpl.
    rewrite saveQueue_eq, Hn2. unfold queue_of, after_call. simpl.
    rewrite lookup_insert_eq. reflexivity.
  - unfold Storage.removeEvent, bind. rewrite getQueue_eq, Hn. simpl.
    rewrite saveQueue_eq, Hn2. unfold queue_of, after_call. simpl.
    rewrite lookup_insert_eq. reflexivity.
  - unfold Storage.updateEvent, bind. rewrite getQueue_eq, Hn. reflexivity.
  - unfold Storage.updateEvent, bind. rewrite getQueue_eq, Hn. simpl.
    apply writes_after_read.
  - unfold Storage.pruneQueue, bind. rewrite getQueue_eq, Hn. simpl.
    destruct (Z.gtb_spec (Z.of_nat 0) maxSize); [simpl in *; lia|]. reflexivity.
  - unfold Storage.pruneQueue, bind. rewrite getQueue_eq, Hn. simpl.
    destruct (Z.gtb_spec (Z.of_nat 0) maxSize); [simpl in *; lia|]. simpl.
    apply writes_after_read.
Qed.

Lemma queue_of_saved ev queue d w :
  queue_of (after_call ev (<[KEY_OFFLINE_QUEUE := Json queue]> d) w) = queue.
Proof. unfold queue_of, after_call. simpl. rewrite lookup_insert_eq. reflexivity. Qed.

Lemma findIndex_Some i queue idx :
  Storage.findIndex i queue = Some idx ->
  exists e, queue !! idx = Some e /\ id e = i.
Proof.
  unfold Storage.findIndex.
  destruct (list_find _ queue) as [[n e]|] eqn:F; [|discriminate].
  intros [= <-]. apply list_find_Some in F as (L & He & _). eauto.
Qed.

Lemma findIndex_first i queue idx :
  Storage.findIndex i queue = Some idx ->
  exists e, queue !! idx = Some e /\ id e = i /\
    forall j e', (j < idx)%nat -> queue !! j = Some e' -> id e' <> i.
Proof.
  unfold Storage.findIndex.
  destruct (list_find _ queue) as [[n e]|] eqn:F; [|discriminate].
  intros [= <-]. apply list_find_Some in F as (L & He & Hfirst).
  exists e. split; [exact L|]. split; [exact He|].
  intros j e' Hj Lj. exact (Hfirst j e' Lj Hj).
Qed.

Lemma findIndex_None i queue :
  Storage.findIndex i queue = None <-> i ∉ id <$> queue.
Proof.
  unfold Storage.findIndex.
  destruct (list_find _ queue) as [[n e]|] eqn:F; simpl.
  - split; [discriminate|]. intros Hnot. exfalso. apply Hnot.
    apply list_find_Some in F as (L & <- & _).
    apply list_elem_of_fmap_2. eapply list_elem_of_lookup_2, L.
  - split; [|reflexivity]. intros _ Hin.
    apply list_find_None in F. rewrite Forall_forall in F.
    apply list_elem_of_fmap in Hin as (e & -> & He). apply (F e He). reflexivity.
Qed.

Lemma filter_filter_id i (queue : list QueuedEvent) :
  filter (fun e => id e <> i) (filter (fun e => id e <> i) queue) =
  filter (fun e => id e <> i) queue.
Proof.
  induction queue as [|e queue IH]; [reflexivity|].
  destruct (decide (id e <> i)) as [H|H].
  - rewrite (filter_cons_True _ e queue) by exact H.
    rewrite filter_cons_True by exact H. f_equal. exact IH.
  - rewrite filter_cons_False by exact H. exact IH.
Qed.

(** X6. On a store that answers, [removeEvent] takes out every entry with
    the id and keeps the others in their order: removing twice is the same
    as removing once, and removing the id of an event that was just
    enqueued under a new id gives back the queue as it was before. *)
Theorem remove_undoes_enqueue (event : QueuedEvent) (i : string) (w : Sys) :
  healthy w ->
  queue_of (Storage.removeEvent i w).2 = filter (fun e => id e <> i) (queue_of w) /\
  queue_of (Storage.removeEvent i (Storage.removeEvent i w).2).2 =
    queue_of (Storage.removeEvent i w).2 /\
  (id event ∉ id <$> queue_of w ->
   queue_of (Storage.removeEvent (id event) (Storage.enqueueEvent event w).2).2 =
     queue_of w).
Proof.
  intros H.
  destruct (removeEvent_healthy i w H) as (w1 & E1 & H1 & Q1).
  destruct (removeEvent_healthy i w1 H1) as (w2 & E2 & H2 & Q2).
  destruct (enqueueEvent_healthy event w H) as (w3 & E3 & H3 & Q3).
  destruct (removeEvent_healthy (id event) w3 H3) as (w4 & E4 & H4 & Q4).
  rewrite E1. simpl. rewrite E2, E3. simpl. rewrite E4. simpl.
  split; [exact Q1|]. split.
  - rewrite Q2, Q1. apply filter_filter_id.
  - intros Hnew. rewrite Q4, Q3, filter_app, filter_absent by exact Hnew.
    rewrite filter_cons_False by (intros X; apply X; reflexivity).
    rewrite filter_nil, app_nil_r. reflexivity.
Qed.

(** X7. On a store that answers, [updateEvent] of an id that is not queued
    writes nothing at all; of an id that is queued it replaces the first
    entry with that id and nothing else, in one write, so the ids of the
    queue and their order stay the same. *)
Theorem update_keeps_ids (event : QueuedEvent) (w : Sys) :
  healthy w ->
  (id event ∉ id <$> queue_of w ->
   disk (Storage.updateEvent event w).2 = disk w /\
   writes (Storage.updateEvent event w).2 = writes w) /\
  (id event ∈ id <$> queue_of w ->
   exists idx old,
     queue_of w !! idx = Some old /\ id old = id event /\
     (forall j e, (j < idx)%nat -> queue_of w !! j = Some e -> id e <> id event) /\
     queue_of (Storage.updateEvent event w).2 = <[idx := event]> (queue_of w) /\
     id <$> queue_of (Storage.updateEvent event w).2 = id <$> queue_of w /\
     writes (Storage.updateEvent event w).2 = S (writes w)).
Proof.
  intros H. split.
  - intros Habs. apply findIndex_None in Habs.
    unfold Storage.updateEvent, bind. rewrite getQueue_eq.
    rewrite (healthy_next_fault _ H). simpl. rewrite Habs. simpl.
    split; [reflexivity|apply writes_after_read].
  - intros Hin.
    destruct (Storage.findIndex (id event) (queue_of w)) as [idx|] eqn:F.
    2:{ apply findIndex_None in F. contradiction. }
    destruct (findIndex_first _ _ _ F) as (old & L & He & Hfirst).
    exists idx, old. split; [exact L|]. split; [exact He|]. split; [exact Hfirst|].
    assert (Storage.updateEvent event w =
            (Ok tt,
             after_call
               (IoSetItem KEY_OFFLINE_QUEUE (Json (<[idx := event]> (queue_of w))))
               (<[KEY_OFFLINE_QUEUE := Json (<[idx := event]> (queue_of w))]> (disk w))
               (after_call (IoGetItem KEY_OFFLINE_QUEUE) (disk w) w))) as ->.
    { unfold Storage.updateEvent, bind. rewrite getQueue_eq.
      rewrite (healthy_next_fault _ H). simpl. rewrite F, saveQueue_eq.
      rewrite (healthy_next_fault _ (healthy_after_call _ _ _ H)). reflexivity. }
    cbn [snd]. rewrite queue_of_saved, writes_after_write, writes_after_read.
    split; [reflexivity|]. split; [|reflexivity].
    rewrite list_fmap_insert. apply list_insert_id.
    rewrite list_lookup_fmap, L. simpl. congruence.
Qed.

End QueueFile.

(** ** Pruning *)

Section Prune.

Lemma pruneQueue_eq (maxSize : Z) (w : Sys) :
  healthy w ->
  Storage.pruneQueue maxSize w =
  let w1 := after_call (IoGetItem KEY_OFFLINE_QUEUE) (disk w) w in
  if Z.of_nat (length (queue_of w)) >? maxSize then
    let kept := drop (Z.to_nat (Z.of_nat (length (queue_of w)) - maxSize)) (queue_of w) in
    (Ok tt, after_call (IoSetItem KEY_OFFLINE_QUEUE (Json kept))
              (<[KEY_OFFLINE_QUEUE := Json kept]> (disk w)) w1)
  else (Ok tt, w1).
Proof.
  intros H. unfold Storage.pruneQueue, bind. rewrite getQueue_eq.
  rewrite (healthy_next_fault _ H). cbn [fst].
  destruct (_ >? _); [|reflexivity].
  rewrite saveQueue_eq.
  rewrite (healthy_next_fault _ (healthy_after_call _ _ _ H)). reflexivity.
Qed.

Lemma queue_of_after_read k w :
  queue_of (after_call (IoGetItem k) (disk w) w) = queue_of w.
Proof. reflexivity. Qed.

Lemma newest_short {A} (n : nat) (l : list A) :
  (length l <= n)%nat -> newest n l = l.
Proof. intros H. unfold newest. replace (length l - n)%nat with 0%nat by lia. reflexivity. Qed.

Lemma pruneQueue_any (maxSize : Z) (w : Sys) :
  healthy w ->
  healthy (Storage.pruneQueue maxSize w).2 /\
  queue_of (Storage.pruneQueue maxSize w).2 = newest (Z.to_nat maxSize) (queue_of w).
Proof.
  intros H. rewrite (pruneQueue_eq _ _ H). cbv zeta.
  destruct (Z.gtb_spec (Z.of_nat (length (queue_of w))) maxSize) as [Hgt|Hle]; cbn [snd].
  - split; [apply healthy_after_call, healthy_after_call, H|].
    rewrite queue_of_saved. unfold newest.
    destruct (decide (0 <= maxSize)) as [Hm|Hm]; [f_equal; lia|].
    rewrite !drop_ge by lia. reflexivity.
  - split; [apply healthy_after_call, H|].
    rewrite queue_of_after_read, newest_short by lia. reflexivity.
Qed.

(** X8. On a store that answers, [pruneQueue] keeps the newest [maxSize]
    events in their order and drops the oldest; a limit of zero or less
    empties the queue.  With a limit that is not negative a second call
    finds nothing to do and writes nothing; with a negative limit every
    call rewrites the file, even when the queue is empty. *)
Theorem prune_keeps_newest (maxSize : Z) (w : Sys) :
  healthy w ->
  let w' := (Storage.pruneQueue maxSize w).2 in
  queue_of w' = newest (Z.to_nat maxSize) (queue_of w) /\
  Z.of_nat (length (queue_of w')) <= Z.max 0 maxSize /\
  (maxSize <= 0 -> queue_of w' = []) /\
  (0 <= maxSize -> writes (Storage.pruneQueue maxSize w').2 = writes w') /\
  (maxSize < 0 -> writes w' = S (writes w)).
Proof.
  intros H w'.
  destruct (pruneQueue_any maxSize w H) as (H' & Q). fold w' in H', Q.
  split; [exact Q|].
  assert (Z.of_nat (length (queue_of w')) <= Z.max 0 maxSize) as Hlen.
  { rewrite Q. unfold newest. rewrite length_drop. lia. }
  split; [exact Hlen|]. split; [|split].
  - intros Hm. destruct (queue_of w') as [|e q]; [reflexivity|]. simpl in Hlen. lia.
  - intros Hm. rewrite (pruneQueue_eq _ _ H'). cbv zeta.
    destruct (Z.gtb_spec (Z.of_nat (length (queue_of w'))) maxSize) as [Hgt|Hle]; [lia|].
    cbn [snd]. apply writes_after_read.
  - intros Hm. subst w'. rewrite (pruneQueue_eq _ _ H). cbv zeta.
    destruct (Z.gtb_spec (Z.of_nat (length (queue_of w))) maxSize) as [Hgt|Hle]; [|lia].
    cbn [snd]. rewrite writes_after_write, writes_after_read. reflexivity.
Qed.

End Prune.

(** ** What no interleaving of a flush can do *)

Section FlushInvariant.

Import Transport.

Variable config : ResolvedConfig.
Variable ids : list string.
Variable n : nat.

Lemma bounded_by_nil : bounded_by ids n [].
Proof. split; [constructor|simpl; lia]. Qed.

Lemma bounded_by_filter (P : QueuedEvent -> Prop) `{forall e, Decision (P e)} q :
  bounded_by ids n q -> bounded_by ids n (filter P q).
Proof.
  intros (F & L). split.
  - rewrite Forall_forall in *. intros e He.
    apply list_elem_of_filter in He as (_ & He). apply F, He.
  - pose proof (length_filter P q). lia.
Qed.

Lemma bounded_by_insert idx e q :
  known ids e -> bounded_by ids n q -> bounded_by ids n (<[idx := e]> q).
Proof.
  intros K (F & L). split.
  - apply Forall_insert; assumption.
  - rewrite length_insert. exact L.
Qed.

Lemma getQueue_bounded w :
  bounded_by ids n (queue_of w) ->
  exists q, Storage.getQueue w = (Ok q, after_call (IoGetItem KEY_OFFLINE_QUEUE) (disk w) w) /\
            bounded_by ids n q /\ (q = [] \/ q = queue_of w).
Proof.
  intros B. rewrite getQueue_eq. eexists. split; [reflexivity|].
  destruct (next_fault w).1; [split; [apply bounded_by_nil|left; reflexivity]|].
  split; [exact B|right; reflexivity].
Qed.

Lemma saveQueue_bounded q w :
  bounded_by ids n (queue_of w) -> bounded_by ids n q ->
  bounded_by ids n (queue_of (Storage.saveQueue q w).2).
Proof.
  intros B Bq. rewrite saveQueue_eq. cbn [snd].
  destruct (next_fault w).1; [exact B|].
  rewrite queue_of_saved. exact Bq.
Qed.

Lemma after_send_known e ok :
  known ids e -> handler_known ids n (after_send e ok).
Proof.
  intros (Hid & Hrc). unfold after_send.
  destruct ok; [exact I|].
  destruct (Z.ltb_spec (retryCount e) 3); [|exact I].
  split; simpl; [exact Hid|lia].
Qed.

Lemma batch_known m q :
  Forall (known ids) q ->
  Forall (handler_known ids n) (map AwaitSend (take m q)).
Proof.
  intros F. revert m. induction F as [|e q K F IH]; intros [|m]; simpl; constructor.
  - exact K.
  - apply IH.
Qed.

Lemma resume_inv r h w h' w' :
  bounded_by ids n (queue_of w) -> handler_known ids n h ->
  resume r h w = Some (h', w') ->
  bounded_by ids n (queue_of w') /\ handler_known ids n h'.
Proof.
  intros B K.
  destruct r as [ok| |], h as [e|i|e|q|]; simpl; try discriminate.
  - intros [= <- <-]. split; [exact B|apply after_send_known, K].
  - destruct (getQueue_bounded w B) as (q & -> & Bq & _).
    intros [= <- <-]. split; [exact B|]. simpl. apply bounded_by_filter, Bq.
  - destruct (getQueue_bounded w B) as (q & -> & Bq & _).
    destruct (Storage.findIndex (id e) q); intros [= <- <-];
      (split; [exact B|]); simpl; [|exact I].
    apply bounded_by_insert; assumption.
  - intros [= <- <-]. split; [|exact I]. apply saveQueue_bounded; assumption.
Qed.

Lemma flush_inv_step a s s' :
  flush_inv ids n s -> step config a s = Some s' -> flush_inv ids n s'.
Proof.
  intros (B & T). destruct a as [|i|i j r|i]; simpl.
  - destruct (flushing s); intros [= <-]; [split; assumption|].
    split; [exact B|]. simpl. apply Forall_app. split; [exact T|].
    constructor; [exact I|constructor].
  - destruct (tasks s !! i) as [[| |]|] eqn:L; try discriminate.
    destruct (getQueue_bounded (world s) B) as (q & -> & Bq & _).
    destruct q as [|e q]; intros [= <-]; split; simpl; try exact B.
    + apply Forall_insert; [exact T|exact I].
    + apply Forall_insert; [exact T|]. simpl.
      destruct Bq as (F & _). exact (batch_known 50 _ F).
  - destruct (tasks s !! i) as [[|hs|]|] eqn:L; try discriminate.
    destruct (hs !! j) as [h|] eqn:Lj; [|discriminate]. simpl.
    destruct (resume r h (world s)) as [[h' w']|] eqn:R; [|discriminate]. simpl.
    intros [= <-]. simpl.
    assert (Forall (handler_known ids n) hs) as Hhs.
    { rewrite Forall_lookup in T. exact (T i _ L). }
    assert (handler_known ids n h) as Hh.
    { rewrite Forall_lookup in Hhs. exact (Hhs j _ Lj). }
    destruct (resume_inv _ _ _ _ _ B Hh R) as (B' & Hh').
    split; [exact B'|]. simpl. apply Forall_insert; [exact T|].
    simpl. apply Forall_insert; assumption.
  - destruct (tasks s !! i) as [[|hs|]|] eqn:L; try discriminate.
    destruct (all_settled hs); [|discriminate]. intros [= <-].
    split; [exact B|]. simpl. apply Forall_insert; [exact T|exact I].
Qed.

Lemma flush_inv_run sched : forall s s',
  flush_inv ids n s -> run config sched s = Some s' -> flush_inv ids n s'.
Proof.
  induction sched as [|a sched IH]; intros s s' Hs; simpl.
  - intros [= <-]. exact Hs.
  - destruct (step config a s) as [s1|] eqn:E; [|discriminate]. simpl.
    apply IH. eapply flush_inv_step; eassumption.
Qed.

End FlushInvariant.

(** X9. Whatever the order in which the awaits of a flush and of its
    callbacks settle, however many calls of [flush] are made and whichever
    of the storage calls reject: the queue file never gains an event.
    Every event in it has the id of an event that was queued at the start,
    the file is never longer than it was, and no retry count exceeds 3
    when none did at the start. *)
Theorem flush_adds_nothing (config : ResolvedConfig)
    (sched : list Transport.action) (w : Sys) (s : Transport.t) :
  Forall (fun e => retryCount e <= 3) (queue_of w) ->
  Transport.run config sched (Transport.init w) = Some s ->
  Forall (fun e => id e ∈ id <$> queue_of w /\ retryCount e <= 3)
    (queue_of (Transport.world s)) /\
  (length (queue_of (Transport.world s)) <= length (queue_of w))%nat.
Proof.
  intros Hrc Hrun.
  assert (flush_inv (id <$> queue_of w) (length (queue_of w)) (Transport.init w)) as I0.
  { split; [|constructor]. simpl. split; [|lia].
    rewrite Forall_forall in *. intros e He. split; [|apply Hrc, He].
    apply list_elem_of_fmap_2, He. }
  destruct (flush_inv_run config _ _ sched _ _ I0 Hrun) as ((F & L) & _).
  split; [exact F|exact L].
Qed.

(** ** A flush whose callbacks take turns *)

Section SerialFlush.

Import Transport.

Variable config : ResolvedConfig.
Variable outcome : QueuedEvent -> bool.

Lemma resume_turn (done rest : list QueuedEvent) (e : QueuedEvent) (ok : bool)
    (w : Sys) :
  healthy w ->
  queue_of w = done ++ e :: rest ->
  NoDup (id <$> (done ++ e :: rest)) ->
  exists w',
    resume_all [SendSettled ok; ReadSettled; SaveSettled] (AwaitSend e) w
      = Some (Settled, w') /\
    healthy w' /\
    queue_of w' = done ++ option_list (retire e ok) ++ rest.
Proof.
  intros H Q N.
  assert (filter (fun x => id x <> id e) (queue_of w) = done ++ rest) as Hrm.
  { rewrite Q. apply filter_own_id, N. }
  assert (Storage.findIndex (id e) (queue_of w) = Some (length done)) as Hidx.
  { rewrite Q. apply findIndex_own_id.
    rewrite fmap_app, fmap_cons in N. apply NoDup_app in N as (_ & Hd & _).
    intros Hin. apply (Hd _ Hin). left. }
  pose proof (healthy_after_call (IoGetItem KEY_OFFLINE_QUEUE) (disk w) w H) as H1.
  assert (forall q,
    exists w', Storage.saveQueue q (after_call (IoGetItem KEY_OFFLINE_QUEUE) (disk w) w)
               = (Ok tt, w') /\ healthy w' /\ queue_of w' = q) as Hsave.
  { intros q. apply saveQueue_healthy, H1. }
  unfold retire, after_send. cbn [resume_all resume]. unfold after_send.
  destruct ok; [|destruct (retryCount e <? 3)]; cbn [resume_all resume].
  - rewrite getQueue_eq, (healthy_next_fault _ H). cbn [fst resume_all resume].
    destruct (Hsave (filter (fun x => id x <> id e) (queue_of w))) as (w' & -> & H' & Q').
    exists w'. cbn [snd]. rewrite Q', Hrm. auto.
  - rewrite getQueue_eq, (healthy_next_fault _ H). cbn [fst id].
    rewrite Hidx. cbn [resume_all resume].
    match goal with |- context [Storage.saveQueue ?q _] =>
      destruct (Hsave q) as (w' & -> & H' & Q') end.
    exists w'. cbn [snd]. rewrite Q', Q, insert_own_place. auto.
  - rewrite getQueue_eq, (healthy_next_fault _ H). cbn [fst resume_all resume].
    destruct (Hsave (filter (fun x => id x <> id e) (queue_of w))) as (w' & -> & H' & Q').
    exists w'. cbn [snd]. rewrite Q', Hrm. auto.
Qed.

(** The resumptions of one callback as steps of the machine. *)
Lemma run_resume_all i j rs : forall s hs h h' w',
  tasks s !! i = Some (AwaitAllSettled hs) ->
  hs !! j = Some h ->
  resume_all rs h (world s) = Some (h', w') ->
  exists s', run config (map (Resume i j) rs) s = Some s' /\
             world s' = w' /\ flushing s' = flushing s /\
             tasks s' = <[i := AwaitAllSettled (<[j := h']> hs)]> (tasks s).
Proof.
  induction rs as [|r rs IH]; intros s hs h h' w' L Lj R; simpl in *.
  - injection R as <- <-. exists s. repeat split.
    rewrite (list_insert_id hs j h Lj). symmetry. apply list_insert_id, L.
  - destruct (resume r h (world s)) as [[h1 w1]|] eqn:R1; [|discriminate].
    rewrite L. simpl. rewrite Lj. simpl. rewrite R1. simpl.
    edestruct (IH {| world := w1; flushing := flushing s;
                     tasks := <[i := AwaitAllSettled (<[j := h1]> hs)]> (tasks s) |})
      as (s' & E & Hw & Hf & Ht).
    + simpl. apply list_lookup_insert_eq. eapply lookup_lt_Some, L.
    + apply list_lookup_insert_eq. eapply lookup_lt_Some, Lj.
    + simpl. exact R.
    + exists s'. split; [exact E|]. split; [exact Hw|]. split; [exact Hf|].
      rewrite Ht. simpl. rewrite list_insert_insert_eq, list_insert_insert_eq.
      reflexivity.
Qed.

Lemma callbacks_in_turn_ok i batch : forall pre done rest s,
  tasks s !! i = Some (AwaitAllSettled (pre ++ map AwaitSend batch)) ->
  healthy (world s) ->
  queue_of (world s) = done ++ batch ++ rest ->
  NoDup (id <$> (done ++ batch ++ rest)) ->
  exists s',
    run config (callbacks_in_turn outcome i (length pre) batch) s = Some s' /\
    tasks s' = <[i := AwaitAllSettled (pre ++ map (fun _ => Settled) batch)]> (tasks s) /\
    flushing s' = flushing s /\ healthy (world s') /\
    queue_of (world s') =
      done ++ omap (fun e => retire e (outcome e)) batch ++ rest.
Proof.
  induction batch as [|e batch IH]; intros pre done rest s L H Q N.
  - exists s. simpl. split; [reflexivity|]. split; [|auto].
    symmetry. apply list_insert_id, L.
  - destruct (resume_turn done (batch ++ rest) e (outcome e) (world s) H Q N)
      as (w1 & R & H1 & Q1).
    assert ((pre ++ map AwaitSend (e :: batch)) !! length pre = Some (AwaitSend e)) as Lj.
    { rewrite lookup_app_r by lia. rewrite Nat.sub_diag. reflexivity. }
    destruct (run_resume_all i (length pre) _ s _ _ _ _ L Lj R)
      as (s1 & E1 & Hw1 & Hf1 & Ht1).
    assert (<[length pre := Settled]> (pre ++ map AwaitSend (e :: batch))
            = (pre ++ [Settled]) ++ map AwaitSend batch) as Hhs.
    { simpl. rewrite insert_own_place, <- app_assoc. reflexivity. }
    rewrite Hhs in Ht1.
    destruct (IH (pre ++ [Settled]) (done ++ option_list (retire e (outcome e))) rest s1)
      as (s2 & E2 & Ht2 & Hf2 & H2 & Q2).
    + rewrite Ht1. apply list_lookup_insert_eq. eapply lookup_lt_Some, L.
    + rewrite Hw1. exact H1.
    + rewrite Hw1, Q1, <- app_assoc. reflexivity.
    + exact (NoDup_ids_retire done e (outcome e) (batch ++ rest) N).
    + exists s2. split.
      * change (callbacks_in_turn outcome i (length pre) (e :: batch))
          with (callback_turn i (length pre) (outcome e) ++
                callbacks_in_turn outcome i (S (length pre)) batch).
        eapply run_app; [exact E1|].
        rewrite length_app, Nat.add_1_r in E2. exact E2.
      * split.
        { rewrite Ht2, Ht1, list_insert_insert_eq. simpl.
          rewrite <- app_assoc. reflexivity. }
        split; [congruence|]. split; [exact H2|].
        rewrite Q2, <- app_assoc. simpl.
        destruct (retire e (outcome e)); reflexivity.
Qed.

Lemma all_settled_map {A} (l : list A) :
  all_settled (map (fun _ => Settled) l) = true.
Proof. induction l; [reflexivity|exact IHl]. Qed.

Lemma fetches_after_call ev d w :
  is_fetch ev = false -> fetches (after_call ev d w) = fetches w.
Proof.
  intros E. unfold fetches, after_call. simpl.
  rewrite List.filter_app, length_app. simpl. rewrite E. simpl. lia.
Qed.

Lemma fetches_issue_sends batch w :
  fetches (issue_sends config batch w) = (fetches w + length batch)%nat.
Proof.
  unfold fetches, issue_sends. simpl. rewrite List.filter_app, length_app.
  f_equal. induction batch as [|e batch IH]; [reflexivity|]. simpl. f_equal. exact IH.
Qed.

Lemma resume_fetches r h w h' w' :
  resume r h w = Some (h', w') -> fetches w' = fetches w.
Proof.
  destruct r as [ok| |], h as [e|i|e|q|]; simpl; try discriminate.
  - intros [= _ <-]. reflexivity.
  - rewrite getQueue_eq. intros [= _ <-]. apply fetches_after_call. reflexivity.
  - rewrite getQueue_eq. destruct (Storage.findIndex _ _); intros [= _ <-];
      apply fetches_after_call; reflexivity.
  - rewrite saveQueue_eq. intros [= _ <-]. apply fetches_after_call. reflexivity.
Qed.

Lemma callbacks_fetches i batch : forall j s s',
  run config (callbacks_in_turn outcome i j batch) s = Some s' ->
  fetches (world s') = fetches (world s).
Proof.
  assert (forall j r s s', step config (Resume i j r) s = Some s' ->
                           fetches (world s') = fetches (world s)) as Hstep.
  { intros j r s s'. simpl.
    destruct (tasks s !! i) as [[|hs|]|]; try discriminate.
    destruct (hs !! j) as [h|]; [|discriminate]. simpl.
    destruct (resume r h (world s)) as [[h' w']|] eqn:R; [|discriminate].
    intros [= <-]. simpl. eapply resume_fetches, R. }
  induction batch as [|e batch IH]; intros j s s'.
  - intros [= <-]. reflexivity.
  - change (callbacks_in_turn outcome i j (e :: batch))
      with (Resume i j (SendSettled (outcome e)) :: Resume i j ReadSettled ::
            Resume i j SaveSettled :: callbacks_in_turn outcome i (S j) batch).
    cbn [run].
    destruct (step config (Resume i j (SendSettled (outcome e))) s) as [s1|] eqn:E1;
      [|discriminate]. cbn [mbind option_bind].
    destruct (step config (Resume i j ReadSettled) s1) as [s2|] eqn:E2;
      [|discriminate]. cbn [mbind option_bind].
    destruct (step config (Resume i j SaveSettled) s2) as [s3|] eqn:E3;
      [|discriminate]. cbn [mbind option_bind].
    intros E. rewrite (IH _ _ _ E), (Hstep _ _ _ _ E3), (Hstep _ _ _ _ E2).
    apply (Hstep _ _ _ _ E1).
Qed.

End SerialFlush.

Lemma serial_flush_run (config : ResolvedConfig)
    (outcome : QueuedEvent -> bool) (s : Transport.t) :
  Transport.flushing s = false ->
  healthy (Transport.world s) ->
  NoDup (id <$> queue_of (Transport.world s)) ->
  exists s',
    Transport.run config
      (serial_flush outcome (length (Transport.tasks s))
         (queue_of (Transport.world s))) s = Some s' /\
    Transport.flushing s' = false /\
    Transport.tasks s' = Transport.tasks s ++ [Transport.Returned] /\
    healthy (Transport.world s') /\
    queue_of (Transport.world s') =
      omap (fun e => retire e (outcome e)) (take 50 (queue_of (Transport.world s)))
      ++ drop 50 (queue_of (Transport.world s)) /\
    fetches (Transport.world s') =
      (fetches (Transport.world s) +
       length (take 50 (queue_of (Transport.world s))))%nat.
Proof.
  intros Hf H N.
  set (i := length (Transport.tasks s)).
  assert (Transport.step config Transport.CallFlush s =
          Some {| Transport.world := Transport.world s; Transport.flushing := true;
                  Transport.tasks := Transport.tasks s ++ [Transport.AwaitQueue] |}) as E0.
  { simpl. rewrite Hf. reflexivity. }
  assert ((Transport.tasks s ++ [Transport.AwaitQueue]) !! i = Some Transport.AwaitQueue) as Li.
  { rewrite lookup_app_r by (unfold i; lia). unfold i. rewrite Nat.sub_diag. reflexivity. }
  assert (forall k, <[i := k]> (Transport.tasks s ++ [Transport.AwaitQueue])
                    = Transport.tasks s ++ [k]) as Hins.
  { intros k. unfold i. apply insert_own_place. }
  pose proof (healthy_after_call (IoGetItem KEY_OFFLINE_QUEUE)
                (disk (Transport.world s)) _ H) as H1.
  destruct (queue_of (Transport.world s)) as [|e q'] eqn:Eq.
  - eexists. split.
    + unfold serial_flush. rewrite (run_cons _ _ _ _ _ E0).
      simpl. rewrite Li, getQueue_eq, (healthy_next_fault _ H). simpl.
      rewrite Eq. reflexivity.
    + simpl. rewrite Hins. split; [reflexivity|]. split; [reflexivity|].
      split; [exact H1|]. rewrite queue_of_after_read. split; [exact Eq|].
      rewrite fetches_after_call by reflexivity. simpl. lia.
  - set (q := e :: q') in *.
    set (w1 := Transport.issue_sends config (take 50 q)
                 (after_call (IoGetItem KEY_OFFLINE_QUEUE)
                    (disk (Transport.world s)) (Transport.world s))).
    set (s1 := {| Transport.world := w1; Transport.flushing := true;
                  Transport.tasks :=
                    Transport.tasks s ++
                    [Transport.AwaitAllSettled (map Transport.AwaitSend (take 50 q))] |}).
    assert (Transport.run config [Transport.CallFlush; Transport.QueueRead i] s = Some s1) as E1.
    { rewrite (run_cons _ _ _ _ _ E0). simpl.
      rewrite Li, getQueue_eq, (healthy_next_fault _ H). simpl.
      rewrite Eq. unfold q. rewrite Hins. reflexivity. }
    destruct (callbacks_in_turn_ok config outcome i (take 50 q) [] [] (drop 50 q) s1)
      as (s2 & E2 & Ht2 & Hf2 & H2 & Q2).
    + simpl. rewrite lookup_app_r by (unfold i; lia). unfold i.
      rewrite Nat.sub_diag. reflexivity.
    + exact H1.
    + cbn [app]. rewrite take_drop. exact Eq.
    + cbn [app]. rewrite take_drop. exact N.
    + cbn [app length] in E2, Ht2, Q2.
      exists {| Transport.world := Transport.world s2; Transport.flushing := false;
                Transport.tasks := Transport.tasks s ++ [Transport.Returned] |}.
      split.
      2:{ cbn. split; [reflexivity|]. split; [reflexivity|]. split; [exact H2|].
          split; [exact Q2|].
          rewrite (callbacks_fetches config outcome _ _ _ _ _ E2). unfold s1, w1.
          cbn [Transport.world]. rewrite fetches_issue_sends.
          rewrite fetches_after_call by reflexivity. reflexivity. }
      assert (serial_flush outcome i q =
              [Transport.CallFlush; Transport.QueueRead i] ++
              callbacks_in_turn outcome i 0 (take 50 q) ++ [Transport.AllSettled i]) as ->.
      { reflexivity. }
      eapply run_app; [exact E1|]. eapply run_app; [exact E2|].
      cbn [Transport.run Transport.step]. rewrite Ht2. cbn [Transport.tasks s1].
      unfold i at 1 2. rewrite insert_own_place.
      rewrite lookup_app_r by lia. unfold i. rewrite Nat.sub_diag. cbn [lookup list_lookup].
      rewrite all_settled_map. cbn. do 2 f_equal.
      rewrite ?list_insert_insert_eq. apply insert_own_place.
Qed.

(** X10. On a store that answers and a queue without repeated ids, a call
    of [flush] whose callbacks take their turns one after the other runs to
    its end and applies the retry rule to each event of the batch, in
    place: a delivered event and one that failed with three retries behind
    it are taken out, one that failed with fewer stays where it was with
    one more retry counted; the events after the first 50 are not touched,
    each event of the batch is POSTed once, and the flag is cleared. *)
Theorem serial_flush_retires (config : ResolvedConfig)
    (outcome : QueuedEvent -> bool) (s : Transport.t) :
  Transport.flushing s = false ->
  healthy (Transport.world s) ->
  NoDup (id <$> queue_of (Transport.world s)) ->
  exists s',
    Transport.run config
      (serial_flush outcome (length (Transport.tasks s))
         (queue_of (Transport.world s))) s = Some s' /\
    Transport.flushing s' = false /\
    Transport.tasks s' = Transport.tasks s ++ [Transport.Returned] /\
    healthy (Transport.world s') /\
    queue_of (Transport.world s') =
      omap (fun e => retire e (outcome e)) (take 50 (queue_of (Transport.world s)))
      ++ drop 50 (queue_of (Transport.world s)) /\
    fetches (Transport.world s') =
      (fetches (Transport.world s) +
       length (take 50 (queue_of (Transport.world s))))%nat.
Proof. apply serial_flush_run. Qed.

(** ** Flushes while the network is down *)

Section FailedFlushes.

Import Transport.

Variable config : ResolvedConfig.

Lemma omap_whole {A} (f : A -> option A) (q : list A) :
  (length q <= 50)%nat -> omap f (take 50 q) ++ drop 50 q = omap f q /\ take 50 q = q.
Proof.
  intros L. rewrite take_ge, drop_ge by lia. rewrite app_nil_r. auto.
Qed.

Lemma omap_cons_eq {A B} (f : A -> option B) (x : A) (l : list A) :
  omap f (x :: l) = match f x with Some y => y :: omap f l | None => omap f l end.
Proof. reflexivity. Qed.

Lemma omap_retire_props (q : list QueuedEvent) :
  NoDup (id <$> q) ->
  Forall (fun e => 0 <= retryCount e <= 3) q ->
  let q' := omap (fun e => retire e false) q in
  NoDup (id <$> q') /\ (length q' <= length q)%nat /\
  Forall (fun e => 0 <= retryCount e <= 3) q'.
Proof.
  intros N F. cbv zeta. induction F as [|e q He F IH]; cbn [omap list_omap].
  - split; [constructor|]. split; [simpl; lia|constructor].
  - rewrite fmap_cons in N. apply NoDup_cons in N as (Hn & N).
    destruct (IH N) as (N' & L' & F').
    destruct (retire e false) as [e1|] eqn:R1.
    + assert (id e1 = id e /\ 0 <= retryCount e1 <= 3) as (Hid & Hrc).
      { unfold retire in R1. destruct (Z.ltb_spec (retryCount e) 3); [|discriminate].
        injection R1 as <-. simpl. split; [reflexivity|lia]. }
      cbn [fmap list_fmap length]. split; [|split; [lia|]].
      * constructor; [|exact N']. rewrite Hid. intros Hin. apply Hn.
        apply list_elem_of_fmap in Hin as (e' & -> & Hin).
        apply list_elem_of_omap in Hin as (e0 & Hin & R).
        rewrite (retire_id _ _ _ R). apply list_elem_of_fmap_2, Hin.
      * constructor; [exact Hrc|exact F'].
    + cbn [length]. split; [exact N'|]. split; [lia|exact F'].
Qed.

Lemma after_failures_retire n (q : list QueuedEvent) :
  omap (after_failures n) (omap (fun e => retire e false) q) =
  omap (after_failures (S n)) q.
Proof.
  induction q as [|e q IH]; [reflexivity|].
  rewrite (omap_cons_eq (after_failures (S n))), (omap_cons_eq (fun e => retire e false)).
  assert (retire e false ≫= after_failures n = after_failures (S n) e) as Hone.
  { unfold retire, after_failures.
    destruct (Z.ltb_spec (retryCount e) 3); simpl.
    - destruct (Z.leb_spec (retryCount e + 1 + Z.of_nat n) 3);
        destruct (Z.leb_spec (retryCount e + Z.of_nat (S n)) 3); try lia;
        [|reflexivity].
      do 2 f_equal. lia.
    - destruct (Z.leb_spec (retryCount e + Z.of_nat (S n)) 3); [lia|]. reflexivity. }
  rewrite <- Hone. destruct (retire e false) as [e1|].
  - rewrite omap_cons_eq. cbn [mbind option_bind]. rewrite IH. reflexivity.
  - exact IH.
Qed.

Lemma after_failures_none (q : list QueuedEvent) :
  Forall (fun e => 0 <= retryCount e <= 3) q ->
  omap (after_failures 0) q = q.
Proof.
  induction 1 as [|e q He F IH]; [reflexivity|]. rewrite omap_cons_eq, IH.
  unfold after_failures.
  destruct (Z.leb_spec (retryCount e + Z.of_nat 0) 3); [|simpl in *; lia].
  f_equal. destruct e. simpl. f_equal. lia.
Qed.

Lemma posts_retire n (q : list QueuedEvent) :
  Forall (fun e => 0 <= retryCount e <= 3) q ->
  sum_list_with (fun e => (S n `min` Z.to_nat (4 - retryCount e))%nat) q =
  (length q +
   sum_list_with (fun e => (n `min` Z.to_nat (4 - retryCount e))%nat)
     (omap (fun e => retire e false) q))%nat.
Proof.
  induction 1 as [|e q He F IH]; [reflexivity|].
  rewrite omap_cons_eq. cbn [sum_list_with length]. rewrite IH.
  destruct (retire e false) as [e1|] eqn:R; unfold retire in R;
    destruct (Z.ltb_spec (retryCount e) 3); try discriminate.
  - injection R as <-. cbn [sum_list_with retried retryCount]. lia.
  - lia.
Qed.

End FailedFlushes.

(** X11. While the network stays down every flush posts each queued event
    once more.  On a store that answers, for a queue of at most 50 events
    with distinct ids and retry counts from 0 to 3, after [n] flushes an
    event with retry count [r] is still queued, with count [r + n], when
    [r + n <= 3] and is gone otherwise; the POSTs made are [n] for each
    event, but no more than [4 - r].  After four flushes the queue is
    empty. *)
Theorem failed_flushes_discard (config : ResolvedConfig) (n : nat)
    (s : Transport.t) :
  Transport.flushing s = false ->
  healthy (Transport.world s) ->
  NoDup (id <$> queue_of (Transport.world s)) ->
  (length (queue_of (Transport.world s)) <= 50)%nat ->
  Forall (fun e => 0 <= retryCount e <= 3) (queue_of (Transport.world s)) ->
  exists s',
    failed_flushes config n s = Some s' /\
    Transport.flushing s' = false /\
    queue_of (Transport.world s') =
      omap (after_failures n) (queue_of (Transport.world s)) /\
    fetches (Transport.world s') =
      (fetches (Transport.world s) +
       sum_list_with (fun e => (n `min` Z.to_nat (4 - retryCount e))%nat)
         (queue_of (Transport.world s)))%nat /\
    ((4 <= n)%nat -> queue_of (Transport.world s') = []).
Proof.
  revert s. induction n as [|n IH]; intros s Hf H N L F.
  - exists s. split; [reflexivity|]. split; [exact Hf|].
    rewrite after_failures_none by exact F. split; [reflexivity|].
    split; [|lia].
    assert (forall q : list QueuedEvent,
      sum_list_with (fun e => (0 `min` Z.to_nat (4 - retryCount e))%nat) q = 0%nat) as ->.
    { induction q as [|e q IHq]; [reflexivity|]. cbn [sum_list_with]. rewrite IHq. lia. }
    lia.
  - destruct (serial_flush_run config (fun _ => false) s Hf H N)
      as (s1 & E1 & Hf1 & _ & H1 & Q1 & P1).
    destruct (omap_whole (fun e => retire e false) _ L) as (Hq & Ht).
    rewrite Hq in Q1. rewrite Ht in P1.
    destruct (omap_retire_props _ N F) as (N' & L' & F').
    rewrite <- Q1 in N', L', F'.
    destruct (IH s1 Hf1 H1 N' ltac:(lia) F') as (s2 & E2 & Hf2 & Q2 & P2 & _).
    exists s2. split; [simpl; rewrite E1; exact E2|]. split; [exact Hf2|].
    assert (queue_of (Transport.world s2) =
            omap (after_failures (S n)) (queue_of (Transport.world s))) as Q.
    { rewrite Q2, Q1. apply after_failures_retire. }
    split; [exact Q|]. split.
    + rewrite P2, P1, Q1, (posts_retire n _ F). lia.
    + intros Hn. rewrite Q. clear -F Hn.
      induction F as [|e q He F IH]; [reflexivity|]. rewrite omap_cons_eq.
      unfold after_failures at 1.
      destruct (Z.leb_spec (retryCount e + Z.of_nat (S n)) 3); [lia|]. exact IH.
Qed.

(** ** Durations and the views they belong to *)

Section ScreenHistory.

Import Client.

Variable config : ResolvedConfig.

Lemma viewing_le_1 this : (viewing this <= 1)%nat.
Proof. unfold viewing. destruct (currentScreenViewId this); lia. Qed.

Lemma sendScreenDuration_views now this :
  (durations (map Sent (sendScreenDuration config now this).2)
   + viewing (sendScreenDuration config now this).1 <= viewing this)%nat /\
  activations (map Sent (sendScreenDuration config now this).2) = 0%nat.
Proof.
  split; [|apply activations_sent].
  destruct (currentScreenViewId this) as [v|] eqn:V.
  - destruct (sendScreenDuration_cases config now this) as [->|(v' & d & -> & Hn)].
    + simpl. unfold viewing. rewrite V. unfold durations. simpl. lia.
    + unfold viewing at 1. rewrite Hn. unfold viewing. rewrite V.
      unfold durations. simpl. lia.
  - rewrite (sendScreenDuration_idle config now this V). unfold durations. simpl. lia.
Qed.

Lemma trackScreen_views now fresh name path this :
  (durations (map Sent (trackScreen config now fresh name path this).2)
   + viewing (trackScreen config now fresh name path this).1 <= viewing this)%nat /\
  activations (map Sent (trackScreen config now fresh name path this).2) = 0%nat.
Proof.
  split; [|apply activations_sent].
  unfold trackScreen. destruct (destroyed this); [unfold durations; simpl; lia|].
  destruct (_ && _); [unfold durations; simpl; lia|].
  pose proof (sendScreenDuration_views now this) as (Hd & _).
  destruct (sendScreenDuration config now this) as [this1 out]. simpl in *.
  exact Hd.
Qed.

Lemma exec_views now fresh ev this w :
  exists this' obs w',
    exec config now fresh ev this w = (Ok (this', obs), w') /\
    (durations obs + viewing this' <= activations obs + viewing this)%nat.
Proof.
  destruct ev as [name path|h].
  - pose proof (trackScreen_views now fresh name path this) as (Hd & Ha).
    destruct (trackScreen config now fresh name path this) as [this' out] eqn:E.
    exists this', (map Sent out), w. split; [apply exec_trackScreen, E|].
    simpl in *. lia.
  - simpl. destruct (timeouts this !! h) as [[delay a]|] eqn:L.
    + destruct (timer_fires config now fresh h delay a this w L)
        as (this' & obs & w' & E & Ha & Hd & _).
      simpl in E. rewrite L in E.
      exists this', obs, w'. split; [exact E|].
      pose proof (viewing_le_1 this'). lia.
    + exists this, [], w. split; [reflexivity|]. unfold durations, activations. simpl. lia.
Qed.

End ScreenHistory.

(** X12. A duration is reported once for a screen view at most.  Whatever
    calls of [trackScreen] are made and whichever debounce timers fire, at
    whatever times and whatever the store does, the tracker never reports
    more durations than screens were activated before them, counting the
    view it held at the start; a tracker that starts without a view
    reports no more durations than activations. *)
Theorem durations_follow_activations (config : ResolvedConfig)
    (history : list (Z * string * Client.event)) (this : Client.t) (w : Sys) :
  exists this' obs w',
    Client.run config history this w = (Ok (this', obs), w') /\
    (durations obs + viewing this' <= activations obs + viewing this)%nat /\
    (Client.currentScreenViewId this = None -> (durations obs <= activations obs)%nat).
Proof.
  assert (exists this' obs w',
    Client.run config history this w = (Ok (this', obs), w') /\
    (durations obs + viewing this' <= activations obs + viewing this)%nat) as Hrun.
  { revert this w. induction history as [|[[now fresh] ev] rest IH]; intros this w.
    - exists this, [], w. split; [reflexivity|]. unfold durations, activations. simpl. lia.
    - destruct (exec_views config now fresh ev this w) as (this1 & obs1 & w1 & E1 & H1).
      destruct (IH this1 w1) as (this2 & obs2 & w2 & E2 & H2).
      exists this2, (obs1 ++ obs2), w2. split.
      + rewrite (run_cons_ok config _ _ _ _ _ _ _ _ _ E1), E2. reflexivity.
      + rewrite durations_app, activations_app. lia. }
  destruct Hrun as (this' & obs & w' & E & H).
  exists this', obs, w'. split; [exact E|]. split; [exact H|].
  intros Hn. unfold viewing in H at 2. rewrite Hn in H. lia.
Qed.

(** ** The rate limit over a run of captures *)

Section RateWindow.

Import ErrorTracker.

Variable config : ResolvedConfig.
Variable userAgent : string.

Lemma filter_length_impl {A} (P Q : A -> Prop) `{forall x, Decision (P x)}
    `{forall x, Decision (Q x)} (l : list A) :
  (forall x, x ∈ l -> P x -> Q x) ->
  (length (filter P l) <= length (filter Q l))%nat.
Proof.
  induction l as [|x l IH]; intros HPQ; [reflexivity|].
  assert (length (filter P l) <= length (filter Q l))%nat as IH'.
  { apply IH. intros y Hy. apply HPQ. right. exact Hy. }
  destruct (decide (P x)) as [HP|HP].
  - rewrite (filter_cons_True P) by exact HP.
    rewrite (filter_cons_True Q) by (apply HPQ; [left|exact HP]). simpl. lia.
  - rewrite (filter_cons_False P) by exact HP.
    destruct (decide (Q x)) as [HQ|HQ].
    + rewrite (filter_cons_True Q) by exact HQ. simpl. lia.
    + rewrite (filter_cons_False Q) by exact HQ. exact IH'.
Qed.

Lemma filter_filter_impl {A} (P Q : A -> Prop) `{forall x, Decision (P x)}
    `{forall x, Decision (Q x)} (l : list A) :
  (forall x, P x -> Q x) -> filter P (filter Q l) = filter P l.
Proof.
  intros HPQ. induction l as [|x l IH]; [reflexivity|].
  destruct (decide (Q x)) as [HQ|HQ].
  - rewrite (filter_cons_True Q) by exact HQ.
    destruct (decide (P x)) as [HP|HP].
    + rewrite !(filter_cons_True P) by exact HP. f_equal. exact IH.
    + rewrite !(filter_cons_False P) by exact HP. exact IH.
  - rewrite (filter_cons_False Q) by exact HQ.
    rewrite (filter_cons_False P) by (intros HP; apply HQ, HPQ, HP). exact IH.
Qed.

(** The three ways a capture can go, as far as the window is concerned. *)
Lemma capture_at_cases c this storage w :
  exists this' storage' out w',
    capture_at config userAgent c this storage w = (Ok (this', storage', out), w') /\
    ((errorTimestamps this' = errorTimestamps this /\ out = []) \/
     (errorTimestamps this' = live (c_now c) this /\ out = []) \/
     (errorTimestamps this' = live (c_now c) this ++ [c_now c] /\
      (length (live (c_now c) this) < 10)%nat /\
      (omap error_time out = [] \/ omap error_time out = [c_now c]))).
Proof.
  unfold capture_at, captureError.
  destruct (negb (Storage.isReady storage)).
  - do 4 eexists. split; [reflexivity|]. left.
    split; [apply run_timers_window|reflexivity].
  - pose proof (isRateLimited_spec (c_now c) (run_timers (c_now c) this))
      as (_ & _ & Hlim & Hpass).
    assert (live (c_now c) (run_timers (c_now c) this) = live (c_now c) this) as Hlive.
    { unfold live. rewrite run_timers_window. reflexivity. }
    rewrite Hlive in Hlim, Hpass.
    destruct (isRateLimited (c_now c) (run_timers (c_now c) this))
      as [[] this1]; simpl in Hlim, Hpass.
    + do 4 eexists. split; [reflexivity|]. right. left.
      split; [apply Hlim; reflexivity|reflexivity].
    + destruct (Hpass eq_refl) as (Hlen & Hts).
      assert (length (live (c_now c) this) < 10)%nat as Hlen'.
      { unfold MAX_ERRORS_PER_WINDOW in Hlen. lia. }
      destruct (isDuplicate (c_now c) (dedupKey (c_error c)) this1)
        as [[] this2] eqn:D.
      * do 4 eexists. split; [reflexivity|]. right. right.
        assert (this2 = this1) as ->.
        { unfold isDuplicate in D. destruct (bool_decide _); congruence. }
        split; [exact Hts|]. split; [exact Hlen'|left; reflexivity].
      * destruct (getSessionId_total storage (sessionTimeout config) (c_now c)
                    (c_fresh c) w) as (sid & st' & w' & E & _).
        unfold bind. rewrite E. simpl.
        do 4 eexists. split; [reflexivity|]. right. right.
        assert (errorTimestamps this2 = errorTimestamps this1) as ->.
        { unfold isDuplicate in D. destruct (bool_decide _); [congruence|].
          injection D as <-. reflexivity. }
        split; [exact Hts|]. split; [exact Hlen'|right; reflexivity].
Qed.

Lemma window_inv_later last now recorded this :
  last <= now -> window_inv last recorded this ->
  live now this = filter (fun t => now - t < RATE_LIMIT_WINDOW_MS) recorded.
Proof.
  intros Hle (Hts & _). unfold live. rewrite Hts.
  apply filter_filter_impl. intros t. lia.
Qed.

Lemma window_inv_limited last now recorded this this' :
  last <= now -> window_inv last recorded this ->
  errorTimestamps this' = live now this ->
  window_inv now recorded this'.
Proof.
  intros Hle I E. pose proof (window_inv_later _ _ _ _ Hle I) as Hl.
  destruct I as (_ & Hb & Hw). split; [congruence|]. split; [|exact Hw].
  eapply Forall_impl; [exact Hb|]. simpl. intros t. lia.
Qed.

Lemma window_inv_recorded last now recorded this this' :
  last <= now -> window_inv last recorded this ->
  errorTimestamps this' = live now this ++ [now] ->
  (length (live now this) < 10)%nat ->
  window_inv now (recorded ++ [now]) this'.
Proof.
  intros Hle I E Hlen. pose proof (window_inv_later _ _ _ _ Hle I) as Hl.
  destruct I as (_ & Hb & Hw).
  assert (filter (fun t => now - t < RATE_LIMIT_WINDOW_MS) (recorded ++ [now])
          = live now this ++ [now]) as Hnow.
  { rewrite filter_app, Hl. f_equal.
    rewrite filter_cons_True by (unfold RATE_LIMIT_WINDOW_MS; lia). reflexivity. }
  split; [congruence|]. split.
  - apply Forall_app. split.
    + eapply Forall_impl; [exact Hb|]. simpl. intros t. lia.
    + constructor; [lia|constructor].
  - intros T. destruct (decide (now <= T)) as [HT|HT].
    + etransitivity.
      * apply (filter_length_impl (within T)
                 (fun t => now - t < RATE_LIMIT_WINDOW_MS)).
        intros t _ (H1 & H2). lia.
      * rewrite Hnow, length_app. simpl. lia.
    + rewrite filter_app, length_app.
      rewrite (filter_cons_False (within T)) by (unfold within; lia).
      simpl. specialize (Hw T). lia.
Qed.

Lemma captures_window cs : forall last recorded this storage w,
  in_order last cs -> window_inv last recorded this ->
  exists this' storage' out w' more,
    captures config userAgent cs this storage w = (Ok (this', storage', out), w') /\
    (forall T, (length (filter (within T) recorded) +
                length (filter (within T) (omap error_time out))
                <= length (filter (within T) (recorded ++ more)))%nat) /\
    (forall T, (length (filter (within T) (recorded ++ more)) <= 10)%nat).
Proof.
  induction cs as [|c cs IH]; intros last recorded this storage w Ho I.
  - exists this, storage, [], w, []. split; [reflexivity|].
    rewrite app_nil_r. split; [intros T; simpl; lia|apply I].
  - destruct Ho as (Hle & Ho).
    destruct (capture_at_cases c this storage w)
      as (this1 & st1 & out1 & w1 & E1 & Hc).
    assert (exists last1 rec1,
      last1 <= c_now c /\ window_inv last1 (recorded ++ rec1) this1 /\
      (omap error_time out1 = [] \/ omap error_time out1 = rec1))
      as (last1 & rec1 & Hl1 & I1 & S1).
    { destruct Hc as [(Hts & ->)|[(Hts & ->)|(Hts & Hlen & Hout)]].
      - exists last, []. rewrite app_nil_r. split; [exact Hle|].
        split; [|left; reflexivity].
        destruct I as (I0 & I'). split; [congruence|exact I'].
      - exists (c_now c), []. rewrite app_nil_r. split; [lia|].
        split; [|left; reflexivity].
        eapply window_inv_limited; eassumption.
      - exists (c_now c), [c_now c]. split; [lia|]. split; [|exact Hout].
        eapply window_inv_recorded; eassumption. }
    assert (in_order last1 cs) as Ho1.
    { destruct cs as [|c2 cs2]; [exact Logic.I|]. destruct Ho as (H2 & Ho). split; [lia|exact Ho]. }
    destruct (IH last1 (recorded ++ rec1) this1 st1 w1 Ho1 I1)
      as (this2 & st2 & out2 & w2 & more & E2 & Hcount & Hmax).
    exists this2, st2, (out1 ++ out2), w2, (rec1 ++ more).
    split.
    + simpl. unfold bind. rewrite E1. simpl. rewrite E2. reflexivity.
    + rewrite app_assoc. split; [|exact Hmax].
      intros T. specialize (Hcount T).
      rewrite omap_app, filter_app, length_app.
      assert (length (filter (within T) (omap error_time out1))
              <= length (filter (within T) rec1))%nat as H1.
      { destruct S1 as [-> | ->]; [simpl; lia|reflexivity]. }
      rewrite filter_app, length_app in Hcount. lia.
Qed.

End RateWindow.

(** X13. No more than ten error reports in any 60 seconds.  For captures
    made in the order of their times on a tracker whose rate window is
    empty, whatever the errors, the state of the store and of the
    deduplication set: among the reports handed to the transport, those
    with a timestamp in the 60 s that end at any instant [T] are ten at
    most. *)
Theorem error_reports_per_minute (config : ResolvedConfig) (userAgent : string)
    (cs : list capture) (this : ErrorTracker.t) (storage : Storage.t) (w : Sys)
    (start : Z) :
  ErrorTracker.errorTimestamps this = [] ->
  in_order start cs ->
  exists this' storage' out w',
    captures config userAgent cs this storage w = (Ok (this', storage', out), w') /\
    forall T, (length (filter (within T) (omap error_time out)) <= 10)%nat.
Proof.
  intros Hts Ho.
  destruct (captures_window config userAgent cs start [] this storage w Ho)
    as (this' & st' & out & w' & more & E & Hcount & Hmax).
  { split; [exact Hts|]. split; [constructor|]. intros T. simpl. lia. }
  exists this', st', out, w'. split; [exact E|].
  intros T. specialize (Hcount T). specialize (Hmax T). simpl in *. lia.
Qed.

(** ** The navigation hook *)

Section NavigationHook.

Import Navigation.

(** [getActiveRouteName] in terms of [routes[index]]. *)
Lemma getActiveRouteName_eq (index : nat) routes :
  getActiveRouteName (MkNavState (Some index) routes) =
  match routes !! index with
  | None => Rejected
  | Some (name, None) => Ok (Some name)
  | Some (name, Some nested) =>
      match getActiveRouteName nested with
      | Ok None => Ok (Some name)
      | r => r
      end
  end.
Proof.
  cbn [getActiveRouteName]. revert index.
  induction routes as [|[name [nested|]] rs IH]; intros [|i]; try reflexivity;
    apply IH.
Qed.

Lemma getActiveRouteName_unset routes :
  getActiveRouteName (MkNavState None routes) = Ok None.
Proof. reflexivity. Qed.

Lemma NavState_nested_ind (P : NavState -> Prop) :
  (forall routes, P (MkNavState None routes)) ->
  (forall index routes,
     (forall name nested, routes !! index = Some (name, Some nested) -> P nested) ->
     P (MkNavState (Some index) routes)) ->
  forall state, P state.
Proof.
  intros Hunset Hset. fix IH 1. intros [[index|] routes]; [|apply Hunset].
  apply Hset. revert index.
  induction routes as [|[name' [nested'|]] rs IHrs]; intros [|i] name nested L;
    simpl in L; try discriminate.
  - injection L as _ <-. apply IH.
  - eapply IHrs, L.
  - eapply IHrs, L.
Qed.

Lemma focused_sound state : forall name,
  focused state name -> getActiveRouteName state = Ok (Some name).
Proof.
  induction 1 as [index routes name L|index routes name nested L Hn
                 |index routes name nested inner L Hf IH];
    rewrite getActiveRouteName_eq, L.
  - reflexivity.
  - destruct nested as [idx rs]. simpl in Hn. subst idx. reflexivity.
  - rewrite IH. reflexivity.
Qed.

Lemma broken_sound state : broken state -> getActiveRouteName state = Rejected.
Proof.
  induction 1 as [index routes L|index routes name nested L Hb IH];
    rewrite getActiveRouteName_eq, L; [reflexivity|].
  rewrite IH. reflexivity.
Qed.

Lemma getActiveRouteName_cases state :
  match getActiveRouteName state with
  | Ok None => index_of state = None
  | Ok (Some name) => focused state name
  | Rejected => broken state
  end.
Proof.
  induction state as [routes|index routes IH] using NavState_nested_ind;
    [reflexivity|].
  rewrite getActiveRouteName_eq.
  destruct (routes !! index) as [[name [nested|]]|] eqn:L.
  - specialize (IH name nested eq_refl).
    destruct (getActiveRouteName nested) as [[inner|]|].
    + eapply focused_nested; eassumption.
    + eapply focused_unset; eassumption.
    + eapply broken_nested; eassumption.
  - apply focused_leaf, L.
  - apply broken_here, L.
Qed.

End NavigationHook.

(** X14. [getActiveRouteName] gives the name of the route that has the
    focus: it follows the active routes inwards and stops at a route
    without a nested navigator, or with one whose index is not set yet,
    whose name it then gives.  It gives [null] exactly when the index of
    the outermost navigator is not set, and it throws exactly when an
    index on the way points at no route. *)
Theorem active_route_is_focused (state : Navigation.NavState) :
  (Navigation.getActiveRouteName state = Ok None <-> index_of state = None) /\
  (forall name,
     Navigation.getActiveRouteName state = Ok (Some name) <-> focused state name) /\
  (Navigation.getActiveRouteName state = Rejected <-> broken state).
Proof.
  pose proof (getActiveRouteName_cases state) as H.
  split; [|split].
  - split.
    + intros E. rewrite E in H. exact H.
    + destruct state as [idx rs]. simpl. intros ->. reflexivity.
  - intros name. split; [|apply focused_sound].
    intros E. rewrite E in H. exact H.
  - split; [|apply broken_sound].
    intros E. rewrite E in H. exact H.
Qed.

Section NavigationChanges.

Import Navigation.

Lemma onStateChange_cases root ref ref' out :
  onStateChange true root ref = Ok (ref', out) ->
  (ref' = ref /\ out = []) \/
  (exists name, ref' = Some name /\ out = [name] /\
                name <> EmptyString /\ Some name <> ref).
Proof.
  unfold onStateChange. simpl.
  destruct root as [state|]; [|intros [= <- <-]; left; auto].
  destruct (getActiveRouteName state) as [[name|]|]; try discriminate;
    [|intros [= <- <-]; left; auto].
  do 2 case_bool_decide; simpl; intros [= <- <-]; try (left; auto; fail).
  right. exists name. auto.
Qed.

Lemma no_repeat_last prev names :
  no_repeat prev names ->
  forall more, no_repeat (from_option Some prev (last names)) more ->
               no_repeat prev (names ++ more).
Proof.
  revert prev. induction names as [|name names IH]; intros prev H more Hm.
  - exact Hm.
  - destruct H as (H1 & H2 & H3). simpl. split; [exact H1|]. split; [exact H2|].
    apply IH; [exact H3|].
    destruct names as [|n2 names]; [exact Hm|].
    rewrite last_cons_cons in Hm. simpl in Hm.
    destruct (last (n2 :: names)) eqn:E; [exact Hm|].
    apply last_None in E. discriminate.
Qed.

Lemma state_changes_spec roots : forall ref ref' names,
  state_changes roots ref = Ok (ref', names) ->
  no_repeat ref names /\ ref' = from_option Some ref (last names).
Proof.
  induction roots as [|root rest IH]; intros ref ref' names; simpl.
  - intros [= <- <-]. split; [exact I|reflexivity].
  - destruct (onStateChange true root ref) as [[ref1 out1]|] eqn:E1; [|discriminate].
    destruct (state_changes rest ref1) as [[ref2 out2]|] eqn:E2; [|discriminate].
    intros [= <- <-]. destruct (IH _ _ _ E2) as (Hn & Hl).
    destruct (onStateChange_cases _ _ _ _ E1) as [(-> & ->)|(name & -> & -> & Hne & Hd)].
    + simpl. split; [exact Hn|exact Hl].
    + simpl. split; [split; [exact Hne|split; [exact Hd|exact Hn]]|].
      rewrite Hl. destruct out2 as [|n2 out2]; [reflexivity|].
      rewrite last_cons_cons.
      destruct (last (n2 :: out2)) eqn:E; [reflexivity|].
      apply last_None in E. discriminate.
Qed.

End NavigationChanges.

(** X15. The navigation hook reports a screen when the focus moves to it,
    and only then.  Over any run of state changes that does not throw, the
    names given to [trackScreen] are never empty and none is the same as
    the one before it, the first being different from the route the hook
    remembered; the hook remembers the last name it reported.  The route
    that has the focus at [onReady] is remembered without being reported:
    a state change that leaves the focus there reports nothing. *)
Theorem hook_reports_focus_changes (roots : list (option Navigation.NavState))
    (ref ref' : option string) (names : list string) :
  state_changes roots ref = Ok (ref', names) ->
  no_repeat ref names /\
  ref' = from_option Some ref (last names) /\
  (forall state name before,
     Navigation.onReady (Some state) before = Ok (Some name) ->
     Navigation.onStateChange true (Some state) (Some name) = Ok (Some name, [])).
Proof.
  intros E. destruct (state_changes_spec _ _ _ _ E) as (Hn & Hl).
  split; [exact Hn|]. split; [exact Hl|].
  intros state name before. unfold Navigation.onReady, Navigation.onStateChange.
  intros ->. simpl. rewrite (bool_decide_eq_true_2 (Some name = Some name)) by reflexivity.
  rewrite andb_false_r. reflexivity.
Qed.

(** ** The methods of the client *)

Section Lifecycle.

Import Client.

Variable config : ResolvedConfig.

Lemma getSessionId_frame (st : Storage.t) (T now : Z) (fresh : string) (w : Sys) :
  queue_of (Storage.getSessionId st T now fresh w).2 = queue_of w /\
  fetches (Storage.getSessionId st T now fresh w).2 = fetches w.
Proof.
  unfold Storage.getSessionId, queue_of, fetches.
  destruct (_ >? _); unfold bind, try_catch, ret, AsyncStorage.multiSet,
    AsyncStorage.setItem, async_call;
    destruct (next_fault w) as [[] fs]; simpl;
    rewrite ?List.filter_app, ?length_app; simpl;
    rewrite ?lookup_insert_ne by discriminate; split; (reflexivity || lia).
Qed.

Lemma setVisitorId_frame (st : Storage.t) (v : string) (w : Sys) :
  exists st' w', Storage.setVisitorId st v w = (Ok st', w') /\
    Storage.visitorId st' = v /\
    Storage.sessionId st' = Storage.sessionId st /\
    Storage.initialized st' = Storage.initialized st /\
    queue_of w' = queue_of w /\ fetches w' = fetches w.
Proof.
  unfold Storage.setVisitorId, queue_of, fetches, bind, try_catch, ret,
    AsyncStorage.setItem, async_call.
  destruct (next_fault w) as [[] fs]; simpl; do 2 eexists;
    (split; [reflexivity|]); simpl;
    rewrite ?List.filter_app, ?length_app; simpl;
    rewrite ?lookup_insert_ne by discriminate;
    repeat split; (reflexivity || lia).
Qed.

Lemma send_frame endpoint body ok w :
  Transport.send config endpoint body ok w =
  (Ok ok, {| disk := disk w; faults := faults w;
             journal := journal w ++ [IoFetch (apiUrl config +:+ endpoint) body] |}).
Proof. reflexivity. Qed.

End Lifecycle.

(** X16. [track] sends an event only from a client that is not destroyed,
    on a ready storage, with a name the pattern accepts and of at most 255
    characters; it then sends exactly one report, for the session as it
    is after the call, and sets the session clock to the time of the call.
    A call that is refused leaves no trace: nothing is sent, and the
    client, the session clock and the store are as they were. *)
Theorem track_gate (config : ResolvedConfig) (now : Z) (fresh eventName : string)
    (properties : option string) (this : Client.t) (w : Sys) :
  let accepted :=
    negb (Client.destroyed this) && Storage.isReady (Client.storage this) &&
    Client.EVENT_NAME_REGEX_test eventName &&
    (String.length eventName <=? 255)%nat in
  exists this' out w',
    Client.track config now fresh eventName properties this w = (Ok (this', out), w') /\
    (accepted = false -> this' = this /\ out = [] /\ w' = w) /\
    (accepted = true ->
     exists p,
       out = [Client.SendOrQueueEvent (Client.event_url config) p] /\
       Client.ev_event p = eventName /\
       Client.ev_visitorId p = Storage.visitorId (Client.storage this) /\
       Client.ev_sessionId p = Storage.sessionId (Client.storage this') /\
       Client.ev_timestamp p = now /\
       Storage.sessionTimestamp (Client.storage this') = now /\
       Storage.sessionId (Client.storage this') =
         (if now - Storage.sessionTimestamp (Client.storage this) >? sessionTimeout config
          then fresh else Storage.sessionId (Client.storage this)) /\
       queue_of w' = queue_of w).
Proof.
  intros accepted. subst accepted. unfold Client.track.
  destruct (Client.destroyed this); simpl.
  { do 3 eexists. split; [reflexivity|]. split; [auto|discriminate]. }
  destruct (Storage.isReady (Client.storage this)); simpl.
  2:{ do 3 eexists. split; [reflexivity|]. split; [auto|discriminate]. }
  destruct (Client.EVENT_NAME_REGEX_test eventName); simpl.
  2:{ do 3 eexists. split; [reflexivity|]. split; [auto|discriminate]. }
  unfold Client.MAX_EVENT_NAME_LENGTH.
  destruct (Nat.leb_spec (String.length eventName) 255) as [Hle|Hgt].
  - assert ((255 <? String.length eventName)%nat = false) as ->
      by (apply Nat.ltb_ge; exact Hle).
    pose proof (getSessionId_frame (Client.storage this) (sessionTimeout config)
                  now fresh w) as (Hq & _).
    destruct (getSessionId_total (Client.storage this) (sessionTimeout config)
                now fresh w) as (sid & st' & w' & E & Hsid & Hts & Hrot & _).
    rewrite E in Hq. unfold bind. rewrite E. simpl.
    do 3 eexists. split; [reflexivity|]. split; [discriminate|].
    intros _. eexists. split; [reflexivity|]. simpl. auto 10.
  - assert ((255 <? String.length eventName)%nat = true) as ->
      by (apply Nat.ltb_lt; exact Hgt).
    do 3 eexists. split; [reflexivity|]. split; [auto|discriminate].
Qed.

(** X17. [identify] never queues: whatever the network answers and
    whatever the store does, the call returns, the queue file is as it was
    and at most one request has been made.  The visitor id changes only
    when the answer is OK and carries an id that is not empty; it is then
    that id, in memory, also when the write to the store is rejected.  On a
    destroyed client or a storage that is not ready nothing happens at
    all. *)
Theorem identify_never_queues (config : ResolvedConfig) (now : Z)
    (fresh body : string) (response : Client.identify_response)
    (this : Client.t) (w : Sys) :
  exists this' w',
    Client.identify config now fresh body response this w = (Ok this', w') /\
    queue_of w' = queue_of w /\
    (fetches w' <= fetches w + 1)%nat /\
    (Client.destroyed this = true \/ Storage.isReady (Client.storage this) = false ->
     this' = this /\ w' = w) /\
    (Client.destroyed this = false -> Storage.isReady (Client.storage this) = true ->
     fetches w' = (fetches w + 1)%nat /\
     Storage.visitorId (Client.storage this') =
       match response with
       | Client.OkJson (Some v) =>
           if bool_decide (v = EmptyString) then Storage.visitorId (Client.storage this)
           else v
       | _ => Storage.visitorId (Client.storage this)
       end).
Proof.
  unfold Client.identify.
  destruct (Client.destroyed this) eqn:D; simpl.
  { exists this, w. split; [reflexivity|]. split; [reflexivity|]. split; [lia|].
    split; [auto|discriminate]. }
  destruct (Storage.isReady (Client.storage this)) eqn:R; simpl.
  2:{ exists this, w. split; [reflexivity|]. split; [reflexivity|]. split; [lia|].
      split; [auto|discriminate]. }
  pose proof (getSessionId_frame (Client.storage this) (sessionTimeout config)
                now fresh w) as (Hq & Hf).
  destruct (getSessionId_total (Client.storage this) (sessionTimeout config)
              now fresh w) as (sid & st' & w1 & E & _ & _ & _ & _ & Hv).
  rewrite E in Hq, Hf. simpl in Hq, Hf.
  unfold bind at 1. rewrite E. cbn [fst snd]. unfold bind at 1, Client.post.
  set (w2 := {| disk := disk w1; faults := faults w1;
                journal := journal w1 ++
                  [IoFetch (apiUrl config +:+ Client.identify_url config) body] |}).
  assert (queue_of w2 = queue_of w /\ fetches w2 = (fetches w + 1)%nat) as (Hq2 & Hf2).
  { split; [exact Hq|]. unfold fetches, w2. simpl.
    rewrite List.filter_app, length_app. simpl. unfold fetches in Hf. lia. }
  assert (forall t0 : Client.t,
    Client.storage t0 = st' ->
    exists this' w', ret t0 w2 = (Ok this', w') /\
      queue_of w' = queue_of w /\ (fetches w' <= fetches w + 1)%nat /\
      (false = true \/ true = false -> this' = this /\ w' = w) /\
      (false = false -> true = true ->
       fetches w' = (fetches w + 1)%nat /\
       Storage.visitorId (Client.storage this') = Storage.visitorId (Client.storage this)))
    as Hkeep.
  { intros t0 Ht0. exists t0, w2. split; [reflexivity|]. split; [exact Hq2|].
    split; [lia|]. split; [intros [|]; discriminate|].
    intros _ _. split; [exact Hf2|]. rewrite Ht0. exact Hv. }
  destruct response as [| |[v|]|]; try (apply Hkeep; reflexivity).
  case_bool_decide as Hempty; simpl; [apply Hkeep; reflexivity|].
  case_bool_decide as Hsame; simpl.
  - destruct (Hkeep (Client.with_storage this st') eq_refl)
      as (t1 & w3 & Eq & H1 & H2 & H3 & H4).
    exists t1, w3. split; [exact Eq|]. split; [exact H1|]. split; [exact H2|].
    split; [exact H3|]. intros _ _. destruct (H4 eq_refl eq_refl) as (H5 & H6).
    split; [exact H5|]. rewrite H6, Hsame. unfold Storage.getVisitorId. simpl.
    symmetry. exact Hv.
  - destruct (setVisitorId_frame st' v w2) as (st2 & w3 & E3 & Hv3 & _ & _ & Hq3 & Hf3).
    unfold bind. simpl. rewrite E3. simpl.
    do 2 eexists. split; [reflexivity|]. simpl.
    split; [congruence|]. split; [lia|]. split; [intros [|]; discriminate|].
    intros _ _. split; [lia|exact Hv3].
Qed.

(** ** The end of the client, and the application state *)

Section Destroy.

Import Client.

Variable config : ResolvedConfig.

Lemma destroyed_exec now fresh ev this w :
  destroyed this = true -> timeouts this = ∅ ->
  exec config now fresh ev this w = (Ok (this, []), w).
Proof.
  intros D T. destruct ev as [name path|h]; simpl.
  - unfold trackScreen. rewrite D. reflexivity.
  - rewrite T, lookup_empty. reflexivity.
Qed.

Lemma destroyed_run history : forall this w,
  destroyed this = true -> timeouts this = ∅ ->
  run config history this w = (Ok (this, []), w).
Proof.
  induction history as [|[[now fresh] ev] rest IH]; intros this w D T; [reflexivity|].
  rewrite (run_cons_ok config _ _ _ _ _ _ _ _ _ (destroyed_exec now fresh ev this w D T)).
  rewrite (IH this w D T). reflexivity.
Qed.

Lemma cleared_timers (this : t) :
  timers_tracked this ->
  match screenDebounceTimer this with
  | Some h => delete h (timeouts this)
  | None => timeouts this
  end = ∅.
Proof.
  intros T. apply map_empty. intros k.
  destruct (screenDebounceTimer this) as [h|] eqn:Eh.
  - destruct (decide (k = h)) as [->|Hne]; [apply lookup_delete_eq|].
    rewrite lookup_delete_ne by congruence.
    destruct (timeouts this !! k) eqn:L; [|reflexivity].
    specialize (T k (mk_is_Some _ _ L)). congruence.
  - destruct (timeouts this !! k) eqn:L; [|reflexivity].
    specialize (T k (mk_is_Some _ _ L)). congruence.
Qed.

Lemma destroy_result now (this : client) :
  destroyed (tracker this) = false -> timers_tracked (tracker this) ->
  exists out,
    (length out <= 1)%nat /\
    (destroy config now this).2 =
      map SendOrQueue out ++
      (if appStateSubscription this then [SubscriptionRemove] else []) ++
      [ErrorTrackerUninstall; TransportStop] /\
    (forall d, d ∈ out -> exists view x, d = (duration_url config, PDuration view x)) /\
    destroyed (tracker (destroy config now this).1) = true /\
    timeouts (tracker (destroy config now this).1) = ∅ /\
    screenDebounceTimer (tracker (destroy config now this).1) = None /\
    storage (tracker (destroy config now this).1) = storage (tracker this) /\
    appStateSubscription (destroy config now this).1 = false.
Proof.
  intros D T. unfold destroy. rewrite D.
  set (t0 := {| storage := storage (tracker this); destroyed := true;
                currentScreenName := currentScreenName (tracker this);
                currentScreenPath := currentScreenPath (tracker this);
                currentScreenViewId := currentScreenViewId (tracker this);
                screenStartTime := screenStartTime (tracker this);
                screenDebounceTimer := screenDebounceTimer (tracker this);
                isFirstScreen := isFirstScreen (tracker this);
                timeouts := timeouts (tracker this);
                next_handle := next_handle (tracker this) |}).
  pose proof (sendScreenDuration_keeps config now t0)
    as (Hst & Hd & _ & _ & Ht & _ & Hto & _).
  pose proof (sendScreenDuration_cases config now t0) as Hc.
  destruct (sendScreenDuration config now t0) as [t1 out] eqn:E.
  simpl in Hst, Hd, Ht, Hto, Hc.
  assert (timers_tracked t1) as T1.
  { intros k Hk. rewrite Hto in Hk. rewrite Ht. exact (T k Hk). }
  pose proof (cleared_timers t1 T1) as Hclear.
  exists out. split; [|split; [reflexivity|split]].
  - destruct Hc as [[= _ ->]|(v & x & -> & _)]; simpl; lia.
  - intros d Hd'. destruct Hc as [[= _ ->]|(v & x & -> & _)].
    + apply elem_of_nil in Hd'. contradiction.
    + apply list_elem_of_singleton in Hd'. subst d. eauto.
  - destruct (screenDebounceTimer t1) as [h|] eqn:Eh; cbn;
      repeat split; try assumption; reflexivity.
Qed.

End Destroy.

(** X18. [destroy] is final.  From a client that is not destroyed and whose
    only pending timer is the debounce timer it holds, [destroy] reports
    the duration of the current screen once at most, drops the debounce
    timer, removes the subscription if one is held, uninstalls the error
    handlers and stops the transport.  After it no timer is pending, and
    whatever calls of [trackScreen], [track], [identify], [captureError]
    and [captureMessage] are made and whichever timers are given their
    turn, nothing is sent or activated and the client and the store stay
    as they are; a second [destroy] does nothing. *)
Theorem destroy_is_final (config : ResolvedConfig) (now : Z) (this : Client.client) :
  Client.destroyed (Client.tracker this) = false ->
  timers_tracked (Client.tracker this) ->
  let after := (Client.destroy config now this).1 in
  (exists out,
     (length out <= 1)%nat /\
     (forall d, d ∈ out ->
        exists view x, d = (Client.duration_url config, PDuration view x)) /\
     (Client.destroy config now this).2 =
       map Client.SendOrQueue out ++
       (if Client.appStateSubscription this then [Client.SubscriptionRemove] else []) ++
       [Client.ErrorTrackerUninstall; Client.TransportStop]) /\
  Client.timeouts (Client.tracker after) = ∅ /\
  (forall history w,
     Client.run config history (Client.tracker after) w
       = (Ok (Client.tracker after, []), w)) /\
  (forall t fresh eventName properties w,
     Client.track config t fresh eventName properties (Client.tracker after) w
       = (Ok (Client.tracker after, []), w)) /\
  (forall t fresh body response w,
     Client.identify config t fresh body response (Client.tracker after) w
       = (Ok (Client.tracker after), w)) /\
  (forall userAgent t fresh error context errors w,
     Client.captureError config userAgent t fresh error context errors
       (Client.tracker after) w
       = (Ok (Client.tracker after, errors, []), w)) /\
  (forall userAgent t fresh msg trace severity context errors w,
     Client.captureMessage config userAgent t fresh msg trace severity context errors
       (Client.tracker after) w
       = (Ok (Client.tracker after, errors, []), w)) /\
  (forall t, Client.destroy config t after = (after, [])).
Proof.
  intros D T after.
  destruct (destroy_result config now this D T)
    as (out & Hlen & Hout & Hdur & Hd & Hto & _).
  fold after in Hd, Hto.
  split; [exists out; auto|]. split; [exact Hto|].
  split; [intros; apply destroyed_run; assumption|].
  split; [intros; unfold Client.track; rewrite Hd; reflexivity|].
  split; [intros; unfold Client.identify; rewrite Hd; reflexivity|].
  split; [intros; unfold Client.captureError; rewrite Hd; reflexivity|].
  split; [intros; unfold Client.captureMessage; rewrite Hd; reflexivity|].
  intros t. unfold Client.destroy. rewrite Hd. reflexivity.
Qed.

Section AppState.

Import Client.

Variable config : ResolvedConfig.

Lemma handleAppStateChange_quiet now fresh nextState (this : client) w :
  (appState this = active /\ in_background nextState = true -> False) ->
  (in_background (appState this) = true /\ nextState = active -> False) ->
  handleAppStateChange config now fresh nextState this w =
  (Ok ({| tracker := tracker this; appState := nextState;
          appStateSubscription := appStateSubscription this |}, []), w).
Proof.
  intros H1 H2. unfold handleAppStateChange.
  assert (bool_decide (appState this = active) && in_background nextState = false) as ->.
  { apply andb_false_iff. case_bool_decide; [|left; reflexivity].
    right. destruct (in_background nextState); [exfalso; apply H1; auto|reflexivity]. }
  assert (in_background (appState this) && bool_decide (nextState = active) = false) as ->.
  { apply andb_false_iff. case_bool_decide; [|right; reflexivity].
    left. destruct (in_background (appState this)); [exfalso; apply H2; auto|reflexivity]. }
  reflexivity.
Qed.

Lemma handleAppStateChange_background now fresh nextState (this : client) w :
  appState this = active -> in_background nextState = true ->
  handleAppStateChange config now fresh nextState this w =
  (Ok ({| tracker := (sendScreenDuration config now (tracker this)).1;
          appState := nextState;
          appStateSubscription := appStateSubscription this |},
       map SendOrQueue (sendScreenDuration config now (tracker this)).2
       ++ [TransportPersistQueue]), w).
Proof.
  intros H1 H2. unfold handleAppStateChange.
  rewrite H1, H2. simpl.
  destruct (sendScreenDuration config now (tracker this)) as [t1 out]. simpl.
  unfold bind, ret. simpl. rewrite app_nil_r. reflexivity.
Qed.

Lemma handleAppStateChange_foreground now fresh (this : client) w :
  in_background (appState this) = true ->
  Storage.isReady (storage (tracker this)) = true ->
  exists st' w',
    handleAppStateChange config now fresh active this w =
    (Ok ({| tracker := with_storage (tracker this) st'; appState := active;
            appStateSubscription := appStateSubscription this |},
         [TransportFlush]), w') /\
    Storage.sessionTimestamp st' = now /\
    Storage.sessionId st' =
      (if now - Storage.sessionTimestamp (storage (tracker this)) >? sessionTimeout config
       then fresh else Storage.sessionId (storage (tracker this))) /\
    queue_of w' = queue_of w.
Proof.
  intros H1 R. unfold handleAppStateChange.
  assert (bool_decide (appState this = active) = false) as ->.
  { case_bool_decide as E; [|reflexivity]. rewrite E in H1. discriminate. }
  rewrite H1. simpl. rewrite R.
  pose proof (getSessionId_frame (storage (tracker this)) (sessionTimeout config)
                now fresh w) as (Hq & _).
  destruct (getSessionId_total (storage (tracker this)) (sessionTimeout config)
              now fresh w) as (sid & st' & w' & E & _ & Hts & Hrot & _).
  rewrite E in Hq. unfold bind, ret. rewrite E. simpl.
  exists st', w'. auto.
Qed.

End AppState.

(** X19. What a change of the application state sets off.  Leaving the
    foreground ([active] to [inactive] or [background]) reports the
    duration of the current screen and asks the transport to persist its
    queue; it does not touch the session or the store.  Coming back
    ([inactive] or [background] to [active]) starts one flush and, on a
    ready storage, checks the session: it is replaced when more than the
    session timeout has passed since the session clock was last set, which
    the time spent in the background counts towards.  Every other change
    only records the new state. *)
Theorem app_state_change (config : ResolvedConfig) (now : Z) (fresh : string)
    (nextState : Client.AppStateStatus) (this : Client.client) (w : Sys) :
  exists this' out w',
    Client.handleAppStateChange config now fresh nextState this w
      = (Ok (this', out), w') /\
    Client.appState this' = nextState /\
    (Client.appState this = Client.active ->
     Client.in_background nextState = true ->
     out = map Client.SendOrQueue
             (Client.sendScreenDuration config now (Client.tracker this)).2
           ++ [Client.TransportPersistQueue] /\
     Client.storage (Client.tracker this') = Client.storage (Client.tracker this) /\
     w' = w) /\
    (Client.in_background (Client.appState this) = true ->
     nextState = Client.active ->
     out = [Client.TransportFlush] /\
     (Storage.isReady (Client.storage (Client.tracker this)) = true ->
      Storage.sessionTimestamp (Client.storage (Client.tracker this')) = now /\
      Storage.sessionId (Client.storage (Client.tracker this')) =
        (if now - Storage.sessionTimestamp (Client.storage (Client.tracker this))
              >? sessionTimeout config
         then fresh else Storage.sessionId (Client.storage (Client.tracker this)))) /\
     (Storage.isReady (Client.storage (Client.tracker this)) = false ->
      Client.tracker this' = Client.tracker this /\ w' = w)) /\
    ((Client.appState this = Client.active /\ Client.in_background nextState = true
      -> False) ->
     (Client.in_background (Client.appState this) = true /\ nextState = Client.active
      -> False) ->
     Client.tracker this' = Client.tracker this /\ out = [] /\ w' = w).
Proof.
  destruct (decide (Client.appState this = Client.active /\
                    Client.in_background nextState = true)) as [(H1 & H2)|Hn1].
  - rewrite (handleAppStateChange_background config now fresh nextState this w H1 H2).
    do 3 eexists. split; [reflexivity|]. split; [reflexivity|]. split; [|split].
    + intros _ _. split; [reflexivity|]. split; [|reflexivity].
      apply (sendScreenDuration_keeps config now (Client.tracker this)).
    + intros H3 _. rewrite H1 in H3. discriminate.
    + intros H3 _. exfalso. apply H3. auto.
  - destruct (decide (Client.in_background (Client.appState this) = true /\
                      nextState = Client.active)) as [(H1 & ->)|Hn2].
    + destruct (Storage.isReady (Client.storage (Client.tracker this))) eqn:R.
      * destruct (handleAppStateChange_foreground config now fresh this w H1 R)
          as (st' & w' & E & Hts & Hrot & _).
        rewrite E. do 3 eexists. split; [reflexivity|]. split; [reflexivity|].
        split; [|split].
        { intros H3 _. rewrite H3 in H1. discriminate. }
        { intros _ _. split; [reflexivity|]. split; [auto|discriminate]. }
        { intros _ H3. exfalso. apply H3. auto. }
      * unfold Client.handleAppStateChange.
        assert (bool_decide (Client.appState this = Client.active) = false) as ->.
        { case_bool_decide as E; [|reflexivity]. rewrite E in H1. discriminate. }
        rewrite H1. simpl. rewrite R. unfold bind, ret. simpl.
        do 3 eexists. split; [reflexivity|]. split; [reflexivity|].
        split; [|split].
        { intros H3 _. rewrite H3 in H1. discriminate. }
        { intros _ _. split; [reflexivity|]. split; [discriminate|auto]. }
        { intros _ H3. exfalso. apply H3. auto. }
    + rewrite (handleAppStateChange_quiet config now fresh nextState this w Hn1 Hn2).
      do 3 eexists. split; [reflexivity|]. split; [reflexivity|].
      split; [|split].
      * intros H1 H2. exfalso. apply Hn1. auto.
      * intros H1 H2. exfalso. apply Hn2. auto.
      * intros _ _. auto.
Qed.

Section ShortViews.

Import Client.

Variable config : ResolvedConfig.

Lemma sendScreenDuration_short now view (this : t) :
  Storage.isReady (storage this) = true ->
  currentScreenViewId this = Some view -> view <> EmptyString ->
  screenStartTime this <> 0 ->
  round_seconds (now - screenStartTime this) < 1 ->
  sendScreenDuration config now this = (this, []).
Proof.
  intros R V Hv Hs Hshort. unfold sendScreenDuration, live_view. rewrite V.
  rewrite (bool_decide_eq_false_2 _ Hv), (bool_decide_eq_false_2 _ Hs), R.
  cbn [negb]. unfold MIN_DURATION.
  destruct (Z.ltb_spec (round_seconds (now - screenStartTime this)) 1); [reflexivity|lia].
Qed.

Lemma sendScreenDuration_long now view (this : t) :
  Storage.isReady (storage this) = true ->
  currentScreenViewId this = Some view -> view <> EmptyString ->
  screenStartTime this <> 0 ->
  1 <= round_seconds (now - screenStartTime this) ->
  (sendScreenDuration config now this).2 =
  [(duration_url config,
    PDuration view (Z.max 1 (Z.min 3600 (round_seconds (now - screenStartTime this)))))].
Proof.
  intros R V Hv Hs Hlong. unfold sendScreenDuration, live_view. rewrite V.
  rewrite (bool_decide_eq_false_2 _ Hv), (bool_decide_eq_false_2 _ Hs), R.
  cbn [negb]. unfold MIN_DURATION, MAX_DURATION.
  destruct (Z.ltb_spec (round_seconds (now - screenStartTime this)) 1); [lia|reflexivity].
Qed.

End ShortViews.

(** X25. [flush] of the client is not stopped by [destroy].  A screen
    view that is less than half a second old when the client is destroyed
    rounds to a duration of 0 s: [destroy] does not report it, and keeps
    it.  A later [flush] then reports its duration, clamped as usual, and
    asks the transport to flush, although the client is destroyed. *)
Theorem flush_after_destroy (config : ResolvedConfig) (now later : Z)
    (view : string) (this : Client.client) :
  Client.destroyed (Client.tracker this) = false ->
  Storage.isReady (Client.storage (Client.tracker this)) = true ->
  Client.currentScreenViewId (Client.tracker this) = Some view ->
  view <> EmptyString ->
  Client.screenStartTime (Client.tracker this) <> 0 ->
  Client.round_seconds (now - Client.screenStartTime (Client.tracker this)) < 1 ->
  1 <= Client.round_seconds (later - Client.screenStartTime (Client.tracker this)) ->
  (Client.destroy config now this).2 =
    (if Client.appStateSubscription this then [Client.SubscriptionRemove] else []) ++
    [Client.ErrorTrackerUninstall; Client.TransportStop] /\
  (Client.flush config later (Client.tracker (Client.destroy config now this).1)).2 =
    [Client.SendOrQueue
       (Client.duration_url config,
        PDuration view
          (Z.max 1 (Z.min 3600
             (Client.round_seconds
                (later - Client.screenStartTime (Client.tracker this))))));
     Client.TransportFlush].
Proof.
  intros D R V Hv Hs Hnow Hlater.
  unfold Client.destroy. rewrite D.
  match goal with |- context [Client.sendScreenDuration config now ?t0] =>
    rewrite (sendScreenDuration_short config now view t0 R V Hv Hs Hnow) end.
  cbn [fst snd map app]. split; [reflexivity|].
  unfold Client.flush.
  destruct (Client.screenDebounceTimer (Client.tracker this)) as [h|];
    cbn [Client.tracker fst Client.screenDebounceTimer];
    match goal with |- context [Client.sendScreenDuration config later ?t2] =>
      pose proof (sendScreenDuration_long config later view t2 R V Hv Hs Hlater) as H;
      destruct (Client.sendScreenDuration config later t2) as [t3 out] end;
    cbn [snd] in H; rewrite H; reflexivity.
Qed.

(** ** The global handlers *)

Section GlobalHandlers.

Import ErrorTracker.

Variable config : ResolvedConfig.
Variable userAgent : string.


End GlobalHandlers.

(** X20. [uninstall] undoes [install] for the global error handler, not
    for the rejection tracker.  From a tracker that is not installed,
    [install] puts its closure in the place of the global handler, if the
    runtime has one, and takes over the rejection tracker; it throws, with
    the closure already in place, when the tracking module is missing, and
    a second [install] does nothing.  [uninstall] then puts back the
    handler that was there and leaves the tracker as it was before
    [install], also after an [install] that threw; but the rejection
    tracker is turned off whoever had it before. *)
Theorem uninstall_restores_handler (hs : ErrorTracker.hooks)
    (rt : ErrorTracker.runtime) :
  ErrorTracker.installed hs = false ->
  ErrorTracker.originalHandler hs = None ->
  let r := (ErrorTracker.install hs rt).1.1 in
  let hs1 := (ErrorTracker.install hs rt).1.2 in
  let rt1 := (ErrorTracker.install hs rt).2 in
  let hs2 := (ErrorTracker.uninstall hs1 rt1).1 in
  let rt2 := (ErrorTracker.uninstall hs1 rt1).2 in
  (r = Rejected <-> ErrorTracker.tracking_module rt = false) /\
  ErrorTracker.installed hs1 = true /\
  ErrorTracker.originalHandler hs1 = ErrorTracker.ErrorUtils rt /\
  ErrorTracker.ErrorUtils rt1 =
    match ErrorTracker.ErrorUtils rt with
    | Some _ => Some ErrorTracker.Capturing
    | None => None
    end /\
  ErrorTracker.tracking rt1 =
    (if ErrorTracker.tracking_module rt then ErrorTracker.TrackingCapturing
     else ErrorTracker.tracking rt) /\
  ErrorTracker.install hs1 rt1 = (Ok tt, hs1, rt1) /\
  hs2 = hs /\
  ErrorTracker.ErrorUtils rt2 = ErrorTracker.ErrorUtils rt /\
  ErrorTracker.tracking rt2 =
    (if ErrorTracker.tracking_module rt then ErrorTracker.TrackingOff
     else ErrorTracker.tracking rt) /\
  ErrorTracker.uninstall hs2 rt2 = (hs2, rt2).
Proof.
  destruct hs as [inst orig], rt as [eu tm tr]. simpl. intros -> ->.
  unfold ErrorTracker.install, ErrorTracker.uninstall. simpl.
  destruct eu as [h|], tm; simpl; repeat split; try reflexivity;
    try discriminate; intros; try discriminate; reflexivity.
Qed.


(** ** The configured queue limit *)

(** X22. The queue limit the application gives is taken as it is, zero and
    negative numbers too; only a limit left out becomes 1000.  On a store
    that answers, a delivery that fails leaves the newest events up to
    that limit, so a limit of zero or less keeps nothing queued, and with
    the limit left out a queue of fewer than 1000 events grows by the
    failed one. *)
Theorem resolved_queue_limit (cfg : HimetricaConfig.t)
    (endpoint0 data0 fresh : string) (now : Z) (w : Sys) :
  healthy w ->
  let config := resolveConfig cfg in
  let event := {| id := fresh; endpoint := endpoint0; data := data0;
                  timestamp := now; retryCount := 0 |} in
  let w' := (Transport.sendOrQueue config endpoint0 data0 false fresh now w).2 in
  maxQueueSize config = default 1000 (HimetricaConfig.maxQueueSize cfg) /\
  queue_of w' = newest (Z.to_nat (maxQueueSize config)) (queue_of w ++ [event]) /\
  (forall m, HimetricaConfig.maxQueueSize cfg = Some m -> m <= 0 -> queue_of w' = []) /\
  (HimetricaConfig.maxQueueSize cfg = None -> (length (queue_of w) < 1000)%nat ->
   queue_of w' = queue_of w ++ [event]).
Proof.
  intros H config event w'.
  assert (queue_of w' = newest (Z.to_nat (maxQueueSize config)) (queue_of w ++ [event]))
    as Q.
  { subst w'. unfold Transport.sendOrQueue, bind. rewrite send_frame. cbn [fst snd].
    set (w1 := {| disk := disk w; faults := faults w;
                  journal := journal w ++
                    [IoFetch (apiUrl config +:+ endpoint0) data0] |}).
    assert (healthy w1) as H1 by exact H.
    destruct (enqueueEvent_healthy event w1 H1) as (w2 & E2 & H2 & Q2).
    fold event. rewrite E2.
    destruct (pruneQueue_any (maxQueueSize config) w2 H2) as (_ & Q3).
    rewrite Q3, Q2. reflexivity. }
  split; [reflexivity|]. split; [exact Q|]. split.
  - intros m Hm Hle. rewrite Q. unfold config, resolveConfig. simpl. rewrite Hm. simpl.
    replace (Z.to_nat m) with 0%nat by lia. unfold newest.
    rewrite Nat.sub_0_r. apply drop_all.
  - intros Hm Hlen. rewrite Q. unfold config, resolveConfig. simpl. rewrite Hm. simpl.
    apply newest_short. rewrite length_app. simpl. lia.
Qed.

(** ** Errors that share a fingerprint *)

Section Fingerprints.

Import ErrorTracker.

Lemma hash_loop_app (a b : string) : forall h,
  hash_loop h (a +:+ b) = hash_loop (hash_loop h a) b.
Proof. induction a as [|c a IH]; intros h; [reflexivity|]. simpl. apply IH. Qed.

Lemma hash_step (h : Z) (c : ascii) :
  exists k, to_int32 (to_int32 (Z.shiftl h 5) + h + charCode c)
            = 33 * h + charCode c + k * 2 ^ 32.
Proof.
  rewrite Z.shiftl_mul_pow2 by lia.
  destruct (to_int32_wraps (h * 2 ^ 5)) as (k1 & E1).
  destruct (to_int32_wraps (to_int32 (h * 2 ^ 5) + h + charCode c)) as (k2 & E2).
  exists (k1 + k2). rewrite E2, E1. lia.
Qed.

Lemma hash_two_steps (h : Z) (a b : ascii) :
  to_int32 (to_int32 (Z.shiftl (to_int32 (to_int32 (Z.shiftl h 5) + h + charCode a)) 5)
            + to_int32 (to_int32 (Z.shiftl h 5) + h + charCode a) + charCode b)
  = to_int32 (33 * 33 * h + (33 * charCode a + charCode b)).
Proof.
  destruct (hash_step h a) as (k1 & E1).
  remember (to_int32 (to_int32 (Z.shiftl h 5) + h + charCode a)) as s1 eqn:Es.
  rewrite (Z.shiftl_mul_pow2 s1) by lia.
  destruct (to_int32_wraps (s1 * 2 ^ 5)) as (k3 & E3).
  apply (to_int32_same _ _ (33 * k1 + k3)). rewrite E3, E1. lia.
Qed.

Lemma hash_swap (a b c d : ascii) (prefix suffix : string) :
  33 * charCode a + charCode b = 33 * charCode c + charCode d ->
  hashString (prefix +:+ String a (String b suffix)) =
  hashString (prefix +:+ String c (String d suffix)).
Proof.
  intros E. unfold hashString. rewrite !hash_loop_app. simpl.
  rewrite !hash_two_steps, E. reflexivity.
Qed.

Lemma append_not_empty (a : string) (c : ascii) (b : string) :
  a +:+ String c b <> EmptyString.
Proof. destruct a; discriminate. Qed.

Lemma append_cancel (a b c : string) : a +:+ b = a +:+ c -> b = c.
Proof. induction a as [|x a IH]; simpl; [auto|]. intros [= E]. apply IH, E. Qed.

Lemma split_lines_append (a b : string) :
  split_lines (a +:+ String newline b) = split_lines a ++ split_lines b.
Proof.
  induction a as [|c a IH]; simpl.
  - reflexivity.
  - rewrite IH. case_bool_decide; [reflexivity|].
    destruct (split_lines_cons a) as (l & ls & ->). reflexivity.
Qed.

End Fingerprints.

(** X23. The fingerprint does not tell all errors apart.  The hash of a
    text does not change when "ab" in it is replaced by "bA": two errors
    with the same stack whose messages differ in this way have the same
    deduplication key, whatever comes before and after, so that once the
    first is recorded the second is taken for a duplicate. *)
Theorem colliding_fingerprints (prefix suffix name1 name2 : string)
    (trace : option string) (now1 now2 : Z) (this : ErrorTracker.t) :
  let e1 := {| ErrorTracker.name := name1;
               ErrorTracker.message := prefix +:+ String "a" (String "b" suffix);
               ErrorTracker.stack := trace |} in
  let e2 := {| ErrorTracker.name := name2;
               ErrorTracker.message := prefix +:+ String "b" (String "A" suffix);
               ErrorTracker.stack := trace |} in
  ErrorTracker.message_of e1 <> ErrorTracker.message_of e2 /\
  ErrorTracker.dedupKey e1 = ErrorTracker.dedupKey e2 /\
  (ErrorTracker.isDuplicate now2 (ErrorTracker.dedupKey e2)
     (ErrorTracker.isDuplicate now1 (ErrorTracker.dedupKey e1) this).2).1 = true.
Proof.
  intros e1 e2.
  assert (ErrorTracker.message_of e1 = prefix +:+ String "a" (String "b" suffix)) as M1.
  { unfold ErrorTracker.message_of, e1. simpl.
    rewrite bool_decide_eq_false_2 by apply append_not_empty. reflexivity. }
  assert (ErrorTracker.message_of e2 = prefix +:+ String "b" (String "A" suffix)) as M2.
  { unfold ErrorTracker.message_of, e2. simpl.
    rewrite bool_decide_eq_false_2 by apply append_not_empty. reflexivity. }
  assert (ErrorTracker.dedupKey e1 = ErrorTracker.dedupKey e2) as K.
  { unfold ErrorTracker.dedupKey. rewrite M1, M2. simpl ErrorTracker.stack.
    rewrite !append_assoc. simpl. apply hash_swap. reflexivity. }
  split; [|split; [exact K|]].
  - rewrite M1, M2. intros E. apply append_cancel in E. discriminate.
  - rewrite <- K. unfold ErrorTracker.isDuplicate at 2.
    case_bool_decide as Hin; simpl.
    + unfold ErrorTracker.isDuplicate. rewrite bool_decide_eq_true_2 by exact Hin.
      reflexivity.
    + unfold ErrorTracker.isDuplicate. simpl.
      rewrite bool_decide_eq_true_2; [reflexivity|].
      apply elem_of_union_l, elem_of_singleton. reflexivity.
Qed.

(** X24. Only the first 20 lines of a stack count.  Lines added after a
    stack of 20 lines or more change neither the stack that is reported
    nor the deduplication key: two errors with the same message whose
    stacks differ only below the 20th line are the same error to the
    tracker. *)
Theorem frames_below_limit_ignored (e1 e2 : ErrorTracker.JsError)
    (trace more : string) :
  (ErrorTracker.MAX_STACK_LINES <= length (ErrorTracker.split_lines trace))%nat ->
  ErrorTracker.stack e1 = Some trace ->
  ErrorTracker.stack e2 = Some (trace +:+ String ErrorTracker.newline more) ->
  ErrorTracker.message_of e1 = ErrorTracker.message_of e2 ->
  ErrorTracker.normalizeStack (ErrorTracker.stack e2) =
    ErrorTracker.normalizeStack (ErrorTracker.stack e1) /\
  ErrorTracker.dedupKey e1 = ErrorTracker.dedupKey e2.
Proof.
  intros Hlen S1 S2 M.
  assert (ErrorTracker.normalizeStack (ErrorTracker.stack e2) =
          ErrorTracker.normalizeStack (ErrorTracker.stack e1)) as N.
  { rewrite S1, S2. unfold ErrorTracker.normalizeStack.
    rewrite bool_decide_eq_false_2 by apply append_not_empty.
    assert (trace <> EmptyString) as Hne.
    { intros ->. simpl in Hlen. unfold ErrorTracker.MAX_STACK_LINES in Hlen. lia. }
    rewrite bool_decide_eq_false_2 by exact Hne.
    rewrite split_lines_append, take_app_le by exact Hlen. reflexivity. }
  split; [exact N|]. unfold ErrorTracker.dedupKey. rewrite M, N. reflexivity.
Qed.

(** ** Scenarios of the further properties *)

Lemma queue_of_world_with_queue (q : list QueuedEvent) (fs : list bool) :
  queue_of (world_with_queue q fs) = q.
Proof. unfold queue_of, world_with_queue. simpl. rewrite lookup_insert_eq. reflexivity. Qed.

(** A stack of two lines is reported as it is. *)
Lemma normalizeStack_short_witness :
  ErrorTracker.normalizeStack (ErrorTracker.stack (sample_error "boom")) =
  ErrorTracker.stack (sample_error "boom").
Proof.
  destruct (normalizeStack_short
              ("Error: boom" +:+ String ErrorTracker.newline "    at f (app.js:1:1)"))
    as (_ & _ & H).
  - discriminate.
  - vm_compute. lia.
  - exact H.
Defined.

(** With A and B queued and the next read rejected, enqueuing C leaves C
    alone and removing A leaves nothing. *)
Lemma rejected_read_empties_queue_witness :
  queue_of (Storage.enqueueEvent (sample_event "C" 0)
              (world_with_queue two_events [true; false])).2 = [sample_event "C" 0] /\
  queue_of (Storage.removeEvent "A" (world_with_queue two_events [true; false])).2 = [].
Proof.
  destruct (rejected_read_empties_queue (sample_event "C" 0) "A" 10
              (world_with_queue two_events [true; false])) as (H1 & H2 & _).
  - exists []. reflexivity.
  - lia.
  - split; assumption.
Defined.

(** Enqueuing C after A and B and removing it again leaves A and B. *)
Lemma remove_undoes_enqueue_witness :
  queue_of (Storage.removeEvent "C"
              (Storage.enqueueEvent (sample_event "C" 0)
                 (world_with_queue two_events [])).2).2 = two_events.
Proof.
  destruct (remove_undoes_enqueue (sample_event "C" 0) "A"
              (world_with_queue two_events [])) as (_ & _ & H).
  - reflexivity.
  - refine (eq_trans (H _) (queue_of_world_with_queue _ _)).
    rewrite queue_of_world_with_queue. simpl.
    rewrite !not_elem_of_cons. repeat split; try discriminate. apply not_elem_of_nil.
Defined.

(** Updating A in the queue A, B rewrites the file once and keeps the
    ids. *)
Lemma update_keeps_ids_witness :
  id <$> queue_of (Storage.updateEvent (sample_event "A" 1)
                     (world_with_queue two_events [])).2 = ["A"; "B"] /\
  writes (Storage.updateEvent (sample_event "A" 1)
            (world_with_queue two_events [])).2 = 1%nat.
Proof.
  destruct (update_keeps_ids (sample_event "A" 1) (world_with_queue two_events []))
    as (_ & H).
  - reflexivity.
  - destruct H as (idx & old & _ & _ & _ & _ & Hids & Hw).
    + rewrite queue_of_world_with_queue. simpl. left.
    + rewrite Hids, Hw, queue_of_world_with_queue. split; reflexivity.
Defined.

(** Pruning the queue A, B to one event leaves B. *)
Lemma prune_keeps_newest_witness :
  queue_of (Storage.pruneQueue 1 (world_with_queue two_events [])).2
  = [sample_event "B" 0].
Proof.
  pose proof (prune_keeps_newest 1 (world_with_queue two_events []) eq_refl) as H.
  cbv zeta in H. destruct H as (H & _).
  rewrite H, queue_of_world_with_queue. reflexivity.
Defined.

(** The overlapped schedule loses an update, but adds nothing. *)
Lemma flush_adds_nothing_witness :
  (length (queue_of (Transport.world after_overlap)) <= 2)%nat.
Proof.
  destruct (flush_adds_nothing (sample_config 1000) (overlapped false false)
              (world_with_queue two_events []) after_overlap) as (_ & H).
  - rewrite queue_of_world_with_queue. repeat constructor; simpl; lia.
  - vm_compute. reflexivity.
  - rewrite queue_of_world_with_queue in H. exact H.
Defined.

(** A flush whose callbacks take turns, both sends failing: A, which had
    no retry, is kept with one; B, which had three, is discarded. *)
Lemma serial_flush_retires_witness :
  exists s',
    Transport.run (sample_config 1000)
      (serial_flush (fun _ => false) 0 [sample_event "A" 0; sample_event "B" 3])
      (Transport.init (world_with_queue [sample_event "A" 0; sample_event "B" 3] []))
    = Some s' /\
    queue_of (Transport.world s') = [sample_event "A" 1] /\
    fetches (Transport.world s') = 2%nat.
Proof.
  destruct (serial_flush_retires (sample_config 1000) (fun _ => false)
              (Transport.init
                 (world_with_queue [sample_event "A" 0; sample_event "B" 3] [])))
    as (s' & E & _ & _ & _ & Q & P).
  - reflexivity.
  - reflexivity.
  - simpl Transport.world. rewrite queue_of_world_with_queue. simpl.
    repeat constructor; rewrite ?not_elem_of_cons; repeat split;
      try discriminate; apply not_elem_of_nil.
  - simpl Transport.world in E, Q, P. rewrite queue_of_world_with_queue in E, Q, P.
    exists s'. split; [exact E|]. split; [rewrite Q; reflexivity|].
    rewrite P. reflexivity.
Defined.

(** Four flushes while the network is down empty the queue A, B after
    eight POSTs. *)
Lemma failed_flushes_discard_witness :
  exists s',
    failed_flushes (sample_config 1000) 4
      (Transport.init (world_with_queue two_events [])) = Some s' /\
    queue_of (Transport.world s') = [] /\
    fetches (Transport.world s') = 8%nat.
Proof.
  destruct (failed_flushes_discard (sample_config 1000) 4
              (Transport.init (world_with_queue two_events [])))
    as (s' & E & _ & _ & P & Q).
  - reflexivity.
  - reflexivity.
  - simpl Transport.world. rewrite queue_of_world_with_queue. simpl.
    repeat constructor; rewrite ?not_elem_of_cons; repeat split;
      try discriminate; apply not_elem_of_nil.
  - simpl Transport.world. rewrite queue_of_world_with_queue. simpl. lia.
  - simpl Transport.world. rewrite queue_of_world_with_queue.
    repeat constructor; simpl; lia.
  - exists s'. split; [exact E|]. split; [apply Q; lia|].
    rewrite P. simpl Transport.world. rewrite queue_of_world_with_queue. reflexivity.
Defined.

(** Two captures one second apart. *)
Lemma error_reports_per_minute_witness :
  exists this' storage' out w',
    captures (sample_config 1000) "ios/17"
      [sample_capture 0 "a"; sample_capture 1000 "b"]
      new_tracker (sample_storage "s-old" 0) fresh_world
    = (Ok (this', storage', out), w') /\
    (length (filter (within 1000) (omap error_time out)) <= 10)%nat.
Proof.
  destruct (error_reports_per_minute (sample_config 1000) "ios/17"
              [sample_capture 0 "a"; sample_capture 1000 "b"]
              new_tracker (sample_storage "s-old" 0) fresh_world 0)
    as (this' & st' & out & w' & E & H).
  - reflexivity.
  - simpl. lia.
  - exists this', st', out, w'. split; [exact E|apply H].
Defined.

(** The focus stays on Home for two changes and then moves to Profile:
    Home and Profile are reported once each. *)
Lemma hook_reports_focus_changes_witness :
  no_repeat None ["Home"; "Profile"].
Proof.
  destruct (hook_reports_focus_changes
              [Some (two_screens 0); Some (two_screens 0); Some (two_screens 1)]
              None (Some "Profile") ["Home"; "Profile"]) as (H & _).
  - reflexivity.
  - exact H.
Defined.

(** A second [destroy] does nothing. *)
Lemma destroy_is_final_witness :
  Client.destroy (sample_config 1000) 9000
    (Client.destroy (sample_config 1000) 5000 app_on_home).1
  = ((Client.destroy (sample_config 1000) 5000 app_on_home).1, []).
Proof.
  pose proof (destroy_is_final (sample_config 1000) 5000 app_on_home) as H.
  cbv zeta in H. destruct H as (_ & _ & _ & _ & _ & _ & _ & H).
  - reflexivity.
  - intros h (x & Hx). simpl in Hx. rewrite lookup_empty in Hx. discriminate.
  - apply H.
Defined.

(** The handler of the application is back after [uninstall], the
    rejection tracker is off. *)
Lemma uninstall_restores_handler_witness :
  ErrorTracker.ErrorUtils
    (ErrorTracker.uninstall
       (ErrorTracker.install hooks_as_constructed sample_runtime).1.2
       (ErrorTracker.install hooks_as_constructed sample_runtime).2).2
  = Some (ErrorTracker.Foreign 0) /\
  ErrorTracker.tracking
    (ErrorTracker.uninstall
       (ErrorTracker.install hooks_as_constructed sample_runtime).1.2
       (ErrorTracker.install hooks_as_constructed sample_runtime).2).2
  = ErrorTracker.TrackingOff.
Proof.
  pose proof (uninstall_restores_handler hooks_as_constructed sample_runtime
                eq_refl eq_refl) as H.
  cbv zeta in H. destruct H as (_ & _ & _ & _ & _ & _ & _ & H1 & H2 & _).
  split; [exact H1|exact H2].
Defined.

(** With [maxQueueSize: 0] a failed delivery is not queued. *)
Lemma resolved_queue_limit_witness :
  queue_of (Transport.sendOrQueue (resolveConfig no_queue_config)
              "/api/track/event?apiKey=k" "{}" false "C" 0
              (world_with_queue two_events [])).2 = [].
Proof.
  pose proof (resolved_queue_limit no_queue_config "/api/track/event?apiKey=k" "{}"
                "C" 0 (world_with_queue two_events []) eq_refl) as H.
  cbv zeta in H. destruct H as (_ & _ & H & _).
  apply (H 0); [reflexivity|lia].
Defined.

(** A twenty-first frame does not change the key. *)
Lemma frames_below_limit_ignored_witness :
  ErrorTracker.dedupKey (error_with_stack long_stack) =
  ErrorTracker.dedupKey
    (error_with_stack (long_stack +:+ String ErrorTracker.newline "    at g (app.js:2:2)")).
Proof.
  destruct (frames_below_limit_ignored
              (error_with_stack long_stack)
              (error_with_stack
                 (long_stack +:+ String ErrorTracker.newline "    at g (app.js:2:2)"))
              long_stack "    at g (app.js:2:2)") as (_ & H).
  - vm_compute. lia.
  - reflexivity.
  - reflexivity.
  - reflexivity.
  - exact H.
Defined.

(** Home was activated at 1000; the client is destroyed at 1300 and
    flushed at 9000: the duration of 8 s is reported by the flush. *)
Lemma flush_after_destroy_witness :
  (Client.flush (sample_config 1000) 9000
     (Client.tracker (Client.destroy (sample_config 1000) 1300 app_on_home).1)).2 =
  [Client.SendOrQueue (Client.duration_url (sample_config 1000), PDuration "view-1" 8);
   Client.TransportFlush].
Proof.
  destruct (flush_after_destroy (sample_config 1000) 1300 9000 "view-1" app_on_home)
    as (_ & H).
  - reflexivity.
  - reflexivity.
  - reflexivity.
  - discriminate.
  - discriminate.
  - reflexivity.
  - discriminate.
  - exact H.
Defined.
